(** * diffparser: a shallow embedding of [diffparser.go] and its properties

    The Go package parses unified-diff text into a tree of files, hunks
    and lines.  This development embeds [Parse], [Changed], [lineMode]
    and [isSourceLine] together with the parts of the Go runtime they
    rely on (strings, slices with a distinguished nil, 64-bit [int],
    [strconv.Atoi], [regexp]), and proves properties of the parser. *)

From Stdlib Require Import ZArith String Ascii List Lia Bool.
From stdpp Require Import gmap strings list.

Open Scope string_scope.
Open Scope list_scope.

(** ** Results of Go functions

    A Go function of type [(T, error)] either returns a value, returns
    an error, or panics at run time (nil dereference, slice bounds). *)

Inductive error : Type :=
  | errorString (s : string)             (* errors.New(s) *)
  | NumError (Func Num Err : string).    (* *strconv.NumError *)

Inductive panic : Type :=
  | NilDereference        (* invalid memory address or nil pointer dereference *)
  | SliceBounds           (* slice bounds out of range *)
  | IndexRange.           (* index out of range *)

Inductive Result (A : Type) : Type :=
  | Ok (a : A)
  | Err (e : error)
  | Panic (p : panic).

Arguments Ok {A} a.
Arguments Err {A} e.
Arguments Panic {A} p.

#[global] Instance Result_ret : MRet Result := fun A a => Ok a.

#[global] Instance Result_bind : MBind Result := fun A B k r =>
  match r with
  | Ok a => k a
  | Err e => Err e
  | Panic p => Panic p
  end.

Definition is_Ok {A} (r : Result A) : bool :=
  match r with Ok _ => true | _ => false end.

(** ** Go strings (byte sequences) *)

Module strings.

Definition dquote : string := String "034"%char EmptyString.
Definition newline : ascii := "010"%char.

(** [strings.HasPrefix(s, prefix)] *)
Fixpoint HasPrefix (s p : string) {struct p} : bool :=
  match p with
  | EmptyString => true
  | String c p' =>
      match s with
      | EmptyString => false
      | String d s' => Ascii.eqb c d && HasPrefix s' p'
      end
  end.

(** [s[n:]] without the bounds check. *)
Fixpoint drop (n : nat) (s : string) : string :=
  match n with
  | O => s
  | S n' => match s with EmptyString => EmptyString | String _ s' => drop n' s' end
  end.

(** [s[:n]] without the bounds check. *)
Fixpoint take (n : nat) (s : string) : string :=
  match n with
  | O => EmptyString
  | S n' => match s with EmptyString => EmptyString | String c s' => String c (take n' s') end
  end.

(** [s[n:]] as Go evaluates it: out-of-range bounds panic. *)
Definition slice_from (s : string) (n : nat) : Result string :=
  if Nat.leb n (String.length s) then Ok (drop n s) else Panic SliceBounds.

(** [s[:n]] as Go evaluates it. *)
Definition slice_to (s : string) (n : nat) : Result string :=
  if Nat.leb n (String.length s) then Ok (take n s) else Panic SliceBounds.

(** [strings.TrimPrefix(s, prefix)] *)
Definition TrimPrefix (s p : string) : string :=
  if HasPrefix s p then drop (String.length p) s else s.

(** [strings.Split(s, "\n")]: the pieces between newlines; never empty. *)
Fixpoint Split (s : string) : list string :=
  match s with
  | EmptyString => [EmptyString]
  | String c r =>
      if Ascii.eqb c newline then EmptyString :: Split r
      else match Split r with
           | h :: t => String c h :: t
           | [] => [String c EmptyString]
           end
  end.

(** [strings.Contains(s, substr)] *)
Fixpoint Contains (s sub : string) : bool :=
  HasPrefix s sub ||
  match s with
  | EmptyString => false
  | String _ r => Contains r sub
  end.

End strings.

(** ** Go slices

    A slice value is either nil or a sequence of elements; [append] to a
    nil slice yields a non-nil one. *)

Module slice.

Definition t (A : Type) : Type := option (list A).

Definition nil {A} : t A := None.

Definition elems {A} (s : t A) : list A :=
  match s with None => [] | Some l => l end.

Definition len {A} (s : t A) : nat := length (elems s).

Definition append {A} (s : t A) (x : A) : t A := Some (elems s ++ [x]).

Definition is_nil {A} (s : t A) : bool :=
  match s with None => true | Some _ => false end.

(** The element a cursor pointer refers to when it was taken from the
    slot appended last. *)
Definition current {A} (s : t A) : option A := last (elems s).

(** Writing through such a pointer: the last slot changes in place. *)
Fixpoint set_last {A} (x : A) (l : list A) : list A :=
  match l with
  | [] => []
  | [_] => [x]
  | y :: l' => y :: set_last x l'
  end.

Definition set_current {A} (x : A) (s : t A) : t A :=
  match s with None => None | Some l => Some (set_last x l) end.

End slice.

(** ** 64-bit [int] *)

Module int.

Definition min : Z := (- 2 ^ 63)%Z.
Definition max : Z := (2 ^ 63 - 1)%Z.

(** Two's-complement wrap-around of Go's [int] on 64-bit targets. *)
Definition wrap (z : Z) : Z := ((z + 2 ^ 63) mod 2 ^ 64 - 2 ^ 63)%Z.

Definition incr (z : Z) : Z := wrap (z + 1).

Definition in_range (z : Z) : bool := (Z.leb min z && Z.leb z max)%Z.

End int.

(** ** [strconv.Atoi] *)

Module strconv.

Definition ErrSyntax : string := "invalid syntax".
Definition ErrRange : string := "value out of range".

Definition is_digit (c : ascii) : bool :=
  let n := nat_of_ascii c in Nat.leb 48 n && Nat.leb n 57.

Definition digit_val (c : ascii) : Z := Z.of_nat (nat_of_ascii c - 48).

(** Value of a string of decimal digits, [None] when a byte is not a digit. *)
Fixpoint digits (acc : Z) (s : string) : option Z :=
  match s with
  | EmptyString => Some acc
  | String c r =>
      if is_digit c then digits (10 * acc + digit_val c)%Z r else None
  end.

(** [strconv.Atoi(s)]: optional sign, at least one digit, decimal only;
    a value outside [int] is a range error. *)
Definition Atoi (s : string) : Result Z :=
  let '(neg, body) :=
    match s with
    | String "-"%char r => (true, r)
    | String "+"%char r => (false, r)
    | _ => (false, s)
    end in
  match body with
  | EmptyString => Err (NumError "Atoi" s ErrSyntax)
  | _ =>
      match digits 0 body with
      | None => Err (NumError "Atoi" s ErrSyntax)
      | Some v =>
          let v := if neg then (- v)%Z else v in
          if int.in_range v then Ok v else Err (NumError "Atoi" s ErrRange)
      end
  end.

(** [strconv.Quote] on text without quotes, backslashes or control
    bytes (the only text [Atoi] is given here: captured digit runs). *)
Definition Quote (s : string) : string := strings.dquote +:+ s +:+ strings.dquote.

End strconv.

(** [e.Error()] *)
Definition Error (e : error) : string :=
  match e with
  | errorString s => s
  | NumError f n m => "strconv." +:+ f +:+ ": parsing " +:+ strconv.Quote n +:+ ": " +:+ m
  end.

(** ** [regexp]: leftmost-first matching with submatches

    Go's [regexp] returns, among the matches that start leftmost, the one
    a backtracking engine would find first.  [matches r s] lists every
    way [r] matches a prefix of [s], most preferred first, as
    (matched text, captures, remaining text).  The patterns of this
    package only use literals, greedy [+] on a character class, greedy
    [?], alternation, concatenation and capture groups; [.] only occurs
    as a final [.+], and [\d] is the ASCII digits, so matching bytes
    instead of runes selects the same text. *)

Module regexp.

Inductive t : Type :=
  | Lit (s : string)                  (* literal text *)
  | Plus (cls : ascii -> bool)        (* [c+], greedy *)
  | Opt (r : t)                       (* [r?], greedy *)
  | Alt (r1 r2 : t)                   (* [r1|r2] *)
  | Cat (r1 r2 : t)                   (* [r1 r2] *)
  | Group (i : nat) (r : t).          (* i-th capture group *)

Definition captures : Type := list (nat * string).

Definition candidate : Type := string * captures * string.

(** Non-empty runs of [cls] at the head of [s], longest first. *)
Fixpoint runs (cls : ascii -> bool) (s : string) : list (string * string) :=
  match s with
  | EmptyString => []
  | String c r =>
      if cls c
      then map (fun pr => (String c (fst pr), snd pr)) (runs cls r) ++ [(String c EmptyString, r)]
      else []
  end.

Fixpoint matches (r : t) (s : string) : list candidate :=
  match r with
  | Lit p =>
      if strings.HasPrefix s p then [(p, [], strings.drop (String.length p) s)] else []
  | Plus cls => map (fun pr => (fst pr, [], snd pr)) (runs cls s)
  | Opt r1 => matches r1 s ++ [(EmptyString, [], s)]
  | Alt r1 r2 => matches r1 s ++ matches r2 s
  | Cat r1 r2 =>
      flat_map
        (fun c1 : candidate =>
           let '(p1, g1, s1) := c1 in
           map (fun c2 : candidate =>
                  let '(p2, g2, s2) := c2 in (p1 +:+ p2, g1 ++ g2, s2))
               (matches r2 s1))
        (matches r1 s)
  | Group i r1 =>
      map (fun c : candidate => let '(p, g, s') := c in (p, (i, p) :: g, s'))
          (matches r1 s)
  end.

(** Text of group [i]; the empty string when the group did not take
    part.  (No group whose text is read is repeated by its pattern.) *)
Fixpoint group (g : captures) (i : nat) : string :=
  match g with
  | [] => EmptyString
  | (j, p) :: g' => if Nat.eqb i j then p else group g' i
  end.

(** The slice [FindStringSubmatch] returns for a match: whole match, then
    groups 1..n. *)
Definition submatches (n : nat) (p : string) (g : captures) : list string :=
  p :: map (group g) (seq 1 n).

(** [re.FindStringSubmatch(s)] for a pattern with [n] groups; [[]] is
    Go's nil result (no match).  The search tries each start position
    from the left. *)
Fixpoint FindStringSubmatch (r : t) (n : nat) (s : string) : list string :=
  match matches r s with
  | (p, g, _) :: _ => submatches n p g
  | [] =>
      match s with
      | EmptyString => []
      | String _ s' => FindStringSubmatch r n s'
      end
  end.

(** [re.MatchString(s)] for a pattern of the shape [^r$]: [r] matches
    the whole of [s]. *)
Definition MatchWhole (r : t) (s : string) : bool :=
  existsb (fun c : candidate => String.eqb (snd c) EmptyString) (matches r s).

(** [.]: any byte but a newline. *)
Definition dot (c : ascii) : bool := negb (Ascii.eqb c strings.newline).

End regexp.

(** ** Data model of [diffparser.go] *)

(** [FileMode]: the file status in a diff ([iota] order). *)
Inductive FileMode : Type := Deleted | Modified | New.

(** [DiffLineMode]: the line is added, removed or unchanged. *)
Inductive DiffLineMode : Type := Added | Removed | Unchanged.

#[global] Instance FileMode_eq_dec : EqDecision FileMode.
Proof. solve_decision. Defined.

#[global] Instance DiffLineMode_eq_dec : EqDecision DiffLineMode.
Proof. solve_decision. Defined.

Module DiffLine.
Record t : Type := mk {
  Mode : DiffLineMode;
  Number : Z;
  Content : string;
  Position : Z            (* the line in the diff *)
}.
End DiffLine.

(** A [*DiffLine]: the address of a record in the store of line records.
    [OrigRange], [NewRange] and [WholeRange] hold such addresses, so two
    ranges can share one record. *)
Abbreviation ptr := nat.

Abbreviation Store := (list DiffLine.t).

Module DiffRange.
Record t : Type := mk {
  Start : Z;
  Length : Z;
  Lines : slice.t ptr
}.
Definition zero : t := mk 0 0 slice.nil.
Definition add_line (r : t) (p : ptr) : t :=
  mk (Start r) (Length r) (slice.append (Lines r) p).
End DiffRange.

Module DiffChunk.
Record t : Type := mk {
  ChunkHeader : string;
  OrigRange : DiffRange.t;
  NewRange : DiffRange.t;
  WholeRange : DiffRange.t
}.
Definition zero : t := mk EmptyString DiffRange.zero DiffRange.zero DiffRange.zero.
End DiffChunk.

Module DiffFile.
Record t : Type := mk {
  DiffHeader : string;
  Mode : FileMode;
  OrigName : string;
  NewName : string;
  Chunks : slice.t DiffChunk.t
}.
Definition set_Mode (m : FileMode) (f : t) : t :=
  mk (DiffHeader f) m (OrigName f) (NewName f) (Chunks f).
Definition set_OrigName (n : string) (f : t) : t :=
  mk (DiffHeader f) (Mode f) n (NewName f) (Chunks f).
Definition set_NewName (n : string) (f : t) : t :=
  mk (DiffHeader f) (Mode f) (OrigName f) n (Chunks f).
Definition set_Chunks (c : slice.t DiffChunk.t) (f : t) : t :=
  mk (DiffHeader f) (Mode f) (OrigName f) (NewName f) c.
End DiffFile.

Module Diff.
Record t : Type := mk {
  Files : slice.t DiffFile.t;
  Raw : string;
  PullID : Z
}.
End Diff.

(** ** [lineMode] and [isSourceLine] *)

Definition lineMode (line : string) : Result DiffLineMode :=
  c ← strings.slice_to line 1;
  if String.eqb c " " then Ok Unchanged
  else if String.eqb c "+" then Ok Added
  else if String.eqb c "-" then Ok Removed
  else Err (errorString ("could not parse line mode for line: "
                         +:+ strings.dquote +:+ line +:+ strings.dquote)).

Definition isSourceLine (line : string) : bool :=
  if String.eqb line "\ No newline at end of file" then false
  else
    let l := String.length line in
    if Nat.eqb l 0
       || (Nat.leb 3 l
           && (String.eqb (strings.take 3 line) "---"
               || String.eqb (strings.take 3 line) "+++"))
    then false
    else true.

(** ** The patterns compiled inside [Parse] *)

Import regexp.

(** [^index .+$] *)
Definition rein : regexp.t := Cat (Lit "index ") (Plus dot).

(** [^(-|\+){3} .+$] *)
Definition remp : regexp.t :=
  let sign := Group 1 (Alt (Lit "-") (Lit "+")) in
  Cat sign (Cat sign (Cat sign (Cat (Lit " ") (Plus dot)))).

(** [@@ \-(\d+),?(\d+)? \+(\d+),?(\d+)? @@ ?(.+)?] *)
Definition hunk_re : regexp.t :=
  Cat (Lit "@@ -")
  (Cat (Group 1 (Plus strconv.is_digit))
  (Cat (Opt (Lit ","))
  (Cat (Opt (Group 2 (Plus strconv.is_digit)))
  (Cat (Lit " +")
  (Cat (Group 3 (Plus strconv.is_digit))
  (Cat (Opt (Lit ","))
  (Cat (Opt (Group 4 (Plus strconv.is_digit)))
  (Cat (Lit " @@")
  (Cat (Opt (Lit " "))
       (Opt (Group 5 (Plus dot)))))))))))).

(** [m[i]] on the [[]string] a submatch search returned. *)
Definition index (m : list string) (i : nat) : Result string :=
  match m !! i with
  | Some x => Ok x
  | None => Panic IndexRange
  end.

(** ** [Parse]

    The loop of [Parse] updates local variables and the objects behind
    [file] and [hunk].  [file] is nil until the first [diff ] line and
    afterwards is the pointer appended last to [diff.Files]; [hunk] is
    only dereferenced while [inHunk], and then it is the pointer appended
    last to [file.Chunks].  The state therefore keeps [diff] and reads
    both pointers as the current (last) slot of their slice.  [heap]
    holds the [DiffLine] records whose address was stored in a range. *)

Record State : Type := mkState {
  diff : Diff.t;
  heap : Store;
  AddedCount : Z;
  RemovedCount : Z;
  inHunk : bool;
  diffPosCount : Z;
  firstHunkInFile : bool
}.

Definition file (st : State) : option DiffFile.t :=
  slice.current (Diff.Files (diff st)).

Definition hunk (st : State) : option DiffChunk.t :=
  f ← file st; slice.current (DiffFile.Chunks f).

Definition set_Files (fs : slice.t DiffFile.t) (d : Diff.t) : Diff.t :=
  Diff.mk fs (Diff.Raw d) (Diff.PullID d).

(** [*file = f] *)
Definition store_file (f : DiffFile.t) (st : State) : State :=
  mkState (set_Files (slice.set_current f (Diff.Files (diff st))) (diff st))
          (heap st) (AddedCount st) (RemovedCount st) (inHunk st)
          (diffPosCount st) (firstHunkInFile st).

(** [*hunk = c] *)
Definition store_hunk (c : DiffChunk.t) (f : DiffFile.t) : DiffFile.t :=
  DiffFile.set_Chunks (slice.set_current c (DiffFile.Chunks f)) f.

(** A field assignment through [file]; nil panics. *)
Definition with_file (upd : DiffFile.t -> DiffFile.t) (st : State) : Result State :=
  match file st with
  | None => Panic NilDereference
  | Some f => Ok (store_file (upd f) st)
  end.

(** The initial state: Go's zero values, and [diff.Raw = diffString]. *)
Definition init (diffString : string) : State :=
  mkState (Diff.mk slice.nil diffString 0) [] 0 0 false 0 false.

(** The header text of a new file ([header] at the end of the
    [diff ] case). *)
Definition header_of (lines : list string) (idx : nat) (l : string) : string :=
  if Nat.ltb (idx + 3) (length lines) then
    let index := nth (idx + 1) lines EmptyString in
    let header :=
      if MatchWhole rein index then l +:+ String strings.newline index else l in
    let mp1 := nth (idx + 2) lines EmptyString in
    let mp2 := nth (idx + 3) lines EmptyString in
    if MatchWhole remp mp1 && MatchWhole remp mp2
    then header +:+ String strings.newline mp1 +:+ String strings.newline mp2
    else header
  else l.

(** case [strings.HasPrefix(l, "diff ")] *)
Definition case_diff (lines : list string) (idx : nat) (l : string) (st : State) : Result State :=
  let f := DiffFile.mk (header_of lines idx l) Modified EmptyString EmptyString slice.nil in
  Ok (mkState (set_Files (slice.append (Diff.Files (diff st)) f) (diff st))
              (heap st) (AddedCount st) (RemovedCount st)
              false (diffPosCount st) true).

(** The heading fields [a], [b], [c], [d] and the free text. *)
Definition parse_heading (l : string) : Result (Z * Z * Z * Z * string) :=
  let m := FindStringSubmatch hunk_re 5 l in
  if Nat.ltb (length m) 5 then Err (errorString ("Error parsing line: " +:+ l))
  else
    m1 ← index m 1;
    a ← strconv.Atoi m1;
    m2 ← index m 2;
    b ← (if Nat.ltb 0 (String.length m2) then strconv.Atoi m2 else Ok a);
    m3 ← index m 3;
    c ← strconv.Atoi m3;
    m4 ← index m 4;
    d ← (if Nat.ltb 0 (String.length m4) then strconv.Atoi m4 else Ok c);
    m5 ← index m 5;
    Ok (a, b, c, d, if Nat.ltb 0 (String.length m5) then m5 else EmptyString).

(** case [strings.HasPrefix(l, "@@ ")] *)
Definition case_hunk (l : string) (st : State) : Result State :=
  let pos := if firstHunkInFile st then 0%Z else diffPosCount st in
  match file st with
  | None => Panic NilDereference        (* file.Chunks = append(file.Chunks, hunk) *)
  | Some f =>
      '(a, b, c, d, header) ← parse_heading l;
      let h := DiffChunk.mk header
                 (DiffRange.mk a b slice.nil)
                 (DiffRange.mk c d slice.nil)
                 DiffRange.zero in
      let f' := DiffFile.set_Chunks (slice.append (DiffFile.Chunks f) h) f in
      Ok (mkState (diff (store_file f' st)) (heap st)
                  c a true pos false)
  end.

(** [&line]: the record escapes to the heap; its address is the next
    free one. *)
Definition alloc (dl : DiffLine.t) (h : Store) : ptr * Store := (length h, h ++ [dl]).

(** The three branches of [switch *m] as updates of [*hunk]. *)
Definition add_Added (p : ptr) (c : DiffChunk.t) : DiffChunk.t :=
  DiffChunk.mk (DiffChunk.ChunkHeader c) (DiffChunk.OrigRange c)
               (DiffRange.add_line (DiffChunk.NewRange c) p)
               (DiffRange.add_line (DiffChunk.WholeRange c) p).

Definition add_Removed (p : ptr) (c : DiffChunk.t) : DiffChunk.t :=
  DiffChunk.mk (DiffChunk.ChunkHeader c)
               (DiffRange.add_line (DiffChunk.OrigRange c) p)
               (DiffChunk.NewRange c)
               (DiffRange.add_line (DiffChunk.WholeRange c) p).

Definition add_Unchanged (pn po : ptr) (c : DiffChunk.t) : DiffChunk.t :=
  DiffChunk.mk (DiffChunk.ChunkHeader c)
               (DiffRange.add_line (DiffChunk.OrigRange c) po)
               (DiffRange.add_line (DiffChunk.NewRange c) pn)
               (DiffRange.add_line (DiffChunk.WholeRange c) pn).

(** case [inHunk && isSourceLine(l)] *)
Definition case_body (l : string) (st : State) : Result State :=
  m ← lineMode l;
  content ← strings.slice_from l 1;
  let pos := diffPosCount st in
  match file st, hunk st with
  | Some f, Some c =>
      match m with
      | Added =>
          content' ← strings.slice_from content 1;
          let '(p, h') := alloc (DiffLine.mk Added (AddedCount st) content' pos) (heap st) in
          let f' := store_hunk (add_Added p c) f in
          Ok (mkState (diff (store_file f' st)) h'
                      (int.incr (AddedCount st)) (RemovedCount st)
                      (inHunk st) pos (firstHunkInFile st))
      | Removed =>
          content' ← strings.slice_from content 1;
          let '(p, h') := alloc (DiffLine.mk Removed (RemovedCount st) content' pos) (heap st) in
          let f' := store_hunk (add_Removed p c) f in
          Ok (mkState (diff (store_file f' st)) h'
                      (AddedCount st) (int.incr (RemovedCount st))
                      (inHunk st) pos (firstHunkInFile st))
      | Unchanged =>
          let '(pn, h1) := alloc (DiffLine.mk Unchanged (AddedCount st) content pos) (heap st) in
          let '(po, h2) := alloc (DiffLine.mk Unchanged (RemovedCount st) content pos) h1 in
          let f' := store_hunk (add_Unchanged pn po c) f in
          Ok (mkState (diff (store_file f' st)) h2
                      (int.incr (AddedCount st)) (int.incr (RemovedCount st))
                      (inHunk st) pos (firstHunkInFile st))
      end
  | _, _ => Panic NilDereference
  end.

(** The cases of the [switch] in the loop body, in source order. *)
Inductive LineCase : Type :=
  | CaseDiff | CaseDeleted | CaseNew | CaseOrigName | CaseNewName
  | CaseHunk | CaseBody | CaseNone.

Definition oldFilePrefix : string := "--- a/".
Definition newFilePrefix : string := "+++ b/".

Definition classify (in_hunk : bool) (l : string) : LineCase :=
  if strings.HasPrefix l "diff " then CaseDiff
  else if String.eqb l "+++ /dev/null" then CaseDeleted
  else if String.eqb l "--- /dev/null" then CaseNew
  else if strings.HasPrefix l oldFilePrefix then CaseOrigName
  else if strings.HasPrefix l newFilePrefix then CaseNewName
  else if strings.HasPrefix l "@@ " then CaseHunk
  else if in_hunk && isSourceLine l then CaseBody
  else CaseNone.

Definition tick (st : State) : State :=
  mkState (diff st) (heap st) (AddedCount st) (RemovedCount st)
          (inHunk st) (int.incr (diffPosCount st)) (firstHunkInFile st).

(** One iteration of [for idx, l := range lines]. *)
Definition step (lines : list string) (idx : nat) (l : string) (st0 : State) : Result State :=
  let st := tick st0 in
  match classify (inHunk st) l with
  | CaseDiff => case_diff lines idx l st
  | CaseDeleted => with_file (DiffFile.set_Mode Deleted) st
  | CaseNew => with_file (DiffFile.set_Mode New) st
  | CaseOrigName =>
      with_file (DiffFile.set_OrigName (strings.TrimPrefix l oldFilePrefix)) st
  | CaseNewName =>
      with_file (DiffFile.set_NewName (strings.TrimPrefix l newFilePrefix)) st
  | CaseHunk => case_hunk l st
  | CaseBody => case_body l st
  | CaseNone => Ok st
  end.

(** The loop over [rest], the lines from position [idx] on. *)
Fixpoint loop (lines : list string) (idx : nat) (rest : list string) (st : State) : Result State :=
  match rest with
  | [] => Ok st
  | l :: rest' => st' ← step lines idx l st; loop lines (S idx) rest' st'
  end.

(** [Parse(diffString)]: the returned [*Diff] is the diff value together
    with the line records its ranges point to. *)
Definition Parse (diffString : string) : Result (Store * Diff.t) :=
  let lines := strings.Split diffString in
  st ← loop lines 0 lines (init diffString);
  Ok (heap st, diff st).

(** ** [Changed] *)

Definition deref (h : Store) (p : ptr) : Result DiffLine.t :=
  match h !! p with
  | Some dl => Ok dl
  | None => Panic NilDereference
  end.

(** [for ... range xs] with a body that may panic. *)
Fixpoint foldM {A B} (body : B -> A -> Result B) (xs : list A) (acc : B) : Result B :=
  match xs with
  | [] => Ok acc
  | x :: xs' => acc' ← body acc x; foldM body xs' acc'
  end.

(** [dFiles[name] = append(dFiles[name], n)] *)
Definition push (name : string) (n : Z) (m : gmap string (list Z)) : gmap string (list Z) :=
  <[name := default [] (m !! name) ++ [n]]> m.

Definition Changed_line (h : Store) (name : string)
    (m : gmap string (list Z)) (p : ptr) : Result (gmap string (list Z)) :=
  dl ← deref h p;
  if decide (DiffLine.Mode dl = Added) then Ok (push name (DiffLine.Number dl) m) else Ok m.

Definition Changed_chunk (h : Store) (name : string)
    (m : gmap string (list Z)) (c : DiffChunk.t) : Result (gmap string (list Z)) :=
  foldM (Changed_line h name) (slice.elems (DiffRange.Lines (DiffChunk.NewRange c))) m.

Definition Changed_file (h : Store)
    (m : gmap string (list Z)) (f : DiffFile.t) : Result (gmap string (list Z)) :=
  if decide (DiffFile.Mode f = Deleted) then Ok m
  else foldM (Changed_chunk h (DiffFile.NewName f)) (slice.elems (DiffFile.Chunks f)) m.

Definition Changed (h : Store) (d : Diff.t) : Result (gmap string (list Z)) :=
  foldM (Changed_file h) (slice.elems (Diff.Files d)) ∅.

(** [hunk.Length()] *)
Definition Chunk_Length (c : DiffChunk.t) : Z :=
  int.wrap (Z.of_nat (slice.len (DiffRange.Lines (DiffChunk.WholeRange c))) + 1).

(** ** Test inputs *)

(** [strings.Join(ls, "\n")] *)
Fixpoint unlines (ls : list string) : string :=
  match ls with
  | [] => EmptyString
  | [l] => l
  | l :: ls' => l +:+ String strings.newline (unlines ls')
  end.

(** ** Views of the state *)

(** The elements of [d.Files], of [f.Chunks] and of [r.Lines]. *)
Definition files_of (d : Diff.t) : list DiffFile.t := slice.elems (Diff.Files d).

Definition chunks_of (f : DiffFile.t) : list DiffChunk.t := slice.elems (DiffFile.Chunks f).

Definition lines_of (r : DiffRange.t) : list ptr := slice.elems (DiffRange.Lines r).

(** Every hunk of the diff, in input order. *)
Definition all_chunks (d : Diff.t) : list DiffChunk.t := flat_map chunks_of (files_of d).

(** The state once the first [k] lines have been processed. *)
Definition state_after (s : string) (k : nat) : Result State :=
  let lines := strings.Split s in
  loop lines 0 (take k lines) (init s).

(** ** Vocabulary of the statements *)

(** The state a body line leaves behind, by mode. *)
Definition body_result (m : DiffLineMode) (l : string) (st : State)
    (f : DiffFile.t) (c : DiffChunk.t) : State :=
  let pos := diffPosCount st in
  let n := length (heap st) in
  match m with
  | Added =>
      mkState (diff (store_file (store_hunk (add_Added n c) f) st))
        (heap st ++ [DiffLine.mk Added (AddedCount st) (strings.drop 2 l) pos])
        (int.incr (AddedCount st)) (RemovedCount st)
        (inHunk st) pos (firstHunkInFile st)
  | Removed =>
      mkState (diff (store_file (store_hunk (add_Removed n c) f) st))
        (heap st ++ [DiffLine.mk Removed (RemovedCount st) (strings.drop 2 l) pos])
        (AddedCount st) (int.incr (RemovedCount st))
        (inHunk st) pos (firstHunkInFile st)
  | Unchanged =>
      mkState (diff (store_file (store_hunk (add_Unchanged n (S n) c) f) st))
        (heap st ++ [DiffLine.mk Unchanged (AddedCount st) (strings.drop 1 l) pos;
                     DiffLine.mk Unchanged (RemovedCount st) (strings.drop 1 l) pos])
        (int.incr (AddedCount st)) (int.incr (RemovedCount st))
        (inHunk st) pos (firstHunkInFile st)
  end.

(** The effect of a successful iteration, case by case. *)
Inductive step_effect (lines : list string) (idx : nat) (l : string)
    (st0 st' : State) : Prop :=
  | eff_diff :
      classify (inHunk st0) l = CaseDiff ->
      st' = mkState
              (set_Files
                 (slice.append (Diff.Files (diff st0))
                    (DiffFile.mk (header_of lines idx l) Modified
                                 EmptyString EmptyString slice.nil))
                 (diff st0))
              (heap st0) (AddedCount st0) (RemovedCount st0) false
              (int.incr (diffPosCount st0)) true ->
      step_effect lines idx l st0 st'
  | eff_file (upd : DiffFile.t -> DiffFile.t) (F : list DiffFile.t) (f : DiffFile.t) :
      classify (inHunk st0) l <> CaseDiff ->
      classify (inHunk st0) l <> CaseHunk ->
      classify (inHunk st0) l <> CaseBody ->
      (forall g, DiffFile.DiffHeader (upd g) = DiffFile.DiffHeader g
                 /\ DiffFile.Chunks (upd g) = DiffFile.Chunks g) ->
      files_of (diff st0) = F ++ [f] ->
      st' = store_file (upd f) (tick st0) ->
      step_effect lines idx l st0 st'
  | eff_hunk (F : list DiffFile.t) (f : DiffFile.t) (a b c d : Z) (hd : string) :
      classify (inHunk st0) l = CaseHunk ->
      files_of (diff st0) = F ++ [f] ->
      parse_heading l = Ok (a, b, c, d, hd) ->
      st' = mkState
         (diff (store_file
            (DiffFile.set_Chunks
               (slice.append (DiffFile.Chunks f)
                  (DiffChunk.mk hd (DiffRange.mk a b slice.nil)
                                (DiffRange.mk c d slice.nil) DiffRange.zero)) f) st0))
         (heap st0) c a true
         (if firstHunkInFile st0 then 0%Z else int.incr (diffPosCount st0)) false ->
      step_effect lines idx l st0 st'
  | eff_body (F : list DiffFile.t) (f : DiffFile.t)
             (C : list DiffChunk.t) (c : DiffChunk.t) (m : DiffLineMode) :
      classify (inHunk st0) l = CaseBody ->
      files_of (diff st0) = F ++ [f] ->
      chunks_of f = C ++ [c] ->
      lineMode l = Ok m ->
      (m <> Unchanged -> 2 <= String.length l) ->
      st' = body_result m l (tick st0) f c ->
      step_effect lines idx l st0 st'
  | eff_none :
      classify (inHunk st0) l = CaseNone ->
      st' = tick st0 ->
      step_effect lines idx l st0 st'.

(** A range later on: same Start and Length, Lines grown at the end. *)
Definition range_ext (r r' : DiffRange.t) : Prop :=
  DiffRange.Start r' = DiffRange.Start r
  /\ DiffRange.Length r' = DiffRange.Length r
  /\ lines_of r `prefix_of` lines_of r'.

(** A hunk later on: same header, each range later on. *)
Definition chunk_ext (c c' : DiffChunk.t) : Prop :=
  DiffChunk.ChunkHeader c' = DiffChunk.ChunkHeader c
  /\ range_ext (DiffChunk.OrigRange c) (DiffChunk.OrigRange c')
  /\ range_ext (DiffChunk.NewRange c) (DiffChunk.NewRange c')
  /\ range_ext (DiffChunk.WholeRange c) (DiffChunk.WholeRange c').

(** Every hunk of [C] is still there, at its position, in [C']. *)
Definition chunks_ext (C C' : list DiffChunk.t) : Prop :=
  forall i c, C !! i = Some c -> exists c', C' !! i = Some c' /\ chunk_ext c c'.

(** The headers of the files, in order. *)
Definition headers (d : Diff.t) : list string := map DiffFile.DiffHeader (files_of d).

(** [st'] is a later state than [st]: records, hunks and file headers
    are only ever added, and a hunk's ranges only grow at the end. *)
Definition extends (st st' : State) : Prop :=
  heap st `prefix_of` heap st'
  /\ chunks_ext (all_chunks (diff st)) (all_chunks (diff st'))
  /\ headers (diff st) `prefix_of` headers (diff st').

(** The hunk a body line extends, by mode. *)
Definition add_line (m : DiffLineMode) (n : ptr) (c : DiffChunk.t) : DiffChunk.t :=
  match m with
  | Added => add_Added n c
  | Removed => add_Removed n c
  | Unchanged => add_Unchanged n (S n) c
  end.

(** How the list of all hunks changes in one iteration: not at all, by
    a new hunk with empty ranges at the end, or by a body line added to
    the last hunk. *)
Inductive chunks_effect (l : string) (st st' : State) : Prop :=
  | ce_same :
      classify (inHunk st) l <> CaseBody ->
      classify (inHunk st) l <> CaseHunk ->
      heap st' = heap st ->
      all_chunks (diff st') = all_chunks (diff st) ->
      chunks_effect l st st'
  | ce_new (a b c d : Z) (hd : string) :
      classify (inHunk st) l = CaseHunk ->
      parse_heading l = Ok (a, b, c, d, hd) ->
      heap st' = heap st ->
      all_chunks (diff st') =
        all_chunks (diff st) ++
        [DiffChunk.mk hd (DiffRange.mk a b slice.nil)
                      (DiffRange.mk c d slice.nil) DiffRange.zero] ->
      chunks_effect l st st'
  | ce_body (A : list DiffChunk.t) (c : DiffChunk.t) (m : DiffLineMode)
            (f : DiffFile.t) :
      classify (inHunk st) l = CaseBody ->
      lineMode l = Ok m ->
      (m <> Unchanged -> 2 <= String.length l) ->
      hunk st = Some c ->
      hunk st' = Some (add_line m (length (heap st)) c) ->
      all_chunks (diff st) = A ++ [c] ->
      all_chunks (diff st') = A ++ [add_line m (length (heap st)) c] ->
      st' = body_result m l (tick st) f c ->
      chunks_effect l st st'.

(** The addresses held by the three ranges of a hunk. *)
Definition chunk_ptrs (c : DiffChunk.t) : list ptr :=
  lines_of (DiffChunk.OrigRange c) ++ lines_of (DiffChunk.NewRange c)
  ++ lines_of (DiffChunk.WholeRange c).

(** Every address held by a range is allocated in [h]. *)
Definition ptrs_valid (h : Store) (d : Diff.t) : Prop :=
  forall c p, c ∈ all_chunks d -> p ∈ chunk_ptrs c -> p < length h.

(** The marker byte a mode is read from. *)
Definition marker (m : DiffLineMode) : ascii :=
  match m with Added => "+" | Removed => "-" | Unchanged => " " end%char.

(** What a body line of mode [m] adds: the records appended to the heap
    between [st] and [st'], and the addresses appended to the ranges of
    the current hunk, [c] before and [c'] after the line. *)
Definition contributes (m : DiffLineMode) (l : string)
    (st st' : State) (c c' : DiffChunk.t) : Prop :=
  let n := length (heap st) in
  let pos := int.incr (diffPosCount st) in
  match m with
  | Unchanged =>
      heap st' = heap st ++
        [DiffLine.mk Unchanged (AddedCount st) (strings.drop 1 l) pos;
         DiffLine.mk Unchanged (RemovedCount st) (strings.drop 1 l) pos]
      /\ lines_of (DiffChunk.NewRange c') = lines_of (DiffChunk.NewRange c) ++ [n]
      /\ lines_of (DiffChunk.OrigRange c') = lines_of (DiffChunk.OrigRange c) ++ [S n]
      /\ lines_of (DiffChunk.WholeRange c') = lines_of (DiffChunk.WholeRange c) ++ [n]
  | Added =>
      heap st' = heap st ++
        [DiffLine.mk Added (AddedCount st) (strings.drop 2 l) pos]
      /\ lines_of (DiffChunk.NewRange c') = lines_of (DiffChunk.NewRange c) ++ [n]
      /\ lines_of (DiffChunk.OrigRange c') = lines_of (DiffChunk.OrigRange c)
      /\ lines_of (DiffChunk.WholeRange c') = lines_of (DiffChunk.WholeRange c) ++ [n]
  | Removed =>
      heap st' = heap st ++
        [DiffLine.mk Removed (RemovedCount st) (strings.drop 2 l) pos]
      /\ lines_of (DiffChunk.NewRange c') = lines_of (DiffChunk.NewRange c)
      /\ lines_of (DiffChunk.OrigRange c') = lines_of (DiffChunk.OrigRange c) ++ [n]
      /\ lines_of (DiffChunk.WholeRange c') = lines_of (DiffChunk.WholeRange c) ++ [n]
  end.

(** No range of the state refers to address [p]. *)
Definition fresh (p : ptr) (st : State) : Prop :=
  forall c, c ∈ all_chunks (diff st) -> p ∉ chunk_ptrs c.

(** A small diff used to exercise the statements below. *)
Definition sample : string :=
  unlines ["diff --git a/file1 b/file1";
           "index 9f1a0cd..a2e7e6a 100644";
           "--- a/file1";
           "+++ b/file1";
           "@@ -1,4 +1,4 @@";
           "+add a line";
           " some";
           " lines";
           "-in";
           " file1"].

(** The records and the Diff that Parse returns for [sample]. *)
Definition sample_heap : Store :=
  match Parse sample with Ok (h, _) => h | _ => [] end.

Definition sample_diff : Diff.t :=
  match Parse sample with Ok (_, d) => d | _ => Diff.mk slice.nil EmptyString 0 end.

(** The state before line [j] of [s] ([init] if the parse stops earlier). *)
Definition state_before (s : string) (j : nat) : State :=
  match state_after s j with Ok st => st | _ => init s end.

(** The records of [h] stored for a line: those allocated between the
    state before it and the state after it. *)
Definition stored_between (st st' : State) (h : Store) (dl : DiffLine.t) : Prop :=
  exists p, length (heap st) <= p < length (heap st') /\ h !! p = Some dl.

(** How many leading bytes of a body line are left out of Content. *)
Definition stripped (m : DiffLineMode) : nat :=
  match m with Unchanged => 1 | Added | Removed => 2 end.

(** The text holds no newline, as every piece of [strings.Split]. *)
Fixpoint no_newline (s : string) : bool :=
  match s with
  | EmptyString => true
  | String c r => dot c && no_newline r
  end.

(** [index ] followed by at least one byte. *)
Definition is_index_line (l : string) : bool :=
  strings.HasPrefix l "index " && Nat.ltb 6 (String.length l).

(** [-] or [+]. *)
Definition is_sign (a : ascii) : bool := Ascii.eqb a "-" || Ascii.eqb a "+".

(** Three signs, a space, and at least one byte. *)
Definition is_marker_line (l : string) : bool :=
  match l with
  | String a (String b (String c (String d (String _ _)))) =>
      is_sign a && is_sign b && is_sign c && Ascii.eqb d " "
  | _ => false
  end.

(** [(-|\+)], the repeated part of [remp]. *)
Definition sign_re : regexp.t := Group 1 (Alt (Lit "-") (Lit "+")).

(** The header of the file started by line [idx], in words: the line
    itself; and, only when at least three more lines follow it, the
    next line if it is an [index] line, and the two lines after that if
    both are marker lines. *)
Definition Header_spec (lines : list string) (idx : nat) : string :=
  let line i := nth i lines EmptyString in
  let nl := String strings.newline EmptyString in
  if Nat.ltb (idx + 3) (length lines) then
    line idx
    +:+ (if is_index_line (line (idx + 1)) then nl +:+ line (idx + 1) else EmptyString)
    +:+ (if is_marker_line (line (idx + 2)) && is_marker_line (line (idx + 3))
         then nl +:+ line (idx + 2) +:+ nl +:+ line (idx + 3)
         else EmptyString)
  else line idx.

(** The headers of the files started by the [diff ] lines of [rest],
    the lines from position [idx] on. *)
Fixpoint diff_headers (lines : list string) (idx : nat) (rest : list string) : list string :=
  match rest with
  | [] => []
  | l :: rest' =>
      (if strings.HasPrefix l "diff " then [Header_spec lines idx] else [])
      ++ diff_headers lines (S idx) rest'
  end.

(** The Number of the record at [p] when it is an Added line. *)
Definition added_number (h : Store) (p : ptr) : list Z :=
  match h !! p with
  | Some dl => if decide (DiffLine.Mode dl = Added) then [DiffLine.Number dl] else []
  | None => []
  end.

(** The numbers [Changed] is to list under [name], in words: over the
    files that are not Deleted and whose NewName is [name], over their
    hunks, the Numbers of the Added lines of NewRange, all in order. *)
Definition changed_spec (h : Store) (d : Diff.t) (name : string) : list Z :=
  flat_map
    (fun f =>
       if decide (DiffFile.Mode f = Deleted) then []
       else if decide (DiffFile.NewName f = name)
            then flat_map
                   (fun c => flat_map (added_number h) (lines_of (DiffChunk.NewRange c)))
                   (chunks_of f)
            else [])
    (files_of d).

(** [m'] is [m] with the numbers [delta k] appended under each key [k]. *)
Definition appended (m m' : gmap string (list Z)) (delta : string -> list Z) : Prop :=
  forall k,
    m' !! k = match delta k with
              | [] => m !! k
              | ns => Some (default [] (m !! k) ++ ns)
              end.

(** [c] is the most preferred way [r] matches at the head of [s]. *)
Definition first_is (r : regexp.t) (s : string) (c : candidate) : Prop :=
  exists t, matches r s = c :: t.

(** Every byte is a decimal digit. *)
Fixpoint all_digits (s : string) : bool :=
  match s with
  | EmptyString => true
  | String c r => strconv.is_digit c && all_digits r
  end.

(** A decimal number as the pattern's [\d+] reads it. *)
Definition is_number (s : string) : Prop := s <> EmptyString /\ all_digits s = true.

(** The text does not go on with a digit. *)
Definition no_digit_ahead (s : string) : Prop :=
  match s with
  | EmptyString => True
  | String c _ => strconv.is_digit c = false
  end.

(** The optional [,<len>] field of a heading. *)
Definition len_field (o : option string) : string :=
  match o with
  | None => EmptyString
  | Some n => "," +:+ n
  end.

(** The optional space before the free text. *)
Definition trim_space (s : string) : string :=
  match s with
  | String " " r => r
  | _ => s
  end.

(** The headings of the shape [@@ -A[,B] +C[,D] @@tail]. *)
Definition heading_text (A : string) (oB : option string) (C : string)
    (oD : option string) (tail : string) : string :=
  "@@ -" +:+ (A +:+ (len_field oB +:+ (" +" +:+ (C +:+ (len_field oD +:+ (" @@" +:+ tail)))))).

(** A length field, when given, is a number. *)
Definition opt_number (o : option string) : Prop :=
  match o with None => True | Some n => is_number n end.

(** The capture of an optional group. *)
Definition opt_capture (i : nat) (o : option string) : captures :=
  match o with None => [] | Some n => [(i, n)] end.

(** The free text captured as group 5. *)
Definition text_capture (s : string) : captures :=
  match s with EmptyString => [] | _ => [(5, s)] end.

(** A diff whose heading leaves out the orig length. *)
Definition sample_short : string :=
  unlines ["diff --git a/f b/f"; "@@ -5 +7,2 @@ ctx"; "+ ab"].

(** The records and the Diff that Parse returns for [sample_short]. *)
Definition sample_short_heap : Store :=
  match Parse sample_short with Ok (h, _) => h | _ => [] end.

Definition sample_short_diff : Diff.t :=
  match Parse sample_short with Ok (_, d) => d | _ => Diff.mk slice.nil EmptyString 0 end.

(** The captured numeric fields [strconv.Atoi] is called on, in the
    order of the calls: both starts, and each length when present. *)
Definition numeric_fields (l : string) : list string :=
  let m := FindStringSubmatch hunk_re 5 l in
  let field i := nth i m EmptyString in
  let present i := if Nat.ltb 0 (String.length (field i)) then [field i] else [] in
  [field 1] ++ present 2 ++ [field 3] ++ present 4.

(** The error of the first field that is not an [int]. *)
Fixpoint first_error (fields : list string) : option error :=
  match fields with
  | [] => None
  | x :: fields' =>
      match strconv.Atoi x with
      | Err e => Some e
      | _ => first_error fields'
      end
  end.

(** Whatever a group of [r] matches satisfies [P]. *)
Fixpoint groups_ok (P : nat -> string -> Prop) (r : regexp.t) : Prop :=
  match r with
  | Lit _ | Plus _ => True
  | Opt r1 => groups_ok P r1
  | Alt r1 r2 | Cat r1 r2 => groups_ok P r1 /\ groups_ok P r2
  | Group i r1 =>
      (forall s p g s', (p, g, s') ∈ matches r1 s -> P i p) /\ groups_ok P r1
  end.

(** Every capture of [g] satisfies [P]. *)
Definition captures_ok (P : nat -> string -> Prop) (g : captures) : Prop :=
  Forall (fun c => P (fst c) (snd c)) g.

(** Groups 1 to 4 of the heading pattern hold digits only. *)
Definition digit_groups (i : nat) (x : string) : Prop := i <= 4 -> all_digits x = true.

(** The byte [c] occurs in [s]. *)
Fixpoint occurs (c : ascii) (s : string) : bool :=
  match s with
  | EmptyString => false
  | String d r => Ascii.eqb c d || occurs c r
  end.

(** The error text holds the line. *)
Definition carries (e : error) (l : string) : bool := strings.Contains (Error e) l.

(** A diff whose second heading is malformed. *)
Definition sample_bad : string :=
  unlines ["diff --git a/f b/f"; "@@ -1 +1 @@"; "+ ab"; "@@ bad @@"; "+ cd"].

(** ** Further vocabulary *)

(** [d.addFile(file)] *)
Definition addFile (d : Diff.t) (file : DiffFile.t) : Diff.t :=
  set_Files (slice.append (Diff.Files d) file) d.

(** How many of the lines start with [p]. *)
Definition count_prefix (p : string) (lines : list string) : nat :=
  length (filter (fun l => strings.HasPrefix l p = true) lines).

(** The text of the error [lineMode] returns. *)
Definition line_mode_error (l : string) : error :=
  errorString ("could not parse line mode for line: "
               +:+ strings.dquote +:+ l +:+ strings.dquote).

(** A diff with a body line of no known mode. *)
Definition sample_mode : string :=
  unlines ["diff --git a/f b/f"; "@@ -1 +1 @@"; "xyz"].

(** A file that is deleted, with one hunk. *)
Definition deleted_file : DiffFile.t :=
  DiffFile.mk "diff --git a/g b/g" Deleted "g" EmptyString
    (Some [DiffChunk.mk EmptyString (DiffRange.mk 1 1 (Some [7]))
                        (DiffRange.mk 0 0 (Some [7])) DiffRange.zero]).

(** While in a hunk, [file] and [hunk] point to objects; and a non-nil
    [diff.Files] holds a file. *)
Definition pointers_set (st : State) : Prop :=
  (inHunk st = true ->
     exists F f C c, files_of (diff st) = F ++ [f] /\ chunks_of f = C ++ [c])
  /\ (slice.is_nil (Diff.Files (diff st)) = false -> files_of (diff st) <> []).

(** The lines that assign through [file]. *)
Definition file_cases : list LineCase :=
  [CaseDeleted; CaseNew; CaseOrigName; CaseNewName; CaseHunk].

(** What the heading of a hunk left in it: orig start and length, new
    start and length, and the free text. *)
Definition heading_fields (c : DiffChunk.t) : Z * Z * Z * Z * string :=
  (DiffRange.Start (DiffChunk.OrigRange c), DiffRange.Length (DiffChunk.OrigRange c),
   DiffRange.Start (DiffChunk.NewRange c), DiffRange.Length (DiffChunk.NewRange c),
   DiffChunk.ChunkHeader c).

(** The lines that start with [p], in order. *)
Definition lines_with (p : string) (lines : list string) : list string :=
  filter (fun l => strings.HasPrefix l p = true) lines.

(** The records of [r] are numbered from [Start r] on, each one more
    than the one before (as the line counters count). *)
Definition numbered (h : Store) (r : DiffRange.t) : Prop :=
  forall i p, lines_of r !! i = Some p ->
    exists dl, h !! p = Some dl
               /\ DiffLine.Number dl = Nat.iter i int.incr (DiffRange.Start r).

(** The counter [cnt] stands at the number of the next line of [r]. *)
Definition counts (r : DiffRange.t) (cnt : Z) : Prop :=
  cnt = Nat.iter (length (lines_of r)) int.incr (DiffRange.Start r).

(** The numbering invariant of the loop. *)
Definition numbering (st : State) : Prop :=
  (forall c, c ∈ all_chunks (diff st) ->
     numbered (heap st) (DiffChunk.NewRange c) /\ numbered (heap st) (DiffChunk.OrigRange c))
  /\ (inHunk st = true ->
      exists A c, all_chunks (diff st) = A ++ [c]
                  /\ counts (DiffChunk.NewRange c) (AddedCount st)
                  /\ counts (DiffChunk.OrigRange c) (RemovedCount st)).

(** The first hunk of [sample]. *)
Definition sample_chunk : DiffChunk.t :=
  match all_chunks sample_diff with c :: _ => c | [] => DiffChunk.zero end.

(** The record at [p] is a Removed line. *)
Definition is_removed (h : Store) (p : ptr) : bool :=
  match h !! p with
  | Some dl => bool_decide (DiffLine.Mode dl = Removed)
  | None => false
  end.

(** The record at [p] exists and has one of the modes [ms]. *)
Definition mode_in (h : Store) (ms : list DiffLineMode) (p : ptr) : Prop :=
  exists dl, h !! p = Some dl /\ DiffLine.Mode dl ∈ ms.

(** How the three ranges of a hunk go together: NewRange holds Added
    and Unchanged records, OrigRange Removed and Unchanged ones, and
    WholeRange is NewRange with the Removed records of OrigRange put in
    at their place. *)
Definition ranges_agree (h : Store) (c : DiffChunk.t) : Prop :=
  Forall (mode_in h [Added; Unchanged]) (lines_of (DiffChunk.NewRange c))
  /\ Forall (mode_in h [Removed; Unchanged]) (lines_of (DiffChunk.OrigRange c))
  /\ filter (fun p => is_removed h p = false) (lines_of (DiffChunk.WholeRange c))
     = lines_of (DiffChunk.NewRange c)
  /\ filter (fun p => is_removed h p = true) (lines_of (DiffChunk.WholeRange c))
     = filter (fun p => is_removed h p = true) (lines_of (DiffChunk.OrigRange c)).

(** The invariant of the loop on the ranges of the hunks: the addresses
    are allocated, the three ranges agree, and the start and length of
    WholeRange are never assigned. *)
Definition ranges_inv (st : State) : Prop :=
  ptrs_valid (heap st) (diff st)
  /\ forall c, c ∈ all_chunks (diff st) ->
       ranges_agree (heap st) c
       /\ DiffRange.Start (DiffChunk.WholeRange c) = 0%Z
       /\ DiffRange.Length (DiffChunk.WholeRange c) = 0%Z.

(** The mode and the two names of a file. *)
Definition names (f : DiffFile.t) : FileMode * string * string :=
  (DiffFile.Mode f, DiffFile.OrigName f, DiffFile.NewName f).

(** The mode and names of a file that has just been started. *)
Definition names_start : FileMode * string * string :=
  (Modified, EmptyString, EmptyString).

(** What a line that starts no file does to the mode and names of the
    current file. *)
Definition name_line (x : FileMode * string * string) (l : string)
    : FileMode * string * string :=
  let '(m, o, n) := x in
  if String.eqb l "+++ /dev/null" then (Deleted, o, n)
  else if String.eqb l "--- /dev/null" then (New, o, n)
  else if strings.HasPrefix l "--- a/" then (m, strings.drop 6 l, n)
  else if strings.HasPrefix l "+++ b/" then (m, o, strings.drop 6 l)
  else x.

(** The lines up to the next line that starts a file. *)
Fixpoint file_lines (rest : list string) : list string :=
  match rest with
  | [] => []
  | l :: rest' => if strings.HasPrefix l "diff " then [] else l :: file_lines rest'
  end.

(** For each line that starts a file, the lines that follow it up to the
    next such line. *)
Fixpoint files_lines (lines : list string) : list (list string) :=
  match lines with
  | [] => []
  | l :: rest =>
      if strings.HasPrefix l "diff " then file_lines rest :: files_lines rest
      else files_lines rest
  end.

(** A file whose hunk removes a line of dashes. *)
Definition sample_names : string :=
  unlines ["diff --git a/q.sql b/q.sql";
           "--- a/q.sql";
           "+++ b/q.sql";
           "@@ -1,2 +1,1 @@";
           " select 1";
           "--- a/b"].

(** The addresses a hunk holds in NewRange and in OrigRange. *)
Definition range_ptrs (c : DiffChunk.t) : list ptr :=
  lines_of (DiffChunk.NewRange c) ++ lines_of (DiffChunk.OrigRange c).

(** The heading fields of the hunks of a file, in order. *)
Definition file_hunks (f : DiffFile.t) : list (Result (Z * Z * Z * Z * string)) :=
  map (fun c => Ok (heading_fields c)) (chunks_of f).

(** Mode and content of the record at [p]. *)
Definition shown (h : Store) (p : ptr) : option (DiffLineMode * string) :=
  (fun dl => (DiffLine.Mode dl, DiffLine.Content dl)) <$> h !! p.

(** The records of WholeRange as they read. *)
Definition whole_view (h : Store) (c : DiffChunk.t) : list (option (DiffLineMode * string)) :=
  map (shown h) (lines_of (DiffChunk.WholeRange c)).

(** What a line of a hunk shows as in WholeRange: nothing, when it is
    not a body line. *)
Definition body_record (l : string) : list (DiffLineMode * string) :=
  match classify true l with
  | CaseBody =>
      match lineMode l with
      | Ok Unchanged => [(Unchanged, strings.drop 1 l)]
      | Ok m => [(m, strings.drop 2 l)]
      | _ => []
      end
  | _ => []
  end.

(** The lines up to the next line that starts a file or a hunk. *)
Fixpoint hunk_lines (rest : list string) : list string :=
  match rest with
  | [] => []
  | l :: rest' =>
      if strings.HasPrefix l "diff " || strings.HasPrefix l "@@ " then []
      else l :: hunk_lines rest'
  end.

(** For each line that starts a hunk, the lines that follow it up to the
    next line that starts a file or a hunk. *)
Fixpoint hunks_lines (lines : list string) : list (list string) :=
  match lines with
  | [] => []
  | l :: rest =>
      if strings.HasPrefix l "@@ " then hunk_lines rest :: hunks_lines rest
      else hunks_lines rest
  end.

(** What the lines of a hunk show as in WholeRange. *)
Definition whole_spec (sec : list string) : list (option (DiffLineMode * string)) :=
  map Some (flat_map body_record sec).

(** A hunk whose only body line is a lone [+]. *)
Definition sample_lone : string :=
  unlines ["diff a"; "@@ -1 +1 @@"; "+"].


(** Inside a hunk, the line is taken as a body line. *)
Definition is_body_line (l : string) : bool :=
  match classify true l with CaseBody => true | _ => false end.

(** How many of the lines are body lines. *)
Definition body_lines (sec : list string) : nat :=
  length (filter (fun l => is_body_line l = true) sec).

(** The number of records in WholeRange. *)
Definition whole_length (c : DiffChunk.t) : nat :=
  length (lines_of (DiffChunk.WholeRange c)).

(** * Properties *)

(** ** The result monad *)

Lemma bind_Ok {A B} (r : Result A) (k : A -> Result B) (b : B) :
  r ≫= k = Ok b -> exists a, r = Ok a /\ k a = Ok b.
Proof. destruct r as [a| |]; simpl; intros H; [eauto | discriminate..]. Qed.

Lemma bind_Ok_l {A B} (a : A) (k : A -> Result B) : Ok a ≫= k = k a.
Proof. reflexivity. Qed.

(** ** Slices and their current slot *)

Lemma set_last_snoc {A} (x y : A) (l : list A) :
  slice.set_last x (l ++ [y]) = l ++ [x].
Proof.
  induction l as [|z l IH]; [reflexivity|].
  simpl. rewrite IH. destruct (l ++ [y]) eqn:E; [|reflexivity].
  destruct l; discriminate.
Qed.

Lemma elems_append {A} (s : slice.t A) (x : A) :
  slice.elems (slice.append s x) = slice.elems s ++ [x].
Proof. reflexivity. Qed.

Lemma current_Some {A} (s : slice.t A) (x : A) :
  slice.current s = Some x -> exists l, slice.elems s = l ++ [x].
Proof. unfold slice.current. intros H. by apply last_Some. Qed.

Lemma elems_set_current {A} (s : slice.t A) (x y : A) (l : list A) :
  slice.elems s = l ++ [y] -> slice.elems (slice.set_current x s) = l ++ [x].
Proof.
  destruct s as [l0|]; simpl.
  - intros ->. apply set_last_snoc.
  - intros H. destruct l; discriminate.
Qed.

(** ** The loop *)

Lemma loop_app lines idx r1 r2 st :
  loop lines idx (r1 ++ r2) st =
  loop lines idx r1 st ≫= loop lines (idx + length r1) r2.
Proof.
  revert idx st. induction r1 as [|l r1 IH]; intros idx st; simpl.
  - by rewrite Nat.add_0_r.
  - destruct (step lines idx l st) as [st'| |]; simpl; [|done..].
    rewrite IH. by replace (S idx + length r1) with (idx + S (length r1)) by lia.
Qed.

Lemma state_after_0 s : state_after s 0 = Ok (init s).
Proof. reflexivity. Qed.

Lemma state_after_S s k l :
  strings.Split s !! k = Some l ->
  state_after s (S k) = state_after s k ≫= step (strings.Split s) k l.
Proof.
  intros Hl. unfold state_after.
  rewrite (take_S_r _ _ _ Hl), loop_app. simpl.
  rewrite length_take_le by (apply lookup_lt_Some in Hl; lia).
  destruct (loop _ 0 (take k _) _) as [st| |]; simpl; [|done..].
  by destruct (step _ k l st).
Qed.

Lemma state_after_rest s k :
  loop (strings.Split s) 0 (strings.Split s) (init s) =
  state_after s k ≫= loop (strings.Split s) k (drop k (strings.Split s)).
Proof.
  unfold state_after.
  rewrite <- (take_drop k (strings.Split s)) at 2. rewrite loop_app.
  destruct (decide (k <= length (strings.Split s))) as [Hk|Hk].
  - by rewrite length_take_le by lia.
  - rewrite drop_ge by lia. rewrite take_ge by lia.
    destruct (loop _ 0 _ _); reflexivity.
Qed.

Lemma Parse_Ok s h d :
  Parse s = Ok (h, d) <->
  exists st, loop (strings.Split s) 0 (strings.Split s) (init s) = Ok st
             /\ h = heap st /\ d = diff st.
Proof.
  unfold Parse. split.
  - intros H. apply bind_Ok in H as (st & Hst & Heq). exists st.
    injection Heq as <- <-. done.
  - intros (st & -> & -> & ->). reflexivity.
Qed.

(** A successful parse went through a state after every prefix of the
    input, and finished from there. *)
Lemma Parse_Ok_state_after s h d k :
  Parse s = Ok (h, d) ->
  exists st fin,
    state_after s k = Ok st
    /\ loop (strings.Split s) k (drop k (strings.Split s)) st = Ok fin
    /\ h = heap fin /\ d = diff fin.
Proof.
  intros H. apply Parse_Ok in H as (fin & Hfin & -> & ->).
  rewrite (state_after_rest s k) in Hfin.
  apply bind_Ok in Hfin as (st & Hst & Hrest). eauto 6.
Qed.

(** A relation that every iteration satisfies holds across the loop. *)
Lemma loop_rel (R : State -> State -> Prop) lines :
  (forall st, R st st) ->
  (forall a b c, R a b -> R b c -> R a c) ->
  (forall idx l st st', step lines idx l st = Ok st' -> R st st') ->
  forall rest idx st st', loop lines idx rest st = Ok st' -> R st st'.
Proof.
  intros Hrefl Htrans Hstep. induction rest as [|l rest IH]; intros idx st st' H.
  - injection H as <-. apply Hrefl.
  - simpl in H. apply bind_Ok in H as (st1 & H1 & H2).
    eapply Htrans; [eapply Hstep, H1 | eapply IH, H2].
Qed.

(** An invariant of the iterations holds after the loop. *)
Lemma loop_inv (I : State -> Prop) lines :
  (forall idx l st st', I st -> step lines idx l st = Ok st' -> I st') ->
  forall rest idx st st', I st -> loop lines idx rest st = Ok st' -> I st'.
Proof.
  intros Hstep. induction rest as [|l rest IH]; intros idx st st' Hi H.
  - by injection H as <-.
  - simpl in H. apply bind_Ok in H as (st1 & H1 & H2).
    eapply IH; [eapply Hstep, H1; exact Hi | exact H2].
Qed.

(** ** Prefixes and the cases of the switch *)

Lemma HasPrefix_cons d s c p :
  strings.HasPrefix (String d s) (String c p) = Ascii.eqb c d && strings.HasPrefix s p.
Proof. reflexivity. Qed.

Lemma HasPrefix_empty s : strings.HasPrefix s EmptyString = true.
Proof. by destruct s. Qed.

Lemma HasPrefix_app s p :
  strings.HasPrefix s p = true <-> exists r, s = p +:+ r.
Proof.
  revert s. induction p as [|c p IH]; intros s.
  - split; [intros _; by exists s | done].
  - destruct s as [|d s].
    + split; [done | intros [r Hr]; discriminate].
    + rewrite HasPrefix_cons, andb_true_iff, IH. split.
      * intros [Hcd [r ->]]. apply Ascii.eqb_eq in Hcd as ->. by exists r.
      * intros [r Hr]. change (String d s = String c (p +:+ r)) in Hr.
        injection Hr as -> ->. split; [apply Ascii.eqb_refl | by exists r].
Qed.

Lemma classify_CaseDiff b l :
  classify b l = CaseDiff <-> strings.HasPrefix l "diff " = true.
Proof.
  unfold classify. destruct (strings.HasPrefix l "diff "); [done|].
  split; [|done].
  repeat match goal with |- context [if ?c then _ else _] => destruct c end;
    discriminate.
Qed.

Lemma classify_CaseHunk b l :
  classify b l = CaseHunk <-> strings.HasPrefix l "@@ " = true.
Proof.
  split.
  - unfold classify.
    repeat match goal with |- context [if ?c then _ else _] => destruct c eqn:? end;
      done.
  - intros H. apply HasPrefix_app in H as [r ->]. reflexivity.
Qed.

Lemma classify_not_CaseDiff b l :
  classify b l <> CaseDiff -> strings.HasPrefix l "diff " = false.
Proof.
  intros Hb. destruct (strings.HasPrefix l "diff ") eqn:E; [|done].
  by apply (classify_CaseDiff b) in E.
Qed.

Lemma classify_not_CaseHunk b l :
  classify b l <> CaseHunk -> strings.HasPrefix l "@@ " = false.
Proof.
  intros Hb. destruct (strings.HasPrefix l "@@ ") eqn:E; [|done].
  by apply (classify_CaseHunk b) in E.
Qed.

(** ** What one iteration does *)

Lemma file_Some st f :
  file st = Some f -> exists F, files_of (diff st) = F ++ [f].
Proof. apply current_Some. Qed.

Lemma files_store_file st F f f' :
  files_of (diff st) = F ++ [f] ->
  files_of (diff (store_file f' st)) = F ++ [f'].
Proof. intros H. unfold files_of in *. simpl. by eapply elems_set_current. Qed.

Lemma hunk_Some st f c :
  file st = Some f -> hunk st = Some c -> exists C, chunks_of f = C ++ [c].
Proof.
  unfold hunk. intros ->. simpl. apply current_Some.
Qed.

Lemma chunks_store_hunk f C c c' :
  chunks_of f = C ++ [c] -> chunks_of (store_hunk c' f) = C ++ [c'].
Proof. intros H. unfold chunks_of in *. simpl. by eapply elems_set_current. Qed.

Lemma with_file_Ok upd st st' :
  with_file upd st = Ok st' ->
  exists F f, files_of (diff st) = F ++ [f]
              /\ st' = store_file (upd f) st.
Proof.
  unfold with_file. destruct (file st) as [f|] eqn:Hf; [|discriminate].
  intros [= <-]. apply file_Some in Hf as [F HF]. eauto.
Qed.

Lemma case_hunk_Ok l st st' :
  case_hunk l st = Ok st' ->
  exists F f a b c d hd,
    files_of (diff st) = F ++ [f]
    /\ parse_heading l = Ok (a, b, c, d, hd)
    /\ st' = mkState
         (diff (store_file
            (DiffFile.set_Chunks
               (slice.append (DiffFile.Chunks f)
                  (DiffChunk.mk hd (DiffRange.mk a b slice.nil)
                                (DiffRange.mk c d slice.nil) DiffRange.zero)) f) st))
         (heap st) c a true
         (if firstHunkInFile st then 0%Z else diffPosCount st) false.
Proof.
  unfold case_hunk. destruct (file st) as [f|] eqn:Hf; [|discriminate].
  intros H. apply bind_Ok in H as ([[[[a b] c] d] hd] & Hp & H).
  injection H as <-. apply file_Some in Hf as [F HF].
  exists F, f, a, b, c, d, hd. done.
Qed.

Lemma slice_from_Ok s n r :
  strings.slice_from s n = Ok r -> n <= String.length s /\ r = strings.drop n s.
Proof.
  unfold strings.slice_from. destruct (Nat.leb_spec n (String.length s)); [|discriminate].
  intros [= <-]. done.
Qed.

Lemma drop_drop n m s : strings.drop n (strings.drop m s) = strings.drop (m + n) s.
Proof.
  revert s. induction m as [|m IH]; intros s; [reflexivity|].
  destruct s as [|c s]; simpl; [by destruct n | apply IH].
Qed.

Lemma length_drop n s : String.length (strings.drop n s) = String.length s - n.
Proof.
  revert s. induction n as [|n IH]; intros s; simpl; [lia|].
  destruct s as [|c s]; simpl; [done | apply IH].
Qed.

Lemma case_body_Ok l st st' :
  case_body l st = Ok st' ->
  exists F f C c m,
    files_of (diff st) = F ++ [f]
    /\ chunks_of f = C ++ [c]
    /\ lineMode l = Ok m
    /\ (m <> Unchanged -> 2 <= String.length l)
    /\ st' = body_result m l st f c.
Proof.
  unfold case_body. intros H.
  apply bind_Ok in H as (m & Hm & H).
  apply bind_Ok in H as (content & Hc & H).
  apply slice_from_Ok in Hc as [Hlen ->].
  destruct (file st) as [f|] eqn:Hf; [|discriminate].
  destruct (hunk st) as [c|] eqn:Hh; [|discriminate].
  destruct (hunk_Some _ _ _ Hf Hh) as [C HC].
  apply file_Some in Hf as [F HF].
  exists F, f, C, c, m. split; [done|]. split; [done|]. split; [done|].
  destruct m.
  - apply bind_Ok in H as (c' & Hc' & H).
    apply slice_from_Ok in Hc' as [Hlen' ->]. rewrite length_drop in Hlen'.
    rewrite drop_drop in H. unfold alloc in H. injection H as <-.
    split; [intros _; lia | reflexivity].
  - apply bind_Ok in H as (c' & Hc' & H).
    apply slice_from_Ok in Hc' as [Hlen' ->]. rewrite length_drop in Hlen'.
    rewrite drop_drop in H. unfold alloc in H. injection H as <-.
    split; [intros _; lia | reflexivity].
  - unfold alloc in H. injection H as <-.
    split; [done|]. unfold body_result.
    rewrite length_app, <- app_assoc. simpl. by rewrite Nat.add_1_r.
Qed.

Lemma step_Ok lines idx l st0 st' :
  step lines idx l st0 = Ok st' -> step_effect lines idx l st0 st'.
Proof.
  unfold step. change (inHunk (tick st0)) with (inHunk st0).
  destruct (classify (inHunk st0) l) eqn:Hc; intros H.
  - apply eff_diff; [done|]. by injection H as <-.
  - apply with_file_Ok in H as (F & f & HF & ->).
    eapply (eff_file _ _ _ _ _ (DiffFile.set_Mode Deleted)); rewrite ?Hc; try done.
  - apply with_file_Ok in H as (F & f & HF & ->).
    eapply (eff_file _ _ _ _ _ (DiffFile.set_Mode New)); rewrite ?Hc; try done.
  - apply with_file_Ok in H as (F & f & HF & ->).
    eapply (eff_file _ _ _ _ _ (DiffFile.set_OrigName _)); rewrite ?Hc; try done.
  - apply with_file_Ok in H as (F & f & HF & ->).
    eapply (eff_file _ _ _ _ _ (DiffFile.set_NewName _)); rewrite ?Hc; try done.
  - apply case_hunk_Ok in H as (F & f & a & b & c & d & hd & HF & Hp & ->).
    by eapply eff_hunk.
  - apply case_body_Ok in H as (F & f & C & c & m & HF & HC & Hm & Hlen & ->).
    by eapply eff_body.
  - apply eff_none; [done|]. by injection H as <-.
Qed.

(** Case analysis on a successful iteration [H : step _ _ _ _ = Ok _]. *)
Ltac step_cases H :=
  apply step_Ok in H;
  destruct H as [Hc ->|upd F f Hc1 Hc2 Hc3 Hupd HF ->|F f a b c d hd Hc HF Hp ->
                |F f C c m Hc HF HC Hm Hlen ->|Hc ->].

(** ** What later iterations preserve *)

Lemma range_ext_refl r : range_ext r r.
Proof. by repeat split. Qed.

Lemma range_ext_trans r1 r2 r3 : range_ext r1 r2 -> range_ext r2 r3 -> range_ext r1 r3.
Proof.
  intros (?&?&?) (?&?&?). repeat split; [congruence..|]. by etrans.
Qed.

Lemma range_ext_add r p : range_ext r (DiffRange.add_line r p).
Proof. repeat split. unfold lines_of. simpl. by apply prefix_app_r. Qed.

Lemma chunk_ext_refl c : chunk_ext c c.
Proof. repeat split; apply range_ext_refl. Qed.

Lemma chunk_ext_trans c1 c2 c3 : chunk_ext c1 c2 -> chunk_ext c2 c3 -> chunk_ext c1 c3.
Proof.
  intros (?&?&?&?) (?&?&?&?). split; [congruence|].
  repeat split; eapply range_ext_trans; eauto.
Qed.

Lemma chunks_ext_refl C : chunks_ext C C.
Proof. intros i c H. exists c. split; [done | apply chunk_ext_refl]. Qed.

Lemma chunks_ext_trans C1 C2 C3 : chunks_ext C1 C2 -> chunks_ext C2 C3 -> chunks_ext C1 C3.
Proof.
  intros H12 H23 i c H. destruct (H12 i c H) as (c2 & H2 & E2).
  destruct (H23 i c2 H2) as (c3 & H3 & E3). exists c3.
  split; [done | by eapply chunk_ext_trans].
Qed.

Lemma chunks_ext_snoc C c : chunks_ext C (C ++ [c]).
Proof.
  intros i x H. exists x. split; [|apply chunk_ext_refl].
  by apply lookup_app_l_Some.
Qed.

Lemma chunks_ext_last C c c' : chunk_ext c c' -> chunks_ext (C ++ [c]) (C ++ [c']).
Proof.
  intros E i x H. apply lookup_app_Some in H as [H|[Hi H]].
  - exists x. split; [by apply lookup_app_l_Some | apply chunk_ext_refl].
  - apply list_lookup_singleton_Some in H as [Hi' <-].
    exists c'. split; [|done]. rewrite lookup_app_r by lia.
    by replace (i - length C) with 0 by lia.
Qed.

Lemma extends_refl st : extends st st.
Proof. repeat split; [done | apply chunks_ext_refl | done]. Qed.

Lemma extends_trans a b c : extends a b -> extends b c -> extends a c.
Proof.
  intros (?&?&?) (?&?&?). repeat split; [by etrans | by eapply chunks_ext_trans | by etrans].
Qed.

Lemma all_chunks_snoc d F f :
  files_of d = F ++ [f] -> all_chunks d = flat_map chunks_of F ++ chunks_of f.
Proof. unfold all_chunks. intros ->. rewrite flat_map_app. simpl. by rewrite app_nil_r. Qed.

Lemma headers_snoc d F f :
  files_of d = F ++ [f] -> headers d = map DiffFile.DiffHeader F ++ [DiffFile.DiffHeader f].
Proof. unfold headers. intros ->. by rewrite map_app. Qed.

Lemma chunk_ext_body m n c :
  chunk_ext c (match m with
               | Added => add_Added n c
               | Removed => add_Removed n c
               | Unchanged => add_Unchanged n (S n) c
               end).
Proof.
  destruct m; (split; [done|]); simpl;
    repeat split; try apply range_ext_add; try done.
Qed.

Lemma diff_body_result m l st f c :
  diff (body_result m l st f c) =
  diff (store_file
          (store_hunk (match m with
                       | Added => add_Added (length (heap st)) c
                       | Removed => add_Removed (length (heap st)) c
                       | Unchanged => add_Unchanged (length (heap st)) (S (length (heap st))) c
                       end) f) st).
Proof. by destruct m. Qed.

Lemma heap_body_result m l st f c :
  heap st `prefix_of` heap (body_result m l st f c).
Proof. destruct m; simpl; by apply prefix_app_r. Qed.

Lemma step_extends lines idx l st st' :
  step lines idx l st = Ok st' -> extends st st'.
Proof.
  intros H. step_cases H.
  - split; [done|split].
    + unfold all_chunks, files_of. simpl. rewrite flat_map_app. simpl.
      rewrite !app_nil_r. apply chunks_ext_refl.
    + unfold headers, files_of. simpl. rewrite map_app. by apply prefix_app_r.
  - pose proof (files_store_file (tick st) F f (upd f) HF) as HF'.
    destruct (Hupd f) as [Hh Hch].
    split; [done|split].
    + rewrite (all_chunks_snoc _ _ _ HF), (all_chunks_snoc _ _ _ HF').
      unfold chunks_of. rewrite Hch. apply chunks_ext_refl.
    + rewrite (headers_snoc _ _ _ HF), (headers_snoc _ _ _ HF'). by rewrite Hh.
  - match goal with |- extends _ (mkState (diff (store_file ?g _)) _ _ _ _ _ _) =>
      pose proof (files_store_file st F f g HF) as HF' end.
    unfold extends. cbn [diff heap]. split; [done|split].
    + rewrite (all_chunks_snoc _ _ _ HF), (all_chunks_snoc _ _ _ HF').
      unfold chunks_of. simpl. rewrite app_assoc. apply chunks_ext_snoc.
    + by rewrite (headers_snoc _ _ _ HF), (headers_snoc _ _ _ HF').
  - pose proof (files_store_file (tick st) F f
       (store_hunk (match m with
                    | Added => add_Added (length (heap (tick st))) c
                    | Removed => add_Removed (length (heap (tick st))) c
                    | Unchanged =>
                        add_Unchanged (length (heap (tick st)))
                                      (S (length (heap (tick st)))) c
                    end) f) HF) as HF'.
    split; [|split].
    + apply (heap_body_result m l (tick st) f c).
    + rewrite diff_body_result.
      rewrite (all_chunks_snoc _ _ _ HF), (all_chunks_snoc _ _ _ HF').
      rewrite HC, (chunks_store_hunk _ _ _ _ HC), !app_assoc.
      apply chunks_ext_last, chunk_ext_body.
    + rewrite diff_body_result.
      by rewrite (headers_snoc _ _ _ HF), (headers_snoc _ _ _ HF').
  - split; [done|split]; [apply chunks_ext_refl | done].
Qed.

Lemma loop_extends lines idx rest st st' :
  loop lines idx rest st = Ok st' -> extends st st'.
Proof.
  apply (loop_rel extends lines extends_refl extends_trans).
  intros. by eapply step_extends.
Qed.

Lemma file_snoc st F f : files_of (diff st) = F ++ [f] -> file st = Some f.
Proof.
  unfold file, slice.current, files_of. intros ->. apply last_snoc.
Qed.

Lemma hunk_snoc st F f C c :
  files_of (diff st) = F ++ [f] -> chunks_of f = C ++ [c] -> hunk st = Some c.
Proof.
  intros HF HC. unfold hunk. rewrite (file_snoc _ _ _ HF). simpl.
  unfold slice.current. unfold chunks_of in HC. rewrite HC. apply last_snoc.
Qed.

Lemma step_chunks lines idx l st st' :
  step lines idx l st = Ok st' -> chunks_effect l st st'.
Proof.
  intros H. step_cases H.
  - apply ce_same; rewrite ?Hc; try done.
    unfold all_chunks, files_of. simpl. rewrite flat_map_app. simpl.
    by rewrite !app_nil_r.
  - pose proof (files_store_file (tick st) F f (upd f) HF) as HF'.
    destruct (Hupd f) as [Hh Hch].
    apply ce_same; try done.
    rewrite (all_chunks_snoc _ _ _ HF), (all_chunks_snoc _ _ _ HF').
    unfold chunks_of. by rewrite Hch.
  - match goal with |- chunks_effect _ _ (mkState (diff (store_file ?g _)) _ _ _ _ _ _) =>
      pose proof (files_store_file st F f g HF) as HF' end.
    eapply ce_new; [done|exact Hp|done|]. cbn [diff].
    rewrite (all_chunks_snoc _ _ _ HF), (all_chunks_snoc _ _ _ HF').
    unfold chunks_of. simpl. by rewrite app_assoc.
  - pose proof (files_store_file (tick st) F f
       (store_hunk (add_line m (length (heap (tick st))) c) f) HF) as HF'.
    assert (diff (body_result m l (tick st) f c) =
            diff (store_file (store_hunk (add_line m (length (heap (tick st))) c) f)
                             (tick st))) as Hd by (by destruct m).
    pose proof (chunks_store_hunk f C c (add_line m (length (heap (tick st))) c) HC) as HC'.
    eapply (ce_body _ _ _ (flat_map chunks_of F ++ C) c m f); try done.
    + by eapply (hunk_snoc st).
    + eapply (hunk_snoc _ F _ C); [rewrite Hd; exact HF' | exact HC'].
    + by rewrite (all_chunks_snoc _ _ _ HF), HC, app_assoc.
    + by rewrite Hd, (all_chunks_snoc _ _ _ HF'), HC', app_assoc.
  - apply ce_same; rewrite ?Hc; done.
Qed.

(** ** Addresses stored in ranges are allocated *)

Lemma lines_of_add r p : lines_of (DiffRange.add_line r p) = lines_of r ++ [p].
Proof. reflexivity. Qed.

Lemma chunk_ptrs_add_line m n c p :
  p ∈ chunk_ptrs (add_line m n c) ->
  p ∈ chunk_ptrs c \/ p = n \/ (m = Unchanged /\ p = S n).
Proof.
  unfold chunk_ptrs. destruct m; simpl; rewrite ?lines_of_add;
    rewrite !elem_of_app, ?list_elem_of_singleton; intuition auto.
Qed.

Lemma length_heap_body_result m l st f c :
  length (heap (body_result m l st f c)) =
  length (heap st) + match m with Unchanged => 2 | _ => 1 end.
Proof. destruct m; simpl; by rewrite length_app. Qed.

Lemma step_ptrs_valid lines idx l st st' :
  ptrs_valid (heap st) (diff st) ->
  step lines idx l st = Ok st' ->
  ptrs_valid (heap st') (diff st').
Proof.
  intros Hv H. apply step_chunks in H.
  destruct H as [_ _ Hh Hall|a b c d hd _ _ Hh Hall|A c m f _ _ _ _ _ Hall Hall' ->];
    intros x p Hx Hp.
  - rewrite Hh. rewrite Hall in Hx. by eapply Hv.
  - rewrite Hh. rewrite Hall in Hx. apply elem_of_app in Hx as [Hx|Hx].
    + by eapply Hv.
    + apply list_elem_of_singleton in Hx as ->. by apply elem_of_nil in Hp.
  - rewrite length_heap_body_result. change (heap (tick st)) with (heap st).
    rewrite Hall' in Hx. apply elem_of_app in Hx as [Hx|Hx].
    + assert (p < length (heap st)); [|lia].
      eapply Hv; [|exact Hp]. rewrite Hall. apply elem_of_app. by left.
    + apply list_elem_of_singleton in Hx as ->.
      apply chunk_ptrs_add_line in Hp as [Hp|[->|[-> ->]]]; [|destruct m; lia|lia].
      assert (p < length (heap st)); [|lia].
      eapply Hv; [|exact Hp]. rewrite Hall. apply elem_of_app. right.
      by apply list_elem_of_singleton.
Qed.

Lemma loop_ptrs_valid lines rest idx st st' :
  ptrs_valid (heap st) (diff st) ->
  loop lines idx rest st = Ok st' ->
  ptrs_valid (heap st') (diff st').
Proof.
  apply (loop_inv (fun st => ptrs_valid (heap st) (diff st))).
  intros. by eapply step_ptrs_valid.
Qed.

Lemma init_ptrs_valid s : ptrs_valid (heap (init s)) (diff (init s)).
Proof. intros c p Hc. by apply elem_of_nil in Hc. Qed.

Lemma state_after_ptrs_valid s k st :
  state_after s k = Ok st -> ptrs_valid (heap st) (diff st).
Proof. apply loop_ptrs_valid, init_ptrs_valid. Qed.

Lemma Parse_ptrs_valid s h d : Parse s = Ok (h, d) -> ptrs_valid h d.
Proof.
  intros H. apply Parse_Ok in H as (st & H & -> & ->).
  eapply loop_ptrs_valid; [apply init_ptrs_valid | exact H].
Qed.

(** ** Body lines *)

Lemma lineMode_Ok l m :
  lineMode l = Ok m <-> exists r, l = String (marker m) r.
Proof.
  unfold lineMode, strings.slice_to. destruct l as [|a l]; simpl.
  - split; [discriminate | intros [r Hr]; discriminate].
  - destruct (Ascii.eqb_spec a " ") as [->|Hsp].
    { split; [intros [= <-]; by eexists | intros [r [= Hm _]]].
      by destruct m. }
    destruct (Ascii.eqb_spec a "+") as [->|Hpl].
    { split; [intros [= <-]; by eexists | intros [r [= Hm _]]].
      by destruct m. }
    destruct (Ascii.eqb_spec a "-") as [->|Hmi].
    { split; [intros [= <-]; by eexists | intros [r [= Hm _]]].
      by destruct m. }
    split; [discriminate | intros [r [= Hm _]]].
    destruct m; simpl in Hm; congruence.
Qed.

(** Everything a successfully parsed body line does: [st] is the state
    before line [j], [st'] the state after it. *)
Lemma body_line_effect s h d j l st :
  Parse s = Ok (h, d) ->
  strings.Split s !! j = Some l ->
  state_after s j = Ok st ->
  classify (inHunk st) l = CaseBody ->
  exists st' A c m f c_fin,
    state_after s (S j) = Ok st'
    /\ lineMode l = Ok m
    /\ (m <> Unchanged -> 2 <= String.length l)
    /\ hunk st = Some c
    /\ hunk st' = Some (add_line m (length (heap st)) c)
    /\ all_chunks (diff st) = A ++ [c]
    /\ all_chunks (diff st') = A ++ [add_line m (length (heap st)) c]
    /\ st' = body_result m l (tick st) f c
    /\ heap st' `prefix_of` h
    /\ all_chunks d !! length A = Some c_fin
    /\ chunk_ext (add_line m (length (heap st)) c) c_fin.
Proof.
  intros HP Hl Hst Hc.
  destruct (Parse_Ok_state_after s h d (S j) HP) as (st' & fin & Hst' & Hfin & -> & ->).
  pose proof Hst' as Hstep. rewrite (state_after_S _ _ _ Hl), Hst in Hstep.
  simpl in Hstep. apply step_chunks in Hstep.
  destruct Hstep as [Hn _ _ _|a b c d hd Hn _ _ _|A c m f _ Hm Hlen Hh Hh' Hall Hall' Hres];
    [congruence..|].
  apply loop_extends in Hfin as (Hheap & Hch & _).
  destruct (Hch (length A) (add_line m (length (heap st)) c)) as (c_fin & Hfinl & Hext).
  { rewrite Hall'. by apply list_lookup_middle. }
  exists st', A, c, m, f, c_fin. done.
Qed.

Lemma contributes_body_result m l st f c :
  contributes m l st (body_result m l (tick st) f c) c (add_line m (length (heap st)) c).
Proof.
  destruct m; simpl; repeat split.
Qed.

Lemma ptrs_valid_fresh st p :
  ptrs_valid (heap st) (diff st) -> length (heap st) <= p -> fresh p st.
Proof.
  intros Hv Hp c Hc Hin. specialize (Hv c p Hc Hin). lia.
Qed.

(** C7: for a successfully parsed input, every body line (a line that
    reaches the case [inHunk && isSourceLine(l)]) adds to the current
    hunk as follows.  An Unchanged line allocates exactly two records
    with the same Content and Position, numbered from the new-side and
    the orig-side counter; the first goes to NewRange and to WholeRange
    (one shared entry), the second to OrigRange.  An Added or Removed
    line allocates exactly one record, stored in its side range and in
    WholeRange.  The addresses are new, and the entries are still in the
    hunk when Parse returns. *)
Theorem body_line_records s h d j l st :
  Parse s = Ok (h, d) ->
  strings.Split s !! j = Some l ->
  state_after s j = Ok st ->
  classify (inHunk st) l = CaseBody ->
  exists st' m A c c' c_fin,
    state_after s (S j) = Ok st'
    /\ lineMode l = Ok m
    /\ all_chunks (diff st) = A ++ [c]
    /\ all_chunks (diff st') = A ++ [c']
    /\ contributes m l st st' c c'
    /\ fresh (length (heap st)) st
    /\ fresh (S (length (heap st))) st
    /\ heap st' `prefix_of` h
    /\ all_chunks d !! length A = Some c_fin
    /\ chunk_ext c' c_fin.
Proof.
  intros HP Hl Hst Hc.
  destruct (body_line_effect s h d j l st HP Hl Hst Hc)
    as (st' & A & c & m & f & c_fin & Hst' & Hm & _ & _ & _ & Hall & Hall' & -> & Hpre & Hfin & Hext).
  exists (body_result m l (tick st) f c), m, A, c, (add_line m (length (heap st)) c), c_fin.
  pose proof (state_after_ptrs_valid s j st Hst) as Hv.
  split_and!; try done.
  - apply contributes_body_result.
  - apply ptrs_valid_fresh; [done | lia].
  - apply ptrs_valid_fresh; [done | lia].
Qed.

Lemma Parse_sample : Parse sample = Ok (sample_heap, sample_diff).
Proof. vm_compute. reflexivity. Qed.

Lemma body_line_records_witness :
  exists st' m A c c' c_fin,
    state_after sample 7 = Ok st'
    /\ lineMode " some" = Ok m
    /\ all_chunks (diff (state_before sample 6)) = A ++ [c]
    /\ all_chunks (diff st') = A ++ [c']
    /\ contributes m " some" (state_before sample 6) st' c c'
    /\ fresh (length (heap (state_before sample 6))) (state_before sample 6)
    /\ fresh (S (length (heap (state_before sample 6)))) (state_before sample 6)
    /\ heap st' `prefix_of` sample_heap
    /\ all_chunks sample_diff !! length A = Some c_fin
    /\ chunk_ext c' c_fin.
Proof.
  apply (body_line_records sample sample_heap sample_diff 6 " some"
           (state_before sample 6)); vm_compute; reflexivity.
Defined.

Lemma body_line_stored s h d j l st :
  Parse s = Ok (h, d) ->
  strings.Split s !! j = Some l ->
  state_after s j = Ok st ->
  classify (inHunk st) l = CaseBody ->
  exists st' m,
    state_after s (S j) = Ok st'
    /\ lineMode l = Ok m
    /\ stripped m <= String.length l
    /\ length (heap st') = length (heap st) + match m with Unchanged => 2 | _ => 1 end
    /\ (exists dl, h !! length (heap st) = Some dl)
    /\ forall dl, stored_between st st' h dl ->
         DiffLine.Mode dl = m
         /\ DiffLine.Content dl = strings.drop (stripped m) l
         /\ DiffLine.Position dl = int.incr (diffPosCount st).
Proof.
  intros HP Hl Hst Hc.
  destruct (body_line_effect s h d j l st HP Hl Hst Hc)
    as (st' & A & c & m & f & c_fin & Hst' & Hm & Hlen & _ & _ & _ & _ & -> & Hpre & _).
  exists (body_result m l (tick st) f c), m.
  pose proof (length_heap_body_result m l (tick st) f c) as Hlh.
  change (heap (tick st)) with (heap st) in Hlh.
  split_and!; try done.
  - destruct m; simpl; try (apply Hlen; discriminate).
    apply lineMode_Ok in Hm as [r ->]. simpl. lia.
  - destruct (lookup_lt_is_Some_2 (heap (body_result m l (tick st) f c)) (length (heap st)))
      as [dl Hdl]; [destruct m; lia|].
    exists dl. by eapply prefix_lookup_Some.
  - intros dl (p & Hp & Hdl).
    rewrite <- (prefix_lookup_lt (heap (body_result m l (tick st) f c)) h p) in Hdl
      by (done || lia).
    destruct m; unfold body_result in Hdl; cbn [heap tick] in Hdl, Hlh;
      rewrite lookup_app_r in Hdl by lia.
    + replace (p - length (heap st)) with 0 in Hdl by lia. by injection Hdl as <-.
    + replace (p - length (heap st)) with 0 in Hdl by lia. by injection Hdl as <-.
    + destruct (p - length (heap st)) as [|[|k]] eqn:Hk; [| |lia]; by injection Hdl as <-.
Qed.

(** What the code stores for every body line of a successfully parsed
    input: the Content is the line without its marker when the marker
    is a space, and the line without its marker and the byte after it
    when the marker is [+] or [-]. *)
Lemma body_line_content s h d j l st :
  Parse s = Ok (h, d) ->
  strings.Split s !! j = Some l ->
  state_after s j = Ok st ->
  classify (inHunk st) l = CaseBody ->
  exists st' m,
    state_after s (S j) = Ok st'
    /\ lineMode l = Ok m
    /\ (exists dl, stored_between st st' h dl)
    /\ forall dl, stored_between st st' h dl ->
         DiffLine.Content dl =
           match m with
           | Unchanged => strings.drop 1 l
           | Added | Removed => strings.drop 2 l
           end.
Proof.
  intros HP Hl Hst Hc.
  destruct (body_line_stored s h d j l st HP Hl Hst Hc)
    as (st' & m & Hst' & Hm & _ & Hlen & [dl0 Hdl0] & Hall).
  exists st', m. split_and!; try done.
  - exists dl0, (length (heap st)). split; [destruct m; lia | done].
  - intros dl Hdl. destruct (Hall dl Hdl) as (_ & -> & _). by destruct m.
Qed.

Lemma body_line_content_witness :
  exists st' m,
    state_after sample 6 = Ok st'
    /\ lineMode "+add a line" = Ok m
    /\ (exists dl, stored_between (state_before sample 5) st' sample_heap dl)
    /\ forall dl, stored_between (state_before sample 5) st' sample_heap dl ->
         DiffLine.Content dl =
           match m with
           | Unchanged => strings.drop 1 "+add a line"
           | Added | Removed => strings.drop 2 "+add a line"
           end.
Proof.
  apply (body_line_content sample sample_heap sample_diff 5 "+add a line"
           (state_before sample 5)); vm_compute; reflexivity.
Defined.

(** C2: the code does not do what the claim says.  On the hunk that
    the repository's test [TestHunk] checks (heading [@@ -1,4 +1,4 @@],
    body lines [+add a line], [ some], [ lines], [-in], [ file1]),
    Parse stores the Added line with Content [dd a line] and the
    Removed line with Content [n], while the line with exactly its
    marker stripped, which the claim states and the test expects, is
    [add a line] and [in].  Every other field of the records of
    NewRange and OrigRange is as the test expects, and the Unchanged
    lines lose their marker only. *)
Theorem Content_loses_byte_after_marker :
  exists h d c,
    Parse sample = Ok (h, d)
    /\ all_chunks d = [c]
    /\ map (fun p => h !! p) (lines_of (DiffChunk.NewRange c))
       = map Some [DiffLine.mk Added 1 "dd a line" 1;
                   DiffLine.mk Unchanged 2 "some" 2;
                   DiffLine.mk Unchanged 3 "lines" 3;
                   DiffLine.mk Unchanged 4 "file1" 5]
    /\ map (fun p => h !! p) (lines_of (DiffChunk.OrigRange c))
       = map Some [DiffLine.mk Unchanged 1 "some" 2;
                   DiffLine.mk Unchanged 2 "lines" 3;
                   DiffLine.mk Removed 3 "n" 4;
                   DiffLine.mk Unchanged 4 "file1" 5]
    /\ strings.drop 1 "+add a line" = "add a line"
    /\ strings.drop 1 "-in" = "in".
Proof.
  eexists _, _, _. split; [vm_compute; reflexivity|]. split; [reflexivity|].
  split_and!; reflexivity.
Qed.

(** ** Lines met before any file *)

(** C3 fails on the code: when one of the lines the claim lists comes
    before any [diff ] line, [file] is still nil and the assignment
    through it panics; Parse returns neither a Diff nor an error. *)
Theorem Parse_panics_without_file :
  Parse "+++ /dev/null" = Panic NilDereference
  /\ Parse "--- /dev/null" = Panic NilDereference
  /\ Parse "--- a/file1" = Panic NilDereference
  /\ Parse "+++ b/file1" = Panic NilDereference
  /\ Parse "@@ -1,4 +1,4 @@" = Panic NilDereference.
Proof. split_and!; vm_compute; reflexivity. Qed.

(** The same for every input: Parse panics whenever the first line that
    is not skipped outside a hunk is none of the [diff ] lines. *)
Lemma loop_skipped lines idx rest st :
  inHunk st = false ->
  Forall (fun x => classify false x = CaseNone) rest ->
  exists st', loop lines idx rest st = Ok st'
              /\ inHunk st' = false /\ diff st' = diff st.
Proof.
  revert idx st. induction rest as [|l rest IH]; intros idx st Hin Hall.
  - by exists st.
  - apply Forall_cons in Hall as [Hl Hrest].
    destruct (IH (S idx) (tick st) Hin Hrest) as (st' & Hst' & Hin' & Hd).
    exists st'. split; [|done]. simpl. unfold step.
    change (inHunk (tick st)) with (inHunk st). by rewrite Hin, Hl.
Qed.

Lemma Parse_panics_before_first_file s j l :
  strings.Split s !! j = Some l ->
  Forall (fun x => classify false x = CaseNone) (take j (strings.Split s)) ->
  classify false l ∈ [CaseDeleted; CaseNew; CaseOrigName; CaseNewName; CaseHunk] ->
  Parse s = Panic NilDereference.
Proof.
  intros Hl Hskip Hcase.
  destruct (loop_skipped (strings.Split s) 0 _ (init s) eq_refl Hskip)
    as (st & Hst & Hin & Hd).
  unfold Parse. rewrite (state_after_rest s j). unfold state_after. rewrite Hst.
  rewrite (drop_S _ _ _ Hl). simpl. unfold step.
  change (inHunk (tick st)) with (inHunk st). rewrite Hin.
  assert (file (tick st) = None) as Hf by (unfold file; simpl; by rewrite Hd).
  unfold with_file, case_hunk. rewrite Hf.
  repeat (apply elem_of_cons in Hcase as [->|Hcase]; [done|]).
  by apply elem_of_nil in Hcase.
Qed.

(** A body line that is a lone [+] or [-] panics as well: its Content
    is empty when the second byte is sliced off. *)
Lemma Parse_panics_on_bare_marker :
  Parse (unlines ["diff a"; "@@ -1 +1 @@"; "+"]) = Panic SliceBounds
  /\ Parse (unlines ["diff a"; "@@ -1 +1 @@"; "-"]) = Panic SliceBounds.
Proof. split; vm_compute; reflexivity. Qed.

(** ** [diff.Files] *)

Lemma is_nil_files st F f :
  files_of (diff st) = F ++ [f] -> slice.is_nil (Diff.Files (diff st)) = false.
Proof.
  unfold files_of. destruct (Diff.Files (diff st)); [done|].
  simpl. intros H. by destruct F.
Qed.

Lemma is_nil_store_file st F f g :
  files_of (diff st) = F ++ [f] ->
  slice.is_nil (Diff.Files (diff (store_file g st))) = false.
Proof.
  intros H. eapply is_nil_files. by eapply files_store_file.
Qed.

Lemma step_is_nil lines idx l st st' :
  step lines idx l st = Ok st' ->
  slice.is_nil (Diff.Files (diff st')) =
  slice.is_nil (Diff.Files (diff st)) && negb (strings.HasPrefix l "diff ").
Proof.
  intros H.
  pose proof (fun b => classify_not_CaseDiff b l) as Hnd.
  step_cases H.
  - apply classify_CaseDiff in Hc. rewrite Hc. simpl. by rewrite andb_false_r.
  - rewrite (is_nil_store_file (tick st) F f _ HF). by rewrite (is_nil_files st F f HF).
  - cbn [diff]. rewrite (is_nil_store_file st F f _ HF). by rewrite (is_nil_files st F f HF).
  - rewrite (is_nil_files st F f HF). rewrite diff_body_result.
    by rewrite (is_nil_store_file (tick st) F f _ HF).
  - rewrite (Hnd (inHunk st)) by congruence. simpl. by rewrite andb_true_r.
Qed.

Lemma loop_is_nil lines rest idx st st' :
  loop lines idx rest st = Ok st' ->
  slice.is_nil (Diff.Files (diff st')) =
  slice.is_nil (Diff.Files (diff st))
  && forallb (fun l => negb (strings.HasPrefix l "diff ")) rest.
Proof.
  revert idx st. induction rest as [|l rest IH]; intros idx st H.
  - injection H as <-. by rewrite andb_true_r.
  - simpl in H. apply bind_Ok in H as (st1 & H1 & H2).
    rewrite (IH _ _ H2), (step_is_nil _ _ _ _ _ H1). simpl. by rewrite andb_assoc.
Qed.

(** C9 fails as stated: on the empty input the Files field of the
    returned Diff is nil. *)
Lemma Files_nil_on_empty_input :
  exists h d, Parse EmptyString = Ok (h, d) /\ Diff.Files d = slice.nil.
Proof. eexists _, _. split; [vm_compute; reflexivity | reflexivity]. Qed.

(** C9, as the code has it: Parse of the empty string returns no error
    and a Diff with no files; and whenever Parse returns a Diff, its
    Files field is nil exactly when no input line starts with [diff ]. *)
Theorem Files_nil_iff_no_diff_line :
  (exists h d, Parse EmptyString = Ok (h, d) /\ files_of d = [])
  /\ forall s h d,
       Parse s = Ok (h, d) ->
       (slice.is_nil (Diff.Files d) = true <->
        Forall (fun l => strings.HasPrefix l "diff " = false) (strings.Split s)).
Proof.
  split.
  - eexists _, _. split; [vm_compute; reflexivity | reflexivity].
  - intros s h d H. apply Parse_Ok in H as (st & H & -> & ->).
    rewrite (loop_is_nil _ _ _ _ _ H). simpl.
    rewrite forallb_forall, Forall_forall.
    split; intros Hall l Hin.
    + apply list_elem_of_In, Hall in Hin. by apply negb_true_iff.
    + apply list_elem_of_In in Hin. by rewrite (Hall l Hin).
Qed.

Lemma Files_nil_iff_no_diff_line_witness :
  slice.is_nil (Diff.Files sample_diff) = true <->
  Forall (fun l => strings.HasPrefix l "diff " = false) (strings.Split sample).
Proof.
  apply (proj2 Files_nil_iff_no_diff_line sample sample_heap sample_diff).
  vm_compute. reflexivity.
Defined.

(** ** The header patterns in plain terms *)

Lemma existsb_map {A B} (f : A -> B) (P : B -> bool) (l : list A) :
  existsb P (map f l) = existsb (fun x => P (f x)) l.
Proof. induction l as [|x l IH]; simpl; [done | by rewrite IH]. Qed.

Lemma no_newline_drop n s : no_newline s = true -> no_newline (strings.drop n s) = true.
Proof.
  revert s. induction n as [|n IH]; intros [|c s]; simpl; try done.
  intros H. apply andb_true_iff in H as [_ H]. by apply IH.
Qed.

Lemma no_newline_app a b : no_newline (a +:+ b) = no_newline a && no_newline b.
Proof.
  induction a as [|c a IH]; [done|].
  change (String c a +:+ b) with (String c (a +:+ b)). simpl.
  by rewrite IH, andb_assoc.
Qed.

Lemma Split_no_newline s : Forall (fun l => no_newline l = true) (strings.Split s).
Proof.
  induction s as [|c s IH]; simpl; [by repeat constructor|].
  destruct (Ascii.eqb c strings.newline) eqn:Hc; [by constructor|].
  destruct (strings.Split s) as [|h t]; simpl.
  - repeat constructor. simpl. unfold dot. by rewrite Hc.
  - apply Forall_cons in IH as [Hh Ht]. constructor; [|done].
    simpl. unfold dot. by rewrite Hc.
Qed.

Lemma nth_no_newline lines i :
  Forall (fun l => no_newline l = true) lines ->
  no_newline (nth i lines EmptyString) = true.
Proof.
  intros H. destruct (nth_lookup_or_length lines i EmptyString) as [Hl|Hl].
  - eapply (proj1 (Forall_forall _ _) H), list_elem_of_lookup_2, Hl.
  - by rewrite nth_overflow by lia.
Qed.

Lemma MatchWhole_Plus_dot s :
  no_newline s = true ->
  MatchWhole (Plus dot) s = negb (String.eqb s EmptyString).
Proof.
  unfold MatchWhole. cbn [matches]. rewrite existsb_map. cbn [snd].
  induction s as [|c s IH]; [done|]. intros H.
  apply andb_true_iff in H as [Hc Hs]. cbn [runs]. rewrite Hc.
  rewrite existsb_app, existsb_map. cbn [snd existsb]. rewrite (IH Hs).
  by destruct s.
Qed.

(** When [r1] matches in at most one way, [r1 r2] matches the whole text
    iff [r2] matches all that [r1] leaves. *)
Lemma MatchWhole_Cat_nil r1 r2 s :
  matches r1 s = [] -> MatchWhole (Cat r1 r2) s = false.
Proof. unfold MatchWhole. simpl. by intros ->. Qed.

Lemma MatchWhole_Cat_single r1 r2 s p g s1 :
  matches r1 s = [(p, g, s1)] -> MatchWhole (Cat r1 r2) s = MatchWhole r2 s1.
Proof.
  unfold MatchWhole. simpl. intros ->. simpl. rewrite app_nil_r, existsb_map.
  induction (matches r2 s1) as [|[[p2 g2] s2] cs IH]; simpl; [done | by rewrite IH].
Qed.

Lemma drop_length_ltb l n :
  negb (String.eqb (strings.drop n l) EmptyString) = Nat.ltb n (String.length l).
Proof.
  revert l. induction n as [|n IH]; intros [|c l]; simpl; done.
Qed.

Lemma MatchWhole_rein l :
  no_newline l = true -> MatchWhole rein l = is_index_line l.
Proof.
  intros Hl. unfold rein, is_index_line.
  destruct (strings.HasPrefix l "index ") eqn:Hp.
  - rewrite (MatchWhole_Cat_single _ _ l "index " [] (strings.drop 6 l)).
    + rewrite MatchWhole_Plus_dot by (by apply no_newline_drop).
      by rewrite drop_length_ltb.
    + cbn [matches]. by rewrite Hp.
  - apply MatchWhole_Cat_nil. cbn [matches]. by rewrite Hp.
Qed.

Lemma matches_sign_re a s :
  matches sign_re (String a s) =
  if Ascii.eqb a "-" then [("-", [(1, "-")], s)]
  else if Ascii.eqb a "+" then [("+", [(1, "+")], s)]
  else [].
Proof.
  unfold sign_re. cbn [matches]. rewrite !HasPrefix_cons, !HasPrefix_empty, !andb_true_r.
  cbn [strings.drop String.length].
  rewrite (Ascii.eqb_sym "-" a), (Ascii.eqb_sym "+" a).
  destruct (Ascii.eqb_spec a "-") as [->|H1]; [done|].
  by destruct (Ascii.eqb a "+").
Qed.

Lemma MatchWhole_sign_re r s :
  MatchWhole (Cat sign_re r) s =
  match s with
  | String a s' => is_sign a && MatchWhole r s'
  | EmptyString => false
  end.
Proof.
  destruct s as [|a s]; [done|].
  pose proof (matches_sign_re a s) as Hm. unfold is_sign.
  destruct (Ascii.eqb a "-").
  { by rewrite (MatchWhole_Cat_single _ _ _ _ _ _ Hm). }
  destruct (Ascii.eqb a "+").
  { by rewrite (MatchWhole_Cat_single _ _ _ _ _ _ Hm). }
  by rewrite (MatchWhole_Cat_nil _ _ _ Hm).
Qed.

Lemma MatchWhole_remp l :
  no_newline l = true -> MatchWhole remp l = is_marker_line l.
Proof.
  intros Hl.
  change remp with (Cat sign_re (Cat sign_re (Cat sign_re (Cat (Lit " ") (Plus dot))))).
  rewrite MatchWhole_sign_re. destruct l as [|a l]; [done|].
  rewrite MatchWhole_sign_re. destruct l as [|b l]; [by rewrite andb_false_r|].
  rewrite MatchWhole_sign_re. destruct l as [|c l]; [by rewrite !andb_false_r|].
  destruct l as [|d l].
  { rewrite MatchWhole_Cat_nil by done. by rewrite !andb_false_r. }
  assert (no_newline l = true) as Hl'.
  { by apply (no_newline_drop 4 (String a (String b (String c (String d l))))). }
  simpl is_marker_line. rewrite (Ascii.eqb_sym d " ").
  destruct (Ascii.eqb_spec " " d) as [<-|Hd].
  - rewrite (MatchWhole_Cat_single _ _ _ " " [] l) by done.
    rewrite (MatchWhole_Plus_dot l Hl').
    destruct l; simpl; by rewrite ?andb_true_r, ?andb_false_r, ?andb_assoc.
  - rewrite MatchWhole_Cat_nil.
    + destruct l; by rewrite !andb_false_r.
    + cbn [matches]. rewrite HasPrefix_cons.
      by destruct (Ascii.eqb_spec " " d).
Qed.

(** ** File headers *)

Lemma append_assoc (a b c : string) : (a +:+ b) +:+ c = a +:+ (b +:+ c).
Proof.
  induction a as [|x a IH]; [done|].
  change (String x ((a +:+ b) +:+ c) = String x (a +:+ (b +:+ c))). by rewrite IH.
Qed.

Lemma append_empty_r (a : string) : a +:+ EmptyString = a.
Proof.
  induction a as [|x a IH]; [done|].
  change (String x (a +:+ EmptyString) = String x a). by rewrite IH.
Qed.

Lemma header_of_spec lines idx l :
  Forall (fun x => no_newline x = true) lines ->
  lines !! idx = Some l -> header_of lines idx l = Header_spec lines idx.
Proof.
  intros Hnl Hl. unfold header_of, Header_spec. cbv zeta.
  rewrite (nth_lookup_Some _ _ _ _ Hl).
  rewrite !MatchWhole_rein, !MatchWhole_remp by (by apply nth_no_newline).
  destruct (Nat.ltb (idx + 3) (length lines)); [|done].
  destruct (is_index_line _);
    destruct (is_marker_line (nth (idx + 2) lines EmptyString) && is_marker_line _);
    cbv iota; rewrite ?append_assoc, ?append_empty_r; done.
Qed.

Lemma step_headers lines idx l st st' :
  Forall (fun x => no_newline x = true) lines ->
  lines !! idx = Some l ->
  step lines idx l st = Ok st' ->
  headers (diff st') =
  headers (diff st) ++ (if strings.HasPrefix l "diff " then [Header_spec lines idx] else []).
Proof.
  intros Hnl Hl H.
  pose proof (fun b => classify_not_CaseDiff b l) as Hnd.
  step_cases H.
  - apply classify_CaseDiff in Hc. rewrite Hc.
    unfold headers, files_of. simpl. rewrite map_app. simpl.
    by rewrite (header_of_spec _ _ _ Hnl Hl).
  - rewrite (Hnd _ Hc1), app_nil_r.
    pose proof (files_store_file (tick st) F f (upd f) HF) as HF'.
    rewrite (headers_snoc _ _ _ HF), (headers_snoc _ _ _ HF').
    by destruct (Hupd f) as [-> _].
  - rewrite (Hnd (inHunk st)), app_nil_r by congruence. cbn [diff].
    match goal with |- context [store_file ?g _] =>
      pose proof (files_store_file st F f g HF) as HF' end.
    by rewrite (headers_snoc _ _ _ HF), (headers_snoc _ _ _ HF').
  - rewrite (Hnd (inHunk st)), app_nil_r by congruence.
    rewrite diff_body_result.
    match goal with |- context [store_file ?g _] =>
      pose proof (files_store_file (tick st) F f g HF) as HF' end.
    by rewrite (headers_snoc _ _ _ HF), (headers_snoc _ _ _ HF').
  - by rewrite (Hnd (inHunk st)), app_nil_r by congruence.
Qed.

Lemma loop_headers lines rest idx st st' :
  Forall (fun x => no_newline x = true) lines ->
  drop idx lines = rest ->
  loop lines idx rest st = Ok st' ->
  headers (diff st') = headers (diff st) ++ diff_headers lines idx rest.
Proof.
  intros Hnl. revert idx st. induction rest as [|l rest IH]; intros idx st Hd H.
  - injection H as <-. by rewrite app_nil_r.
  - simpl in H. apply bind_Ok in H as (st1 & H1 & H2).
    assert (lines !! idx = Some l) as Hl.
    { rewrite <- (Nat.add_0_r idx), <- lookup_drop, Hd. done. }
    rewrite (drop_S _ _ _ Hl) in Hd. injection Hd as Hd.
    rewrite (IH _ _ Hd H2), (step_headers _ _ _ _ _ Hnl Hl H1). simpl.
    by rewrite app_assoc.
Qed.

(** C10 fails as stated: an [index] line right after the [diff ] line
    is not taken into the header when fewer than three lines follow. *)
Lemma header_needs_three_following_lines :
  exists h d f,
    Parse (unlines ["diff --git a/f b/f"; "index 9f1a0cd..a2e7e6a 100644"; "--- a/f"])
      = Ok (h, d)
    /\ MatchWhole rein "index 9f1a0cd..a2e7e6a 100644" = true
    /\ files_of d = [f]
    /\ DiffFile.DiffHeader f = "diff --git a/f b/f".
Proof. eexists _, _, _. split_and!; vm_compute; reflexivity. Qed.

(** The marker lines are looked for at the second and third line after
    the [diff ] line only: right after the [diff ] line they are not
    taken into the header, and after a line that is no [index] line
    they are. *)
Lemma marker_pair_positions :
  (exists h d f,
     Parse (unlines ["diff --git a/f b/f"; "--- a/f"; "+++ b/f"; "@@ -1 +1 @@"; "+ ab"])
       = Ok (h, d)
     /\ files_of d = [f]
     /\ DiffFile.DiffHeader f = "diff --git a/f b/f")
  /\ (exists h d f,
        Parse (unlines ["diff --git a/f b/f"; "new file mode 100644";
                        "--- /dev/null"; "+++ b/f"; "@@ -0,0 +1 @@"; "+ ab"])
          = Ok (h, d)
        /\ files_of d = [f]
        /\ DiffFile.DiffHeader f
           = unlines ["diff --git a/f b/f"; "--- /dev/null"; "+++ b/f"]).
Proof. split; eexists _, _, _; split_and!; vm_compute; reflexivity. Qed.

(** C10, as the code has it: the headers of the files of the returned
    Diff are, in input order, those of the [diff ] lines, each being the
    line itself and, provided at least three more input lines follow
    it, the next line when that is an [index] line and/or the second
    and third line after it when both are marker lines (whether or not
    the line between is an [index] line). *)
Theorem file_headers s h d :
  Parse s = Ok (h, d) ->
  map DiffFile.DiffHeader (files_of d)
  = diff_headers (strings.Split s) 0 (strings.Split s).
Proof.
  intros H. apply Parse_Ok in H as (st & H & -> & ->).
  apply (loop_headers _ _ _ _ _ (Split_no_newline s) (drop_0 _) H).
Qed.

Lemma file_headers_witness :
  map DiffFile.DiffHeader (files_of sample_diff)
  = diff_headers (strings.Split sample) 0 (strings.Split sample).
Proof.
  apply (file_headers sample sample_heap sample_diff). vm_compute. reflexivity.
Defined.

(** ** [Changed] *)

Lemma appended_refl m : appended m m (fun _ => []).
Proof. by intros k. Qed.

Lemma appended_trans m1 m2 m3 d1 d2 :
  appended m1 m2 d1 -> appended m2 m3 d2 ->
  appended m1 m3 (fun k => d1 k ++ d2 k).
Proof.
  intros H1 H2 k. rewrite (H2 k), (H1 k).
  destruct (d2 k) as [|y ys]; [by rewrite app_nil_r|].
  destruct (d1 k) as [|x xs]; simpl; [done|].
  by rewrite <- app_assoc.
Qed.

Lemma appended_ext m m' d1 d2 :
  (forall k, d1 k = d2 k) -> appended m m' d1 -> appended m m' d2.
Proof. intros He H k. rewrite <- He. apply H. Qed.

Lemma foldM_appended {A} (body : gmap string (list Z) -> A -> Result (gmap string (list Z)))
    (delta : A -> string -> list Z) (P : A -> Prop) :
  (forall m x, P x -> exists m', body m x = Ok m' /\ appended m m' (delta x)) ->
  forall xs m, Forall P xs ->
    exists m', foldM body xs m = Ok m'
               /\ appended m m' (fun k => flat_map (fun x => delta x k) xs).
Proof.
  intros Hbody. induction xs as [|x xs IH]; intros m HP.
  - exists m. split; [done | apply appended_refl].
  - apply Forall_cons in HP as [Hx Hxs].
    destruct (Hbody m x Hx) as (m1 & H1 & A1).
    destruct (IH m1 Hxs) as (m2 & H2 & A2).
    exists m2. split; [simpl; by rewrite H1|].
    simpl. by eapply appended_trans.
Qed.

Lemma Changed_line_appended h name m p :
  p < length h ->
  exists m', Changed_line h name m p = Ok m'
             /\ appended m m' (fun k => if decide (k = name) then added_number h p else []).
Proof.
  intros Hp. apply lookup_lt_is_Some_2 in Hp as [dl Hdl].
  unfold Changed_line, deref, added_number. rewrite Hdl. simpl.
  destruct (decide (DiffLine.Mode dl = Added)).
  - eexists. split; [done|]. intros k. unfold push.
    destruct (decide (k = name)) as [->|Hk].
    + by rewrite lookup_insert_eq.
    + by rewrite lookup_insert_ne.
  - exists m. split; [done|]. intros k. by destruct (decide (k = name)).
Qed.

Lemma flat_map_if {A B} (b : bool) (f : A -> list B) (l : list A) :
  flat_map (fun x => if b then f x else []) l = if b then flat_map f l else [].
Proof. destruct b; [done|]. by induction l. Qed.

Lemma flat_map_decide {A B} (P : Prop) `{Decision P} (f : A -> list B) (l : list A) :
  flat_map (fun x => if decide P then f x else []) l = if decide P then flat_map f l else [].
Proof. destruct (decide P); [done|]. by induction l. Qed.

Lemma Changed_file_appended h m f :
  (forall c p, c ∈ chunks_of f -> p ∈ lines_of (DiffChunk.NewRange c) -> p < length h) ->
  exists m', Changed_file h m f = Ok m'
    /\ appended m m' (fun k =>
         if decide (DiffFile.Mode f = Deleted) then []
         else if decide (DiffFile.NewName f = k)
              then flat_map
                     (fun c => flat_map (added_number h) (lines_of (DiffChunk.NewRange c)))
                     (chunks_of f)
              else []).
Proof.
  intros Hv. unfold Changed_file.
  destruct (decide (DiffFile.Mode f = Deleted)).
  { exists m. split; [done | apply appended_refl]. }
  destruct (foldM_appended (Changed_chunk h (DiffFile.NewName f))
    (fun c k => if decide (k = DiffFile.NewName f)
                then flat_map (added_number h) (lines_of (DiffChunk.NewRange c)) else [])
    (fun c => forall p, p ∈ lines_of (DiffChunk.NewRange c) -> p < length h)) with
    (xs := chunks_of f) (m := m) as (m' & Hm' & Ha).
  - intros m0 c Hc. unfold Changed_chunk.
    destruct (foldM_appended (Changed_line h (DiffFile.NewName f))
      (fun p k => if decide (k = DiffFile.NewName f) then added_number h p else [])
      (fun p => p < length h)) with
      (xs := lines_of (DiffChunk.NewRange c)) (m := m0) as (m1 & Hm1 & Ha1).
    + intros m1 p Hp. by apply Changed_line_appended.
    + by apply Forall_forall.
    + exists m1. split; [done|]. eapply appended_ext; [|exact Ha1].
      intros k. simpl. apply flat_map_decide.
  - apply Forall_forall. intros c Hc p. by apply Hv.
  - exists m'. split; [done|]. eapply appended_ext; [|exact Ha].
    intros k. simpl. rewrite flat_map_decide.
    destruct (decide (k = DiffFile.NewName f)) as [->|Hk].
    + by rewrite decide_True.
    + by rewrite decide_False.
Qed.

(** C6: for every Diff that Parse returns, [Changed] returns a map; the
    key [name] is bound exactly when some file that is not Deleted and
    has NewName [name] holds an Added line in the NewRange of one of its
    hunks, and is then bound to the Numbers of all such lines in input
    order.  Deleted files contribute nothing, and no Number of a line
    that is not Added appears. *)
Theorem Changed_spec s h d :
  Parse s = Ok (h, d) ->
  exists m,
    Changed h d = Ok m
    /\ forall name,
         m !! name = match changed_spec h d name with
                     | [] => None
                     | ns => Some ns
                     end.
Proof.
  intros HP. pose proof (Parse_ptrs_valid s h d HP) as Hv.
  destruct (foldM_appended (Changed_file h)
    (fun f k =>
       if decide (DiffFile.Mode f = Deleted) then []
       else if decide (DiffFile.NewName f = k)
            then flat_map
                   (fun c => flat_map (added_number h) (lines_of (DiffChunk.NewRange c)))
                   (chunks_of f)
            else [])
    (fun f => forall c p, c ∈ chunks_of f ->
                          p ∈ lines_of (DiffChunk.NewRange c) -> p < length h)) with
    (xs := files_of d) (m := (∅ : gmap string (list Z))) as (m & Hm & Ha).
  - intros m f Hf. by apply Changed_file_appended.
  - apply Forall_forall. intros f Hf c p Hc Hp. apply (Hv c p).
    + unfold all_chunks. apply list_elem_of_In, in_flat_map.
      exists f. split; by apply list_elem_of_In.
    + unfold chunk_ptrs. rewrite !elem_of_app. auto.
  - exists m. split; [done|]. intros name. rewrite (Ha name).
    fold (changed_spec h d name).
    destruct (changed_spec h d name); [apply lookup_empty|].
    by rewrite lookup_empty.
Qed.

Lemma Changed_spec_witness :
  exists m,
    Changed sample_heap sample_diff = Ok m
    /\ forall name,
         m !! name = match changed_spec sample_heap sample_diff name with
                     | [] => None
                     | ns => Some ns
                     end.
Proof.
  apply (Changed_spec sample sample_heap sample_diff). vm_compute. reflexivity.
Defined.

(** ** Position *)

Lemma incr_small z : (0 <= z < int.max)%Z -> int.incr z = (z + 1)%Z.
Proof.
  unfold int.incr, int.wrap, int.max. intros Hz.
  rewrite Z.mod_small by lia. lia.
Qed.

(** The counter and the first-hunk flag after one iteration. *)
Lemma step_counters lines idx l st st' :
  step lines idx l st = Ok st' ->
  firstHunkInFile st' =
    (if strings.HasPrefix l "diff " then true
     else if strings.HasPrefix l "@@ " then false
     else firstHunkInFile st)
  /\ diffPosCount st' =
    (if negb (strings.HasPrefix l "diff ") && strings.HasPrefix l "@@ "
        && firstHunkInFile st
     then 0%Z else int.incr (diffPosCount st)).
Proof.
  intros H.
  pose proof (fun b => classify_not_CaseDiff b l) as Hnd.
  pose proof (fun b => classify_not_CaseHunk b l) as Hnh.
  step_cases H.
  - apply classify_CaseDiff in Hc. by rewrite Hc.
  - by rewrite (Hnd _ Hc1), (Hnh _ Hc2).
  - rewrite (Hnd (inHunk st)) by congruence.
    apply classify_CaseHunk in Hc. rewrite Hc. simpl.
    by destruct (firstHunkInFile st).
  - rewrite (Hnd (inHunk st)), (Hnh (inHunk st)) by congruence. by destruct m.
  - by rewrite (Hnd (inHunk st)), (Hnh (inHunk st)) by congruence.
Qed.

(** Records allocated by an iteration carry the counter it has just
    incremented. *)
Lemma step_stored_position lines idx l st st' p dl :
  step lines idx l st = Ok st' ->
  length (heap st) <= p ->
  heap st' !! p = Some dl ->
  DiffLine.Position dl = int.incr (diffPosCount st).
Proof.
  intros H Hp Hdl. apply step_chunks in H.
  destruct H as [_ _ Hh _|a b c d hd _ _ Hh _|A c m f _ _ _ _ _ _ _ ->].
  - rewrite Hh in Hdl. apply lookup_lt_Some in Hdl. lia.
  - rewrite Hh in Hdl. apply lookup_lt_Some in Hdl. lia.
  - destruct m; unfold body_result in Hdl; cbn [heap tick] in Hdl;
      rewrite lookup_app_r in Hdl by lia.
    + destruct (p - length (heap st)) as [|k]; [|done]. by injection Hdl as <-.
    + destruct (p - length (heap st)) as [|k]; [|done]. by injection Hdl as <-.
    + destruct (p - length (heap st)) as [|[|k]]; [| |done]; by injection Hdl as <-.
Qed.

(** Induction over the states after [a], [a+1], ..., [b] lines. *)
Lemma state_after_range (P : nat -> State -> Prop) s a b :
  a <= b -> b <= length (strings.Split s) ->
  (forall st, state_after s a = Ok st -> P a st) ->
  (forall k l st st',
      a <= k < b -> strings.Split s !! k = Some l ->
      state_after s k = Ok st -> P k st ->
      step (strings.Split s) k l st = Ok st' -> P (S k) st') ->
  forall st, state_after s b = Ok st -> P b st.
Proof.
  intros Hab Hb Ha Hstep. induction b as [|b IH]; intros st Hst.
  - assert (a = 0) as -> by lia. by apply Ha.
  - destruct (decide (a = S b)) as [->|Hne]; [by apply Ha|].
    destruct (lookup_lt_is_Some_2 (strings.Split s) b) as [l Hl]; [lia|].
    rewrite (state_after_S _ _ _ Hl) in Hst.
    apply bind_Ok in Hst as (st0 & Hst0 & Hs).
    apply (Hstep b l st0 st); [lia | done | done | | done].
    apply IH; [lia | lia | | done].
    intros k l' st1 st2 Hk. apply Hstep. lia.
Qed.

(** C8: in a successfully parsed input (with no more lines than an
    [int] can count), let line [f] start a file, let [hh] be the first
    hunk heading of that file, and let line [j] come after [hh] and
    before the next [diff ] line.  Then every record stored for line
    [j] has Position [j - hh]: 1 for the line right after the heading,
    and one more for each further input line, whatever those lines
    are. *)
Theorem position_from_first_hunk s h d f hh j l :
  Parse s = Ok (h, d) ->
  (Z.of_nat (length (strings.Split s)) <= int.max)%Z ->
  strings.Split s !! j = Some l ->
  f < hh < j ->
  strings.HasPrefix (nth f (strings.Split s) EmptyString) "diff " = true ->
  (forall i, f < i < j ->
             strings.HasPrefix (nth i (strings.Split s) EmptyString) "diff " = false) ->
  strings.HasPrefix (nth hh (strings.Split s) EmptyString) "@@ " = true ->
  (forall i, f < i < hh ->
             strings.HasPrefix (nth i (strings.Split s) EmptyString) "@@ " = false) ->
  exists st st',
    state_after s j = Ok st
    /\ state_after s (S j) = Ok st'
    /\ forall dl, stored_between st st' h dl ->
                  DiffLine.Position dl = Z.of_nat (j - hh).
Proof.
  intros HP Hmax Hl Hfhj Hf Hnd Hhh Hnh.
  pose proof (lookup_lt_Some _ _ _ Hl) as Hj.
  assert (forall k, exists st, state_after s k = Ok st) as Hex.
  { intros k. destruct (Parse_Ok_state_after s h d k HP) as (st & _ & Hst & _). eauto. }
  (* after the [diff ] line *)
  assert (forall st, state_after s (S f) = Ok st -> firstHunkInFile st = true) as H1.
  { intros st Hst.
    destruct (lookup_lt_is_Some_2 (strings.Split s) f) as [lf Hlf]; [lia|].
    rewrite (state_after_S _ _ _ Hlf) in Hst. apply bind_Ok in Hst as (st0 & _ & Hs).
    apply step_counters in Hs as [-> _].
    rewrite (nth_lookup_Some _ _ _ _ Hlf) in Hf. by rewrite Hf. }
  (* up to the first heading *)
  assert (forall st, state_after s hh = Ok st -> firstHunkInFile st = true) as H2.
  { apply (state_after_range (fun _ st => firstHunkInFile st = true) s (S f) hh);
      [lia | lia | exact H1 |].
    intros k lk st st' Hk Hlk _ Hfirst Hs.
    apply step_counters in Hs as [-> _].
    specialize (Hnd k ltac:(lia)). specialize (Hnh k ltac:(lia)).
    rewrite (nth_lookup_Some _ _ _ _ Hlk) in Hnd, Hnh. by rewrite Hnd, Hnh. }
  (* the first heading resets the counter *)
  assert (forall st, state_after s (S hh) = Ok st ->
            firstHunkInFile st = false
            /\ diffPosCount st = (Z.of_nat (S hh) - 1 - Z.of_nat hh)%Z) as H3.
  { intros st Hst.
    destruct (lookup_lt_is_Some_2 (strings.Split s) hh) as [lh Hlh]; [lia|].
    rewrite (state_after_S _ _ _ Hlh) in Hst. apply bind_Ok in Hst as (st0 & Hst0 & Hs).
    apply step_counters in Hs as [-> ->].
    specialize (Hnd hh ltac:(lia)).
    rewrite (nth_lookup_Some _ _ _ _ Hlh) in Hnd, Hhh.
    rewrite Hnd, Hhh, (H2 st0 Hst0). simpl. split; [done | lia]. }
  (* every later line of the file counts one *)
  assert (forall st, state_after s j = Ok st ->
            firstHunkInFile st = false
            /\ diffPosCount st = (Z.of_nat j - 1 - Z.of_nat hh)%Z) as H4.
  { apply (state_after_range
             (fun k st => firstHunkInFile st = false
                          /\ diffPosCount st = (Z.of_nat k - 1 - Z.of_nat hh)%Z)
             s (S hh) j); [lia | lia | exact H3 |].
    intros k lk st st' Hk Hlk _ [Hfirst Hpos] Hs.
    apply step_counters in Hs as [-> ->].
    specialize (Hnd k ltac:(lia)).
    rewrite (nth_lookup_Some _ _ _ _ Hlk) in Hnd.
    rewrite Hnd, Hfirst, Hpos, andb_false_r. cbv iota.
    split; [by destruct (strings.HasPrefix lk "@@ ")|].
    rewrite incr_small; unfold int.max in *; lia. }
  destruct (Parse_Ok_state_after s h d (S j) HP) as (st' & fin & Hst' & Hfin & -> & _).
  destruct (Hex j) as [st Hst].
  exists st, st'. split_and!; try done.
  intros dl (p & Hp & Hdl).
  apply loop_extends in Hfin as (Hpre & _).
  rewrite <- (prefix_lookup_lt (heap st') (heap fin) p) in Hdl by (done || lia).
  pose proof Hst' as Hs. rewrite (state_after_S _ _ _ Hl), Hst in Hs. simpl in Hs.
  rewrite (step_stored_position _ _ _ _ _ _ _ Hs (proj1 Hp) Hdl).
  destruct (H4 st Hst) as [_ ->].
  rewrite incr_small; unfold int.max in *; lia.
Qed.

Lemma position_from_first_hunk_witness :
  exists st st',
    state_after sample 8 = Ok st
    /\ state_after sample 9 = Ok st'
    /\ forall dl, stored_between st st' sample_heap dl ->
                  DiffLine.Position dl = Z.of_nat (8 - 4).
Proof.
  apply (position_from_first_hunk sample sample_heap sample_diff 0 4 8 "-in").
  - vm_compute. reflexivity.
  - vm_compute. discriminate.
  - vm_compute. reflexivity.
  - lia.
  - vm_compute. reflexivity.
  - intros i Hi.
    do 8 (destruct i as [|i]; [try lia; vm_compute; reflexivity|]). lia.
  - vm_compute. reflexivity.
  - intros i Hi.
    do 4 (destruct i as [|i]; [try lia; vm_compute; reflexivity|]). lia.
Defined.

(** ** The hunk heading pattern on well-formed headings *)

Lemma HasPrefix_append p s : strings.HasPrefix (p +:+ s) p = true.
Proof. apply HasPrefix_app. by exists s. Qed.

Lemma drop_append p s : strings.drop (String.length p) (p +:+ s) = s.
Proof. induction p as [|c p IH]; [done | exact IH]. Qed.

Lemma first_is_Lit p s : first_is (Lit p) (p +:+ s) (p, [], s).
Proof.
  exists []. cbn [matches]. by rewrite HasPrefix_append, drop_append.
Qed.

Lemma first_is_Cat r1 r2 s p1 g1 s1 p2 g2 s2 :
  first_is r1 s (p1, g1, s1) ->
  first_is r2 s1 (p2, g2, s2) ->
  first_is (Cat r1 r2) s (p1 +:+ p2, g1 ++ g2, s2).
Proof.
  intros [t1 H1] [t2 H2]. unfold first_is. cbn [matches]. rewrite H1. cbn [flat_map].
  rewrite H2. cbn [map]. by eexists.
Qed.

Lemma first_is_Group i r s p g s' :
  first_is r s (p, g, s') -> first_is (Group i r) s (p, (i, p) :: g, s').
Proof. intros [t H]. unfold first_is. cbn [matches]. rewrite H. cbn [map]. by eexists. Qed.

Lemma first_is_Opt r s c : first_is r s c -> first_is (Opt r) s c.
Proof. intros [t H]. unfold first_is. cbn [matches]. rewrite H. by eexists. Qed.

Lemma first_is_Opt_skip r s :
  matches r s = [] -> first_is (Opt r) s (EmptyString, [], s).
Proof. intros H. unfold first_is. cbn [matches]. rewrite H. by eexists. Qed.

Lemma runs_no_digit s : no_digit_ahead s -> runs strconv.is_digit s = [].
Proof. destruct s as [|c s]; [done|]. simpl. by intros ->. Qed.

Lemma runs_number A s :
  is_number A -> no_digit_ahead s ->
  exists t, runs strconv.is_digit (A +:+ s) = (A, s) :: t.
Proof.
  intros [Hne Hd] Hs. induction A as [|c A IH]; [done|].
  simpl in Hd. apply andb_true_iff in Hd as [Hc HA].
  change (String c A +:+ s) with (String c (A +:+ s)). cbn [runs]. rewrite Hc.
  destruct A as [|c' A].
  - change (EmptyString +:+ s) with s. rewrite (runs_no_digit s Hs). by eexists.
  - destruct IH as [t Ht]; [done | done |]. rewrite Ht. cbn [map app fst snd]. by eexists.
Qed.

Lemma first_is_number A s :
  is_number A -> no_digit_ahead s ->
  first_is (Plus strconv.is_digit) (A +:+ s) (A, [], s).
Proof.
  intros HA Hs. destruct (runs_number A s HA Hs) as [t Ht].
  unfold first_is. cbn [matches]. rewrite Ht. cbn [map fst snd]. by eexists.
Qed.

Lemma first_is_len_field i o s' R p g s2 :
  opt_number o ->
  first_is R (String " " s') (p, g, s2) ->
  first_is (Cat (Opt (Lit ",")) (Cat (Opt (Group i (Plus strconv.is_digit))) R))
           (len_field o +:+ String " " s')
           (len_field o +:+ p, opt_capture i o ++ g, s2).
Proof.
  intros Ho HR. destruct o as [n|].
  - apply (first_is_Cat _ _ _ "," [] (n +:+ String " " s') (n +:+ p) ([(i, n)] ++ g) s2).
    + apply first_is_Opt, (first_is_Lit "," (n +:+ String " " s')).
    + apply (first_is_Cat _ _ _ n [(i, n)] (String " " s') p g s2); [|done].
      by apply first_is_Opt, first_is_Group, first_is_number.
  - apply (first_is_Cat _ _ _ EmptyString [] (String " " s') p g s2).
    + by apply first_is_Opt_skip.
    + apply (first_is_Cat _ _ _ EmptyString [] (String " " s') p g s2); [|done].
      by apply first_is_Opt_skip.
Qed.

Lemma runs_dot s :
  s <> EmptyString -> no_newline s = true ->
  exists t, runs dot s = (s, EmptyString) :: t.
Proof.
  induction s as [|c s IH]; [done|]. intros _ H.
  apply andb_true_iff in H as [Hc Hs]. cbn [runs]. rewrite Hc.
  destruct s as [|c' s]; [by eexists|].
  destruct IH as [t Ht]; [done | done |]. rewrite Ht. cbn [map app fst snd]. by eexists.
Qed.

Lemma first_is_text s :
  no_newline s = true ->
  exists w, first_is (Opt (Group 5 (Plus dot))) s (w, text_capture s, EmptyString).
Proof.
  intros Hs. destruct s as [|c s].
  - exists EmptyString. by apply first_is_Opt_skip.
  - exists (String c s). apply first_is_Opt, first_is_Group.
    destruct (runs_dot (String c s)) as [t Ht]; [done | done |].
    unfold first_is. cbn [matches]. rewrite Ht. cbn [map fst snd]. by eexists.
Qed.

Lemma first_is_tail tail :
  no_newline tail = true ->
  exists w, first_is (Cat (Opt (Lit " ")) (Opt (Group 5 (Plus dot)))) tail
                     (w, text_capture (trim_space tail), EmptyString).
Proof.
  intros Hnl.
  assert (no_newline (trim_space tail) = true) as Hnl'.
  { destruct tail as [|c tail]; [done|]. unfold trim_space.
    destruct (Ascii.eqb_spec c " ") as [->|Hc]; [by apply (no_newline_drop 1 (String " " tail))|].
    destruct c as [[] [] [] [] [] [] [] []]; done. }
  destruct (first_is_text (trim_space tail) Hnl') as [w Hw].
  destruct tail as [|c tail].
  - exists (EmptyString +:+ w).
    apply (first_is_Cat _ _ _ EmptyString [] EmptyString w _ EmptyString); [|done].
    by apply first_is_Opt_skip.
  - destruct (Ascii.eqb_spec c " ") as [->|Hc].
    + exists (" " +:+ w).
      apply (first_is_Cat _ _ _ " " [] tail w _ EmptyString); [|done].
      apply first_is_Opt, (first_is_Lit " " tail).
    + exists (EmptyString +:+ w).
      assert (trim_space (String c tail) = String c tail) as Ht.
      { unfold trim_space. destruct c as [[] [] [] [] [] [] [] []]; congruence. }
      rewrite Ht in *.
      apply (first_is_Cat _ _ _ EmptyString [] (String c tail) w _ EmptyString); [|done].
      apply first_is_Opt_skip. cbn [matches]. rewrite HasPrefix_cons.
      by destruct (Ascii.eqb_spec " " c).
Qed.

Lemma FindStringSubmatch_first r n s p g s' :
  first_is r s (p, g, s') -> FindStringSubmatch r n s = submatches n p g.
Proof. intros [t H]. destruct s; simpl; by rewrite H. Qed.

(** What the pattern captures on a heading of the expected shape. *)
Lemma FindStringSubmatch_heading A oB C oD tail :
  is_number A -> opt_number oB -> is_number C -> opt_number oD ->
  no_newline tail = true ->
  exists w,
    FindStringSubmatch hunk_re 5 (heading_text A oB C oD tail)
    = [w; A; default EmptyString oB; C; default EmptyString oD; trim_space tail].
Proof.
  intros HA HB HC HD Hnl.
  destruct (first_is_tail tail Hnl) as [w5 H5].
  pose proof (first_is_Cat _ _ _ _ _ _ _ _ _ (first_is_Lit " @@" tail) H5) as H4.
  pose proof (first_is_len_field 4 oD _ _ _ _ _ HD H4) as H3.
  assert (no_digit_ahead (len_field oD +:+ " @@" +:+ tail)) as Hn3 by (by destruct oD).
  pose proof (first_is_Cat _ _ _ _ _ _ _ _ _
    (first_is_Group 3 _ _ _ _ _ (first_is_number C _ HC Hn3)) H3) as H2.
  pose proof (first_is_Cat _ _ _ _ _ _ _ _ _
    (first_is_Lit " +" (C +:+ (len_field oD +:+ (" @@" +:+ tail)))) H2) as H1.
  pose proof (first_is_len_field 2 oB _ _ _ _ _ HB H1) as H0.
  assert (no_digit_ahead
            (len_field oB +:+ " +" +:+ (C +:+ (len_field oD +:+ (" @@" +:+ tail)))))
    as Hn1 by (by destruct oB).
  pose proof (first_is_Cat _ _ _ _ _ _ _ _ _
    (first_is_Group 1 _ _ _ _ _ (first_is_number A _ HA Hn1)) H0) as Hm.
  pose proof (first_is_Cat _ _ _ _ _ _ _ _ _
    (first_is_Lit "@@ -" (A +:+ (len_field oB +:+ (" +" +:+
       (C +:+ (len_field oD +:+ (" @@" +:+ tail))))))) Hm) as Hall.
  eexists. unfold heading_text, hunk_re.
  rewrite (FindStringSubmatch_first _ _ _ _ _ _ Hall).
  unfold submatches. cbn [seq map].
  destruct oB, oD, (trim_space tail); reflexivity.
Qed.

Lemma parse_heading_text A oB C oD tail :
  is_number A -> opt_number oB -> is_number C -> opt_number oD ->
  no_newline tail = true ->
  parse_heading (heading_text A oB C oD tail) =
    a ← strconv.Atoi A;
    b ← match oB with Some B => strconv.Atoi B | None => Ok a end;
    c ← strconv.Atoi C;
    d ← match oD with Some D => strconv.Atoi D | None => Ok c end;
    Ok (a, b, c, d, trim_space tail).
Proof.
  intros HA HB HC HD Hnl.
  destruct (FindStringSubmatch_heading A oB C oD tail HA HB HC HD Hnl) as [w Hw].
  unfold parse_heading. rewrite Hw.
  destruct oB as [[|cb B]|]; [by destruct HB| |];
    (destruct oD as [[|cd D]|]; [by destruct HD| |]);
    by destruct (trim_space tail).
Qed.

(** C1 fails as stated: the heading [@@ -5 +5 @@] gives both ranges
    Length 5. *)
Lemma omitted_length_is_not_one :
  exists h d c,
    Parse (unlines ["diff a"; "@@ -5 +5 @@"]) = Ok (h, d)
    /\ all_chunks d = [c]
    /\ DiffRange.Length (DiffChunk.OrigRange c) = 5%Z
    /\ DiffRange.Length (DiffChunk.NewRange c) = 5%Z
    /\ DiffRange.Length (DiffChunk.OrigRange c) <> 1%Z
    /\ DiffRange.Length (DiffChunk.NewRange c) <> 1%Z.
Proof. eexists _, _, _. split_and!; try (vm_compute; reflexivity); discriminate. Qed.

(** C1, as the code has it: in a successfully parsed input, the hunk
    started by a heading [@@ -A[,B] +C[,D] @@...] has the orig Start [A]
    and the new Start [C]; a side whose [,<len>] field is omitted has
    Length equal to its Start, and a side whose field is given has that
    Length. *)
Theorem omitted_length_is_start s h d j st A oB C oD tail :
  Parse s = Ok (h, d) ->
  strings.Split s !! j = Some (heading_text A oB C oD tail) ->
  state_after s j = Ok st ->
  is_number A -> opt_number oB -> is_number C -> opt_number oD ->
  exists c a c0,
    all_chunks d !! length (all_chunks (diff st)) = Some c
    /\ strconv.Atoi A = Ok a
    /\ strconv.Atoi C = Ok c0
    /\ DiffRange.Start (DiffChunk.OrigRange c) = a
    /\ DiffRange.Start (DiffChunk.NewRange c) = c0
    /\ (oB = None -> DiffRange.Length (DiffChunk.OrigRange c) = a)
    /\ (oD = None -> DiffRange.Length (DiffChunk.NewRange c) = c0)
    /\ (forall B, oB = Some B ->
          strconv.Atoi B = Ok (DiffRange.Length (DiffChunk.OrigRange c)))
    /\ (forall D, oD = Some D ->
          strconv.Atoi D = Ok (DiffRange.Length (DiffChunk.NewRange c))).
Proof.
  intros HP Hl Hst HA HB HC HD.
  destruct (Parse_Ok_state_after s h d (S j) HP) as (st' & fin & Hst' & Hfin & -> & ->).
  pose proof Hst' as Hstep. rewrite (state_after_S _ _ _ Hl), Hst in Hstep.
  simpl in Hstep. apply step_chunks in Hstep.
  assert (classify (inHunk st) (heading_text A oB C oD tail) = CaseHunk) as Hc.
  { by apply classify_CaseHunk. }
  destruct Hstep as [_ Hn _ _|a b c0 d0 hd _ Hp _ Hall|? ? ? ? Hn _ _ _ _ _ _ _];
    [congruence| |congruence].
  apply loop_extends in Hfin as (_ & Hch & _).
  destruct (Hch (length (all_chunks (diff st)))
              (DiffChunk.mk hd (DiffRange.mk a b slice.nil)
                            (DiffRange.mk c0 d0 slice.nil) DiffRange.zero))
    as (c & Hc_fin & _ & (HoS & HoL & _) & (HnS & HnL & _) & _).
  { rewrite Hall. by apply list_lookup_middle. }
  simpl in HoS, HoL, HnS, HnL.
  assert (no_newline tail = true) as Hnl.
  { pose proof (proj1 (Forall_forall _ _) (Split_no_newline s) _
                  (list_elem_of_lookup_2 _ _ _ Hl)) as Hn.
    unfold heading_text in Hn. rewrite !no_newline_app, !andb_true_iff in Hn.
    tauto. }
  rewrite (parse_heading_text A oB C oD tail HA HB HC HD Hnl) in Hp.
  apply bind_Ok in Hp as (a' & Ha & Hp).
  apply bind_Ok in Hp as (b' & Hb & Hp).
  apply bind_Ok in Hp as (c' & Hc' & Hp).
  apply bind_Ok in Hp as (d' & Hd & Hp).
  injection Hp as -> -> -> -> _.
  exists c, a, c0. split_and!; try done.
  - intros ->. injection Hb as <-. done.
  - intros ->. injection Hd as <-. done.
  - intros B ->. by rewrite HoL.
  - intros D ->. by rewrite HnL.
Qed.

Lemma omitted_length_is_start_witness :
  exists c a c0,
    all_chunks sample_short_diff
      !! length (all_chunks (diff (state_before sample_short 1))) = Some c
    /\ strconv.Atoi "5" = Ok a
    /\ strconv.Atoi "7" = Ok c0
    /\ DiffRange.Start (DiffChunk.OrigRange c) = a
    /\ DiffRange.Start (DiffChunk.NewRange c) = c0
    /\ ((None : option string) = None -> DiffRange.Length (DiffChunk.OrigRange c) = a)
    /\ (Some "2" = None -> DiffRange.Length (DiffChunk.NewRange c) = c0)
    /\ (forall B, None = Some B ->
          strconv.Atoi B = Ok (DiffRange.Length (DiffChunk.OrigRange c)))
    /\ (forall D, Some "2" = Some D ->
          strconv.Atoi D = Ok (DiffRange.Length (DiffChunk.NewRange c))).
Proof.
  apply (omitted_length_is_start sample_short sample_short_heap sample_short_diff 1
           (state_before sample_short 1) "5" None "7" (Some "2") " ctx").
  - vm_compute. reflexivity.
  - vm_compute. reflexivity.
  - vm_compute. reflexivity.
  - split; [discriminate | reflexivity].
  - exact I.
  - split; [discriminate | reflexivity].
  - split; [discriminate | reflexivity].
Defined.

(** ** Malformed headings *)

Lemma HasPrefix_refl s : strings.HasPrefix s s = true.
Proof. apply HasPrefix_app. exists EmptyString. by rewrite append_empty_r. Qed.

Lemma Contains_append p l : strings.Contains (p +:+ l) l = true.
Proof.
  induction p as [|c p IH].
  - change (EmptyString +:+ l) with l. destruct l; simpl; [done|].
    by rewrite Ascii.eqb_refl, HasPrefix_refl.
  - change (String c p +:+ l) with (String c (p +:+ l)).
    cbn [strings.Contains]. rewrite IH. apply orb_true_r.
Qed.

Lemma length_submatches n p g : length (submatches n p g) = S n.
Proof. unfold submatches. simpl. by rewrite length_map, length_seq. Qed.

Lemma length_FindStringSubmatch r n s :
  FindStringSubmatch r n s = [] \/ length (FindStringSubmatch r n s) = S n.
Proof.
  induction s as [|c s IH]; simpl.
  - destruct (matches r EmptyString) as [|[[p g] s'] t]; [by left|].
    right. apply length_submatches.
  - destruct (matches r (String c s)) as [|[[p g] s'] t]; [exact IH|].
    right. apply length_submatches.
Qed.

Lemma Atoi_Err x e :
  strconv.Atoi x = Err e ->
  exists msg, e = NumError "Atoi" x msg
              /\ (msg = strconv.ErrSyntax \/ msg = strconv.ErrRange).
Proof.
  unfold strconv.Atoi.
  destruct (match x with
            | String "-"%char r => (true, r)
            | String "+"%char r => (false, r)
            | _ => (false, x)
            end) as [neg body].
  destruct body as [|c body]; [intros [= <-]; eexists; by split; [|left]|].
  destruct (strconv.digits 0 (String c body)) as [v|];
    [|intros [= <-]; eexists; by split; [|left]].
  destruct (int.in_range _); [done | intros [= <-]; eexists; by split; [|right]].
Qed.

Lemma Atoi_no_panic x p : strconv.Atoi x <> Panic p.
Proof.
  unfold strconv.Atoi.
  destruct (match x with
            | String "-"%char r => (true, r)
            | String "+"%char r => (false, r)
            | _ => (false, x)
            end) as [neg body].
  destruct body as [|c body]; [done|].
  destruct (strconv.digits 0 (String c body)) as [v|]; [|done].
  by destruct (int.in_range _).
Qed.

Lemma parse_heading_no_match l :
  FindStringSubmatch hunk_re 5 l = [] ->
  parse_heading l = Err (errorString ("Error parsing line: " +:+ l)).
Proof. unfold parse_heading. by intros ->. Qed.

Lemma parse_heading_first_error l e :
  FindStringSubmatch hunk_re 5 l <> [] ->
  first_error (numeric_fields l) = Some e ->
  parse_heading l = Err e.
Proof.
  unfold numeric_fields, parse_heading. intros Hne.
  destruct (length_FindStringSubmatch hunk_re 5 l) as [H|H]; [done|].
  destruct (FindStringSubmatch hunk_re 5 l) as [|m0 [|m1 [|m2 [|m3 [|m4 [|m5 [|? ?]]]]]]];
    try discriminate.
  clear H Hne. cbn [nth length Nat.ltb Nat.leb index lookup list_lookup mbind Result_bind].
  cbv zeta. cbn [app first_error].
  pose proof (Atoi_no_panic m1) as N1. pose proof (Atoi_no_panic m2) as N2.
  pose proof (Atoi_no_panic m3) as N3. pose proof (Atoi_no_panic m4) as N4.
  destruct (strconv.Atoi m1) as [a|e1|p1]; [|by intros [= ->]|by destruct (N1 p1)].
  cbn [mbind Result_bind].
  destruct (String.length m2) as [|n2]; cbn [app first_error].
  - destruct (strconv.Atoi m3) as [c|e3|p3]; [|by intros [= ->]|by destruct (N3 p3)].
    cbn [mbind Result_bind].
    destruct (String.length m4) as [|n4]; cbn [app first_error]; [done|].
    destruct (strconv.Atoi m4) as [d|e4|p4]; [done|by intros [= ->]|by destruct (N4 p4)].
  - destruct (strconv.Atoi m2) as [b|e2|p2]; [|by intros [= ->]|by destruct (N2 p2)].
    cbn [mbind Result_bind].
    destruct (strconv.Atoi m3) as [c|e3|p3]; [|by intros [= ->]|by destruct (N3 p3)].
    cbn [mbind Result_bind].
    destruct (String.length m4) as [|n4]; cbn [app first_error]; [done|].
    destruct (strconv.Atoi m4) as [d|e4|p4]; [done|by intros [= ->]|by destruct (N4 p4)].
Qed.

Lemma first_error_Some fields e :
  first_error fields = Some e ->
  exists num msg, num ∈ fields /\ e = NumError "Atoi" num msg
                  /\ (msg = strconv.ErrSyntax \/ msg = strconv.ErrRange).
Proof.
  induction fields as [|x fields IH]; [done|]. simpl.
  destruct (strconv.Atoi x) as [v|e'|p] eqn:Hx.
  - intros H. destruct (IH H) as (num & msg & Hin & -> & Hmsg).
    exists num, msg. split_and!; [by right | done | done].
  - intros [= ->]. apply Atoi_Err in Hx as (msg & -> & Hmsg).
    exists x, msg. split_and!; [by left | done | done].
  - intros H. destruct (IH H) as (num & msg & Hin & -> & Hmsg).
    exists num, msg. split_and!; [by right | done | done].
Qed.

Lemma matches_captures_ok P r :
  groups_ok P r ->
  forall s p g s', (p, g, s') ∈ matches r s -> captures_ok P g.
Proof.
  induction r as [q|cls|r1 IH|r1 IH1 r2 IH2|r1 IH1 r2 IH2|i r1 IH]; intros Hok s p g s' Hin;
    cbn [matches] in Hin.
  - destruct (strings.HasPrefix s q); [|by apply elem_of_nil in Hin].
    apply list_elem_of_singleton in Hin. injection Hin as _ -> _. constructor.
  - apply list_elem_of_fmap in Hin as ([p0 s0] & Heq & _). injection Heq as _ -> _. constructor.
  - apply elem_of_app in Hin as [Hin|Hin]; [by eapply IH|].
    apply list_elem_of_singleton in Hin. injection Hin as _ -> _. constructor.
  - destruct Hok as [H1 H2]. apply elem_of_app in Hin as [Hin|Hin]; [by eapply IH1 | by eapply IH2].
  - destruct Hok as [H1 H2].
    apply list_elem_of_In, in_flat_map in Hin as ([[p1 g1] s1] & Hin1 & Hin2).
    apply list_elem_of_In, list_elem_of_fmap in Hin2 as ([[p2 g2] s2] & Heq & Hin2).
    injection Heq as _ -> _. apply Forall_app. split.
    + eapply IH1; [done|]. by apply list_elem_of_In.
    + by eapply IH2.
  - destruct Hok as [Hi H1].
    apply list_elem_of_fmap in Hin as ([[p1 g1] s1] & Heq & Hin). injection Heq as -> -> ->.
    constructor; [by eapply Hi | by eapply IH].
Qed.

Lemma runs_digits s p rest :
  (p, rest) ∈ runs strconv.is_digit s -> all_digits p = true.
Proof.
  revert p rest. induction s as [|c s IH]; intros p rest Hin; cbn [runs] in Hin.
  - by apply elem_of_nil in Hin.
  - destruct (strconv.is_digit c) eqn:Hc; [|by apply elem_of_nil in Hin].
    apply elem_of_app in Hin as [Hin|Hin].
    + apply list_elem_of_fmap in Hin as ([p0 r0] & Heq & Hin). injection Heq as -> ->.
      simpl. rewrite Hc. by eapply IH.
    + apply list_elem_of_singleton in Hin. injection Hin as -> ->. simpl. by rewrite Hc.
Qed.

Lemma group_ok (P : nat -> string -> Prop) g i :
  captures_ok P g -> P i EmptyString -> P i (group g i).
Proof.
  intros Hg H0. induction Hg as [|[j x] g Hx Hg IH]; [done|]. simpl.
  destruct (Nat.eqb_spec i j) as [->|Hij]; [done | exact IH].
Qed.

Lemma hunk_re_groups_ok : groups_ok digit_groups hunk_re.
Proof.
  assert (forall i s p g s',
            (p, g, s') ∈ matches (Plus strconv.is_digit) s -> digit_groups i p) as Hd.
  { intros i s p g s' Hin _. cbn [matches] in Hin.
    apply list_elem_of_fmap in Hin as ([p0 r0] & Heq & Hin). injection Heq as -> _ _.
    by eapply runs_digits. }
  unfold hunk_re. cbn [groups_ok]. split_and!; try done; try apply Hd.
  intros s p g s' _ Hi. lia.
Qed.

Lemma FindStringSubmatch_inv r n s :
  FindStringSubmatch r n s <> [] ->
  exists s0 p g s', (p, g, s') ∈ matches r s0
                    /\ FindStringSubmatch r n s = submatches n p g.
Proof.
  induction s as [|c s IH]; simpl.
  - destruct (matches r EmptyString) as [|[[p g] s'] t] eqn:E; [done|].
    intros _. exists EmptyString, p, g, s'. rewrite E. split; [by left | done].
  - destruct (matches r (String c s)) as [|[[p g] s'] t] eqn:E; [exact IH|].
    intros _. exists (String c s), p, g, s'. rewrite E. split; [by left | done].
Qed.

Lemma numeric_fields_digits l x :
  x ∈ numeric_fields l -> all_digits x = true.
Proof.
  unfold numeric_fields. cbv zeta.
  assert (forall i, 1 <= i <= 4 ->
            all_digits (nth i (FindStringSubmatch hunk_re 5 l) EmptyString) = true) as Hf.
  { intros i Hi.
    destruct (FindStringSubmatch hunk_re 5 l) as [|m0 m] eqn:Hm.
    { by destruct i as [|[|[|[|[|]]]]]. }
    destruct (FindStringSubmatch_inv hunk_re 5 l) as (s0 & p & g & s' & Hin & Heq);
      [by rewrite Hm|].
    rewrite Hm in Heq. rewrite Heq.
    pose proof (matches_captures_ok _ _ hunk_re_groups_ok _ _ _ _ Hin) as Hg.
    assert (forall j, j <= 4 -> all_digits (group g j) = true) as Hgj.
    { intros j Hj. by apply (group_ok digit_groups g j Hg). }
    unfold submatches. cbn [seq map].
    destruct i as [|[|[|[|[|]]]]]; try lia; cbn [nth]; apply Hgj; lia. }
  intros Hin. repeat (apply elem_of_app in Hin as [Hin|Hin]).
  - apply list_elem_of_singleton in Hin as ->. apply Hf. lia.
  - destruct (Nat.ltb 0 _); [|by apply elem_of_nil in Hin].
    apply list_elem_of_singleton in Hin as ->. apply Hf. lia.
  - apply list_elem_of_singleton in Hin as ->. apply Hf. lia.
  - destruct (Nat.ltb 0 _); [|by apply elem_of_nil in Hin].
    apply list_elem_of_singleton in Hin as ->. apply Hf. lia.
Qed.

Lemma occurs_app c a b : occurs c (a +:+ b) = occurs c a || occurs c b.
Proof.
  induction a as [|d a IH]; [done|].
  change (String d a +:+ b) with (String d (a +:+ b)). simpl.
  by rewrite IH, orb_assoc.
Qed.

Lemma Contains_occurs c s sub :
  strings.Contains s sub = true -> occurs c sub = true -> occurs c s = true.
Proof.
  intros Hc Ho. induction s as [|d s IH]; cbn [strings.Contains] in Hc;
    apply orb_true_iff in Hc as [Hp|Hc]; try done.
  - apply HasPrefix_app in Hp as [r Hr]. destruct sub; [exact Ho | discriminate Hr].
  - apply HasPrefix_app in Hp as [r ->]. rewrite occurs_app, Ho. done.
  - simpl. rewrite (IH Hc). apply orb_true_r.
Qed.

Lemma all_digits_no_at x : all_digits x = true -> occurs "@" x = false.
Proof.
  induction x as [|c x IH]; [done|]. cbn [occurs all_digits]. intros H.
  apply andb_true_iff in H as [Hc Hx]. rewrite (IH Hx), orb_false_r.
  destruct (Ascii.eqb_spec "@" c) as [<-|]; [discriminate Hc | done].
Qed.

Lemma Atoi_error_omits_line num msg l :
  all_digits num = true ->
  msg = strconv.ErrSyntax \/ msg = strconv.ErrRange ->
  strings.HasPrefix l "@@ " = true ->
  carries (NumError "Atoi" num msg) l = false.
Proof.
  intros Hnum Hmsg Hl. unfold carries.
  destruct (strings.Contains _ l) eqn:Hc; [|done].
  apply (Contains_occurs "@") in Hc.
  - unfold Error, strconv.Quote in Hc. rewrite !occurs_app in Hc.
    rewrite (all_digits_no_at num Hnum) in Hc. by destruct Hmsg as [-> | ->].
  - apply HasPrefix_app in Hl as [r ->]. reflexivity.
Qed.


Lemma step_hunk_Err lines idx l st e :
  strings.HasPrefix l "@@ " = true ->
  file st <> None ->
  parse_heading l = Err e ->
  step lines idx l st = Err e.
Proof.
  intros Hp Hf He. unfold step. change (inHunk (tick st)) with (inHunk st).
  rewrite (proj2 (classify_CaseHunk (inHunk st) l) Hp).
  unfold case_hunk. change (file (tick st)) with (file st).
  destruct (file st) as [f|]; [|done]. by rewrite He.
Qed.

Lemma Parse_step_Err s j l st e :
  strings.Split s !! j = Some l ->
  state_after s j = Ok st ->
  step (strings.Split s) j l st = Err e ->
  Parse s = Err e.
Proof.
  intros Hl Hst Hs. unfold Parse.
  rewrite (state_after_rest s j), Hst, (drop_S _ _ _ Hl). simpl. by rewrite Hs.
Qed.

(** C5 fails as stated: when a captured number does not fit an [int],
    the error Parse returns is the one of [strconv.Atoi], whose text
    holds the number and not the heading line. *)
Lemma numeric_error_omits_line :
  exists e,
    Parse (unlines ["diff a"; "@@ -99999999999999999999 +1 @@"]) = Err e
    /\ Error e = "strconv.Atoi: parsing " +:+ strconv.Quote "99999999999999999999"
                 +:+ ": value out of range"
    /\ carries e "@@ -99999999999999999999 +1 @@" = false.
Proof. eexists. split_and!; vm_compute; reflexivity. Qed.

(** C5, as the code has it: let a line starting with [@@ ] be reached
    while a file is current.  If it does not match the heading pattern,
    Parse returns the error [Error parsing line: <line>], which carries
    the line.  If it matches and one of the captured numeric fields is
    not an [int], Parse returns the [strconv.Atoi] error of the first
    such field, which names that field and does not carry the line.  In
    both cases no Diff is returned. *)
Theorem malformed_heading_error s j l st :
  strings.Split s !! j = Some l ->
  state_after s j = Ok st ->
  file st <> None ->
  strings.HasPrefix l "@@ " = true ->
  (FindStringSubmatch hunk_re 5 l = [] ->
     Parse s = Err (errorString ("Error parsing line: " +:+ l))
     /\ carries (errorString ("Error parsing line: " +:+ l)) l = true)
  /\ (FindStringSubmatch hunk_re 5 l <> [] ->
      forall e, first_error (numeric_fields l) = Some e ->
        Parse s = Err e
        /\ (exists num msg, num ∈ numeric_fields l /\ e = NumError "Atoi" num msg)
        /\ carries e l = false).
Proof.
  intros Hl Hst Hf Hp. split.
  - intros Hm. split; [|apply Contains_append].
    apply (Parse_step_Err s j l st _ Hl Hst).
    apply step_hunk_Err; [done | done |]. by apply parse_heading_no_match.
  - intros Hm e He.
    destruct (first_error_Some _ _ He) as (num & msg & Hin & -> & Hmsg).
    split_and!.
    + apply (Parse_step_Err s j l st _ Hl Hst).
      apply step_hunk_Err; [done | done |]. by apply parse_heading_first_error.
    + by exists num, msg.
    + apply Atoi_error_omits_line; [by eapply numeric_fields_digits | done | done].
Qed.

Lemma malformed_heading_error_witness :
  (FindStringSubmatch hunk_re 5 "@@ bad @@" = [] ->
     Parse sample_bad = Err (errorString ("Error parsing line: " +:+ "@@ bad @@"))
     /\ carries (errorString ("Error parsing line: " +:+ "@@ bad @@")) "@@ bad @@" = true)
  /\ (FindStringSubmatch hunk_re 5 "@@ bad @@" <> [] ->
      forall e, first_error (numeric_fields "@@ bad @@") = Some e ->
        Parse sample_bad = Err e
        /\ (exists num msg, num ∈ numeric_fields "@@ bad @@" /\ e = NumError "Atoi" num msg)
        /\ carries e "@@ bad @@" = false).
Proof.
  apply (malformed_heading_error sample_bad 3 "@@ bad @@" (state_before sample_bad 3)).
  - vm_compute. reflexivity.
  - vm_compute. reflexivity.
  - vm_compute. discriminate.
  - vm_compute. reflexivity.
Defined.

(** The second case on a concrete input: the length of the new side
    does not fit an [int]. *)
Lemma overflowing_length_error :
  Parse (unlines ["diff a"; "@@ -1,2 +3,99999999999999999999 @@"])
  = Err (NumError "Atoi" "99999999999999999999" strconv.ErrRange)
  /\ first_error (numeric_fields "@@ -1,2 +3,99999999999999999999 @@")
     = Some (NumError "Atoi" "99999999999999999999" strconv.ErrRange).
Proof. split; vm_compute; reflexivity. Qed.

(** * Further properties of the parser *)

(** ** Files, and the text kept in [Raw] *)

Lemma length_diff_headers lines idx rest :
  length (diff_headers lines idx rest) = count_prefix "diff " rest.
Proof.
  unfold count_prefix. revert idx. induction rest as [|l rest IH]; intros idx; [done|].
  cbn [diff_headers]. rewrite length_app, IH, filter_cons.
  destruct (strings.HasPrefix l "diff "); [by rewrite decide_True | by rewrite decide_False].
Qed.

(** X1: a successful parse returns one file for each input line that
    starts with [diff ]. *)
Theorem files_count s h d :
  Parse s = Ok (h, d) ->
  length (files_of d) = count_prefix "diff " (strings.Split s).
Proof.
  intros H. apply Parse_Ok in H as (st & H & -> & ->).
  pose proof (loop_headers _ _ _ _ _ (Split_no_newline s) (drop_0 _) H) as Hh.
  apply (f_equal length) in Hh. unfold headers in Hh.
  rewrite length_map in Hh. rewrite Hh. simpl. apply length_diff_headers.
Qed.

Lemma files_count_witness :
  length (files_of sample_diff) = count_prefix "diff " (strings.Split sample).
Proof.
  apply (files_count sample sample_heap sample_diff). vm_compute. reflexivity.
Defined.

Lemma Raw_store_file f st : Diff.Raw (diff (store_file f st)) = Diff.Raw (diff st).
Proof. reflexivity. Qed.

Lemma step_Raw lines idx l st st' :
  step lines idx l st = Ok st' ->
  Diff.Raw (diff st') = Diff.Raw (diff st)
  /\ Diff.PullID (diff st') = Diff.PullID (diff st).
Proof.
  intros H. step_cases H; try done. by rewrite diff_body_result.
Qed.

(** X2: the Diff a successful parse returns keeps the whole input text
    in [Raw], and leaves [PullID] zero. *)
Theorem Parse_Raw s h d :
  Parse s = Ok (h, d) -> Diff.Raw d = s /\ Diff.PullID d = 0%Z.
Proof.
  intros H. apply Parse_Ok in H as (st & H & -> & ->).
  apply (loop_inv (fun st => Diff.Raw (diff st) = s /\ Diff.PullID (diff st) = 0%Z)
           (strings.Split s)) in H; [done| |done].
  intros idx l st0 st1 [HR HP] Hs. apply step_Raw in Hs as [-> ->]. done.
Qed.

Lemma Parse_Raw_witness :
  Diff.Raw sample_diff = sample /\ Diff.PullID sample_diff = 0%Z.
Proof.
  apply (Parse_Raw sample sample_heap sample_diff). vm_compute. reflexivity.
Defined.

(** ** Unrecognised line modes *)

Lemma lineMode_Err l :
  l <> EmptyString ->
  strings.HasPrefix l " " = false ->
  strings.HasPrefix l "+" = false ->
  strings.HasPrefix l "-" = false ->
  lineMode l = Err (line_mode_error l).
Proof.
  destruct l as [|c l]; [done|]. intros _. rewrite !HasPrefix_cons, !andb_true_r.
  intros Hs Hp Hm. unfold lineMode, strings.slice_to. simpl.
  rewrite (Ascii.eqb_sym c " "), (Ascii.eqb_sym c "+"), (Ascii.eqb_sym c "-").
  by rewrite Hs, Hp, Hm.
Qed.

Lemma classify_CaseBody b l :
  classify b l = CaseBody -> b = true /\ isSourceLine l = true /\ l <> EmptyString.
Proof.
  unfold classify.
  repeat match goal with |- context [if ?c then _ else _] => destruct c eqn:? end;
    try done.
  intros _. match goal with H : _ && _ = true |- _ => apply andb_true_iff in H as [-> Hs] end.
  split_and!; try done. by intros ->.
Qed.

Lemma Contains_middle p l q : strings.Contains (p +:+ l +:+ q) l = true.
Proof.
  induction p as [|c p IH].
  - change (EmptyString +:+ l +:+ q) with (l +:+ q).
    destruct l as [|a l]; [by destruct q|].
    change (String a l +:+ q) with (String a (l +:+ q)). cbn [strings.Contains].
    by rewrite HasPrefix_cons, Ascii.eqb_refl, HasPrefix_append.
  - change (String c p +:+ l +:+ q) with (String c (p +:+ l +:+ q)).
    cbn [strings.Contains]. rewrite IH. apply orb_true_r.
Qed.

(** X3: when a line reaches the body case of a hunk and starts with
    none of space, [+] and [-], Parse returns the error
    [could not parse line mode for line: "<line>"], which carries the
    line, and no Diff. *)
Theorem unknown_line_mode_error s j l st :
  strings.Split s !! j = Some l ->
  state_after s j = Ok st ->
  classify (inHunk st) l = CaseBody ->
  strings.HasPrefix l " " = false ->
  strings.HasPrefix l "+" = false ->
  strings.HasPrefix l "-" = false ->
  Parse s = Err (line_mode_error l) /\ carries (line_mode_error l) l = true.
Proof.
  intros Hl Hst Hc Hs Hp Hm. split.
  - apply (Parse_step_Err s j l st _ Hl Hst). unfold step.
    change (inHunk (tick st)) with (inHunk st). rewrite Hc. unfold case_body.
    apply classify_CaseBody in Hc as (_ & _ & Hne).
    by rewrite (lineMode_Err l Hne Hs Hp Hm).
  - unfold carries, line_mode_error, Error.
    apply (Contains_middle ("could not parse line mode for line: " +:+ strings.dquote)
             l strings.dquote).
Qed.

Lemma unknown_line_mode_error_witness :
  Parse sample_mode = Err (line_mode_error "xyz")
  /\ carries (line_mode_error "xyz") "xyz" = true.
Proof.
  apply (unknown_line_mode_error sample_mode 2 "xyz" (state_before sample_mode 2));
    vm_compute; reflexivity.
Defined.

(** ** [addFile] and [Changed] *)

Lemma foldM_app {A B} (body : B -> A -> Result B) (xs ys : list A) (acc : B) :
  foldM body (xs ++ ys) acc = foldM body xs acc ≫= foldM body ys.
Proof.
  revert acc. induction xs as [|x xs IH]; intros acc; [done|].
  simpl. destruct (body acc x) as [acc'| |]; simpl; [apply IH | done | done].
Qed.

(** X4: [Changed] after [addFile] is [Changed] of the Diff as it was,
    followed by the lines of the added file; adding a Deleted file
    leaves the result of [Changed] as it was, whatever the file holds. *)
Theorem Changed_addFile h d f :
  Changed h (addFile d f) = Changed h d ≫= (fun m => Changed_file h m f)
  /\ (DiffFile.Mode f = Deleted -> Changed h (addFile d f) = Changed h d).
Proof.
  assert (Changed h (addFile d f) = Changed h d ≫= (fun m => Changed_file h m f)) as H.
  { unfold Changed, addFile. simpl. rewrite foldM_app.
    destruct (foldM (Changed_file h) (slice.elems (Diff.Files d)) ∅) as [m| |]; simpl;
      [|done..].
    by destruct (Changed_file h m f). }
  split; [done|]. intros Hm. rewrite H.
  destruct (Changed h d) as [m| |]; simpl; [|done..].
  unfold Changed_file. by rewrite decide_True.
Qed.

Lemma Changed_addFile_witness :
  Changed sample_heap (addFile sample_diff deleted_file) = Changed sample_heap sample_diff.
Proof.
  apply (proj2 (Changed_addFile sample_heap sample_diff deleted_file)). reflexivity.
Defined.

(** ** The only panics *)

Lemma snoc_not_nil {A} (l : list A) (x : A) : l ++ [x] <> [].
Proof. by destruct l. Qed.

Lemma step_pointers_set lines idx l st st' :
  pointers_set st -> step lines idx l st = Ok st' -> pointers_set st'.
Proof.
  intros [Hh Hn] H. step_cases H; unfold pointers_set.
  - split; [done|]. intros _. unfold files_of. simpl. apply snoc_not_nil.
  - pose proof (files_store_file (tick st) F f (upd f) HF) as HF'.
    split; [|intros _; rewrite HF'; apply snoc_not_nil].
    intros Hin. destruct (Hh Hin) as (F0 & f0 & C0 & c0 & HF0 & HC0).
    rewrite HF in HF0. apply app_inj_tail in HF0 as [_ <-].
    exists F, (upd f), C0, c0. split; [done|].
    unfold chunks_of in *. by rewrite (proj2 (Hupd f)).
  - cbn [diff inHunk].
    match goal with |- context [store_file ?g _] =>
      pose proof (files_store_file st F f g HF) as HF' end.
    split; [|intros _; rewrite HF'; apply snoc_not_nil].
    intros _. eexists F, _, (chunks_of f), _. split; [exact HF' | done].
  - rewrite diff_body_result.
    match goal with |- context [store_file ?g _] =>
      pose proof (files_store_file (tick st) F f g HF) as HF' end.
    split; [|intros _; rewrite HF'; apply snoc_not_nil].
    intros _. eexists F, _, C, _. split; [exact HF'|].
    by apply (chunks_store_hunk f C c).
  - done.
Qed.

Lemma init_pointers_set s : pointers_set (init s).
Proof. by split. Qed.

Lemma state_after_pointers_set s k st : state_after s k = Ok st -> pointers_set st.
Proof.
  apply (loop_inv pointers_set); [|apply init_pointers_set].
  intros idx l st0 st1. apply step_pointers_set.
Qed.

Lemma parse_heading_no_panic l p : parse_heading l <> Panic p.
Proof.
  unfold parse_heading.
  destruct (length_FindStringSubmatch hunk_re 5 l) as [H|H]; [by rewrite H|].
  destruct (FindStringSubmatch hunk_re 5 l) as [|m0 [|m1 [|m2 [|m3 [|m4 [|m5 [|? ?]]]]]]];
    try discriminate.
  clear H. cbn [length Nat.ltb Nat.leb index lookup list_lookup mbind Result_bind].
  pose proof (Atoi_no_panic m1) as N1. pose proof (Atoi_no_panic m2) as N2.
  pose proof (Atoi_no_panic m3) as N3. pose proof (Atoi_no_panic m4) as N4.
  destruct (strconv.Atoi m1) as [a|e1|p1]; [|done|by destruct (N1 p1)].
  cbn [mbind Result_bind].
  destruct (String.length m2) as [|n2].
  - destruct (strconv.Atoi m3) as [c|e3|p3]; [|done|by destruct (N3 p3)].
    cbn [mbind Result_bind].
    destruct (String.length m4) as [|n4]; [done|].
    by destruct (strconv.Atoi m4) as [d|e4|p4]; [| |destruct (N4 p4)].
  - destruct (strconv.Atoi m2) as [b|e2|p2]; [|done|by destruct (N2 p2)].
    cbn [mbind Result_bind].
    destruct (strconv.Atoi m3) as [c|e3|p3]; [|done|by destruct (N3 p3)].
    cbn [mbind Result_bind].
    destruct (String.length m4) as [|n4]; [done|].
    by destruct (strconv.Atoi m4) as [d|e4|p4]; [| |destruct (N4 p4)].
Qed.

Lemma file_None st : file st = None -> files_of (diff st) = [].
Proof.
  unfold file, slice.current, files_of. intros H. apply last_None in H. done.
Qed.

(** An iteration panics in two ways only. *)
Lemma step_Panic lines idx l st p :
  pointers_set st ->
  step lines idx l st = Panic p ->
  (p = NilDereference /\ file st = None /\ inHunk st = false
   /\ classify false l ∈ file_cases)
  \/ (p = SliceBounds /\ classify (inHunk st) l = CaseBody /\ (l = "+" \/ l = "-")).
Proof.
  intros [Hh Hn]. unfold step. change (inHunk (tick st)) with (inHunk st).
  assert (file st = None -> inHunk st = false) as Hfn.
  { intros Hf. destruct (inHunk st) eqn:Hin; [|done].
    destruct (Hh eq_refl) as (F & f & C & c & HF & _).
    apply file_None in Hf. rewrite HF in Hf. by destruct F. }
  assert (forall upd, with_file upd (tick st) = Panic p ->
            p = NilDereference /\ file st = None) as Hwf.
  { intros upd. unfold with_file. change (file (tick st)) with (file st).
    destruct (file st); [done | by intros [= <-]]. }
  destruct (classify (inHunk st) l) eqn:Hc; try done.
  1-4: intros H; apply Hwf in H as [-> Hf]; left;
       rewrite (Hfn Hf) in Hc; rewrite Hc; unfold file_cases;
       split_and!; try done; try by apply Hfn.
  1-4: repeat (first [by left | right]).
  - unfold case_hunk. change (file (tick st)) with (file st).
    destruct (file st) as [f|] eqn:Hf.
    + destruct (parse_heading l) as [[[[[a b] c] d] hd]|e|p'] eqn:Hp; try done.
      by destruct (parse_heading_no_panic l p').
    + intros [= <-]. left. rewrite (Hfn eq_refl) in Hc. rewrite Hc.
      split_and!; try done; [by apply Hfn|]. unfold file_cases. repeat (first [by left | right]).
  - pose proof (classify_CaseBody _ _ Hc) as (Hin & _ & Hne).
    destruct (Hh Hin) as (F & f & C & c & HF & HC).
    unfold case_body. change (file (tick st)) with (file st).
    change (hunk (tick st)) with (hunk st).
    rewrite (file_snoc _ _ _ HF), (hunk_snoc _ _ _ _ _ HF HC).
    destruct (lineMode l) as [m|e|p'] eqn:Hm.
    + apply lineMode_Ok in Hm as [r ->]. cbn [mbind Result_bind].
      unfold strings.slice_from. cbn [String.length Nat.leb strings.drop mbind Result_bind].
      destruct m; try done.
      * destruct r as [|x r]; [intros [= <-]; right; split_and!; [done..|by left] | done].
      * destruct r as [|x r]; [intros [= <-]; right; split_and!; [done..|by right] | done].
    + done.
    + destruct l as [|a l]; [done|]. unfold lineMode, strings.slice_to in Hm.
      cbn [String.length Nat.leb strings.take mbind Result_bind] in Hm.
      repeat match type of Hm with (if ?c then _ else _) = _ => destruct c end;
        discriminate Hm.
Qed.

(** The first iteration that does not succeed. *)
Lemma loop_Panic lines rest idx st p :
  loop lines idx rest st = Panic p ->
  exists k l st_k,
    rest !! k = Some l
    /\ loop lines idx (take k rest) st = Ok st_k
    /\ step lines (idx + k) l st_k = Panic p.
Proof.
  revert idx st. induction rest as [|l rest IH]; intros idx st H; [done|].
  simpl in H. destruct (step lines idx l st) as [st1| |p1] eqn:Hs; simpl in H; [|done|].
  - destruct (IH _ _ H) as (k & l' & st_k & Hl' & Hk & Hp).
    exists (S k), l', st_k. split; [done|]. split.
    + simpl. by rewrite Hs.
    + by replace (idx + S k) with (S idx + k) by lia.
  - injection H as ->. exists 0, l, st. rewrite Nat.add_0_r. done.
Qed.

(** X5: Parse panics in two ways only, each at a line [j] that is
    reached after the lines before it were processed without failure.
    With a nil pointer dereference, at a line that assigns through
    [file] ([+++ /dev/null], [--- /dev/null], a path line or a hunk
    heading) when no earlier line starts with [diff ]; and with a slice
    bounds error, at a line that is taken as a body line of a hunk and
    is a lone [+] or [-].  It never panics on an index. *)
Theorem Parse_Panic_cases s p :
  Parse s = Panic p ->
  exists j l st,
    strings.Split s !! j = Some l
    /\ state_after s j = Ok st
    /\ ((p = NilDereference
         /\ Forall (fun x => strings.HasPrefix x "diff " = false) (take j (strings.Split s))
         /\ classify false l ∈ file_cases)
        \/ (p = SliceBounds
            /\ classify (inHunk st) l = CaseBody
            /\ (l = "+" \/ l = "-"))).
Proof.
  unfold Parse. intros H.
  destruct (loop (strings.Split s) 0 (strings.Split s) (init s)) as [st| |p'] eqn:Hloop;
    simpl in H; try done. injection H as ->.
  destruct (loop_Panic _ _ _ _ _ Hloop) as (j & l & st & Hl & Hst & Hs).
  exists j, l, st. split; [done|]. split; [done|].
  apply step_Panic in Hs; [|by apply (state_after_pointers_set s j)].
  destruct Hs as [(-> & Hf & Hin & Hc)|Hs]; [left|by right].
  split_and!; try done.
  pose proof (loop_is_nil _ _ _ _ _ Hst) as Hnil.
  change (slice.is_nil (Diff.Files (diff (init s)))) with true in Hnil.
  rewrite andb_true_l in Hnil.
  apply file_None in Hf.
  assert (slice.is_nil (Diff.Files (diff st)) = true) as Ht.
  { destruct (slice.is_nil (Diff.Files (diff st))) eqn:E; [done|].
    by destruct (proj2 (state_after_pointers_set s j st Hst) E). }
  rewrite Ht in Hnil. symmetry in Hnil.
  apply Forall_forall. intros x Hx. apply list_elem_of_In in Hx.
  apply (proj1 (forallb_forall _ _) Hnil) in Hx. by apply negb_true_iff in Hx.
Qed.

Lemma Parse_Panic_cases_witness :
  exists j l st,
    strings.Split sample_lone !! j = Some l
    /\ state_after sample_lone j = Ok st
    /\ ((SliceBounds = NilDereference
         /\ Forall (fun x => strings.HasPrefix x "diff " = false)
                   (take j (strings.Split sample_lone))
         /\ classify false l ∈ file_cases)
        \/ (SliceBounds = SliceBounds
            /\ classify (inHunk st) l = CaseBody
            /\ (l = "+" \/ l = "-"))).
Proof.
  apply (Parse_Panic_cases sample_lone SliceBounds). vm_compute. reflexivity.
Defined.

(** ** Hunks and their headings *)

Lemma heading_fields_add_line m n c : heading_fields (add_line m n c) = heading_fields c.
Proof. by destruct m. Qed.

Lemma chunk_ext_fields c c' : chunk_ext c c' -> heading_fields c' = heading_fields c.
Proof.
  intros (Hh & (HoS & HoL & _) & (HnS & HnL & _) & _). unfold heading_fields.
  by rewrite Hh, HoS, HoL, HnS, HnL.
Qed.

Lemma lines_with_cons p l rest :
  lines_with p (l :: rest) =
  (if strings.HasPrefix l p then [l] else []) ++ lines_with p rest.
Proof.
  unfold lines_with. rewrite filter_cons.
  destruct (strings.HasPrefix l p); [by rewrite decide_True | by rewrite decide_False].
Qed.

Lemma step_heading_fields lines idx l st st' :
  step lines idx l st = Ok st' ->
  map (fun c => Ok (heading_fields c)) (all_chunks (diff st')) =
  map (fun c => Ok (heading_fields c)) (all_chunks (diff st))
  ++ (if strings.HasPrefix l "@@ " then [parse_heading l] else []).
Proof.
  intros H. apply step_chunks in H.
  destruct H as [_ Hn _ Hall|a b c d hd Hc Hp _ Hall|A c m f Hc _ _ _ _ Hall Hall' _].
  - rewrite (classify_not_CaseHunk _ _ Hn), Hall. by rewrite app_nil_r.
  - apply classify_CaseHunk in Hc. rewrite Hc, Hall, map_app, Hp. done.
  - rewrite (classify_not_CaseHunk (inHunk st) l) by congruence.
    rewrite Hall, Hall', app_nil_r, !map_app. cbn [map].
    by rewrite heading_fields_add_line.
Qed.

Lemma loop_heading_fields lines rest idx st st' :
  loop lines idx rest st = Ok st' ->
  map (fun c => Ok (heading_fields c)) (all_chunks (diff st')) =
  map (fun c => Ok (heading_fields c)) (all_chunks (diff st))
  ++ map parse_heading (lines_with "@@ " rest).
Proof.
  revert idx st. induction rest as [|l rest IH]; intros idx st H.
  - injection H as <-. by rewrite app_nil_r.
  - simpl in H. apply bind_Ok in H as (st1 & H1 & H2).
    rewrite (IH _ _ H2), (step_heading_fields _ _ _ _ _ H1), lines_with_cons, map_app.
    rewrite <- app_assoc. by destruct (strings.HasPrefix l "@@ ").
Qed.

(** X6: a successful parse returns one hunk for each input line that
    starts with [@@ ], in input order over all files, and the hunk
    holds the starts, the lengths and the free text read from that
    line, as first stored. *)
Theorem hunk_headings s h d :
  Parse s = Ok (h, d) ->
  map (fun c => Ok (heading_fields c)) (all_chunks d)
  = map parse_heading (lines_with "@@ " (strings.Split s)).
Proof.
  intros H. apply Parse_Ok in H as (st & H & -> & ->).
  apply (loop_heading_fields _ _ _ _ _ H).
Qed.

Lemma hunk_headings_witness :
  map (fun c => Ok (heading_fields c)) (all_chunks sample_diff)
  = map parse_heading (lines_with "@@ " (strings.Split sample)).
Proof.
  apply (hunk_headings sample sample_heap sample_diff). vm_compute. reflexivity.
Defined.

(** The hunk a heading line starts, in the returned Diff. *)
Lemma heading_chunk s h d j l st :
  Parse s = Ok (h, d) ->
  strings.Split s !! j = Some l ->
  state_after s j = Ok st ->
  strings.HasPrefix l "@@ " = true ->
  exists c,
    all_chunks d !! length (all_chunks (diff st)) = Some c
    /\ parse_heading l = Ok (heading_fields c).
Proof.
  intros HP Hl Hst Hp.
  destruct (Parse_Ok_state_after s h d (S j) HP) as (st' & fin & Hst' & Hfin & -> & ->).
  pose proof Hst' as Hstep. rewrite (state_after_S _ _ _ Hl), Hst in Hstep.
  simpl in Hstep. apply step_chunks in Hstep.
  apply (classify_CaseHunk (inHunk st)) in Hp.
  destruct Hstep as [_ Hn _ _|a b c0 d0 hd _ Hph _ Hall|? ? ? ? Hn _ _ _ _ _ _ _];
    [congruence| |congruence].
  apply loop_extends in Hfin as (_ & Hch & _).
  destruct (Hch (length (all_chunks (diff st)))
              (DiffChunk.mk hd (DiffRange.mk a b slice.nil)
                            (DiffRange.mk c0 d0 slice.nil) DiffRange.zero))
    as (c & Hc & Hext).
  { rewrite Hall. by apply list_lookup_middle. }
  exists c. split; [done|]. by rewrite (chunk_ext_fields _ _ Hext).
Qed.

(** X7: in a successfully parsed input, the hunk started by a heading
    [@@ -A[,B] +C[,D] @@tail] has as ChunkHeader the text after the
    second [@@], less one leading space when there is one; it is empty
    when nothing, or only one space, follows. *)
Theorem chunk_header_text s h d j st A oB C oD tail :
  Parse s = Ok (h, d) ->
  strings.Split s !! j = Some (heading_text A oB C oD tail) ->
  state_after s j = Ok st ->
  is_number A -> opt_number oB -> is_number C -> opt_number oD ->
  exists c,
    all_chunks d !! length (all_chunks (diff st)) = Some c
    /\ DiffChunk.ChunkHeader c = trim_space tail.
Proof.
  intros HP Hl Hst HA HB HC HD.
  destruct (heading_chunk s h d j _ st HP Hl Hst) as (c & Hc & Hp); [done|].
  exists c. split; [done|].
  assert (no_newline tail = true) as Hnl.
  { pose proof (proj1 (Forall_forall _ _) (Split_no_newline s) _
                  (list_elem_of_lookup_2 _ _ _ Hl)) as Hn.
    unfold heading_text in Hn. rewrite !no_newline_app, !andb_true_iff in Hn.
    tauto. }
  rewrite (parse_heading_text A oB C oD tail HA HB HC HD Hnl) in Hp.
  apply bind_Ok in Hp as (a' & Ha & Hp).
  apply bind_Ok in Hp as (b' & Hb & Hp).
  apply bind_Ok in Hp as (c' & Hc' & Hp).
  apply bind_Ok in Hp as (d' & Hd & Hp).
  unfold heading_fields in Hp. by injection Hp as _ _ _ _ <-.
Qed.

Lemma chunk_header_text_witness :
  exists c,
    all_chunks sample_short_diff
      !! length (all_chunks (diff (state_before sample_short 1))) = Some c
    /\ DiffChunk.ChunkHeader c = trim_space " ctx".
Proof.
  apply (chunk_header_text sample_short sample_short_heap sample_short_diff 1
           (state_before sample_short 1) "5" None "7" (Some "2") " ctx").
  - vm_compute. reflexivity.
  - vm_compute. reflexivity.
  - vm_compute. reflexivity.
  - split; [discriminate | reflexivity].
  - exact I.
  - split; [discriminate | reflexivity].
  - split; [discriminate | reflexivity].
Defined.

(** ** Line numbers *)

Lemma wrap_incr x : int.wrap (int.wrap x + 1) = int.wrap (x + 1).
Proof.
  unfold int.wrap.
  replace ((x + 2 ^ 63) mod 2 ^ 64 - 2 ^ 63 + 1 + 2 ^ 63)%Z
    with ((x + 2 ^ 63) mod 2 ^ 64 + 1)%Z by lia.
  rewrite Zplus_mod_idemp_l. f_equal. f_equal. lia.
Qed.

Lemma wrap_in_range z : int.in_range z = true -> int.wrap z = z.
Proof.
  unfold int.in_range, int.min, int.max, int.wrap. intros H.
  apply andb_true_iff in H as [H1 H2]. apply Z.leb_le in H1, H2.
  rewrite Z.mod_small by lia. lia.
Qed.

Lemma iter_incr i z :
  int.in_range z = true -> Nat.iter i int.incr z = int.wrap (z + Z.of_nat i).
Proof.
  intros Hz. induction i as [|i IH].
  - simpl. by rewrite Z.add_0_r, wrap_in_range.
  - rewrite Nat.iter_succ, IH. unfold int.incr. rewrite wrap_incr. f_equal. lia.
Qed.

Lemma Atoi_in_range x v : strconv.Atoi x = Ok v -> int.in_range v = true.
Proof.
  unfold strconv.Atoi.
  destruct (match x with
            | String "-"%char r => (true, r)
            | String "+"%char r => (false, r)
            | _ => (false, x)
            end) as [neg body].
  destruct body as [|c body]; [done|].
  destruct (strconv.digits 0 (String c body)) as [v0|]; [|done].
  destruct (int.in_range _) eqn:E; [by intros [= <-] | done].
Qed.

Lemma parse_heading_in_range l a b c d hd :
  parse_heading l = Ok (a, b, c, d, hd) ->
  int.in_range a = true /\ int.in_range c = true.
Proof.
  unfold parse_heading. destruct (Nat.ltb _ 5); [done|]. intros H.
  apply bind_Ok in H as (m1 & _ & H). apply bind_Ok in H as (a' & Ha & H).
  apply bind_Ok in H as (m2 & _ & H). apply bind_Ok in H as (b' & _ & H).
  apply bind_Ok in H as (m3 & _ & H). apply bind_Ok in H as (c' & Hc & H).
  apply bind_Ok in H as (m4 & _ & H). apply bind_Ok in H as (d' & _ & H).
  apply bind_Ok in H as (m5 & _ & H). injection H as <- _ <- _ _.
  split; by eapply Atoi_in_range.
Qed.

Lemma numbered_mono h ext r : numbered h r -> numbered (h ++ ext) r.
Proof.
  intros H i p Hp. destruct (H i p Hp) as (dl & Hdl & Hn).
  exists dl. split; [by apply lookup_app_l_Some | done].
Qed.

Lemma numbered_add h r p dl cnt :
  numbered h r -> counts r cnt ->
  h !! p = Some dl -> DiffLine.Number dl = cnt ->
  numbered h (DiffRange.add_line r p).
Proof.
  intros H Hc Hdl Hn i q Hq. rewrite lines_of_add in Hq.
  apply lookup_app_Some in Hq as [Hq|[Hi Hq]]; [by apply H|].
  apply list_lookup_singleton_Some in Hq as [Hi' <-].
  exists dl. split; [done|]. rewrite Hn, Hc. simpl. f_equal. lia.
Qed.

Lemma counts_add r p cnt :
  counts r cnt -> counts (DiffRange.add_line r p) (int.incr cnt).
Proof.
  unfold counts. intros ->. rewrite lines_of_add, length_app, Nat.add_1_r. done.
Qed.

(** The line counters and the hunk flag after an iteration that is
    neither a heading nor a body line. *)
Lemma step_registers lines idx l st st' :
  step lines idx l st = Ok st' ->
  classify (inHunk st) l <> CaseBody ->
  (classify (inHunk st) l = CaseHunk ->
     exists a b c d hd, parse_heading l = Ok (a, b, c, d, hd)
                        /\ AddedCount st' = c /\ RemovedCount st' = a
                        /\ inHunk st' = true)
  /\ (classify (inHunk st) l <> CaseHunk ->
      AddedCount st' = AddedCount st /\ RemovedCount st' = RemovedCount st
      /\ (inHunk st' = true -> inHunk st = true)).
Proof.
  intros H Hnb. step_cases H.
  - split; [congruence | done].
  - split; [congruence | done].
  - split; [|congruence]. intros _. by exists a, b, c, d, hd.
  - congruence.
  - split; [congruence | done].
Qed.

Lemma step_numbering lines idx l st st' :
  numbering st -> step lines idx l st = Ok st' -> numbering st'.
Proof.
  intros [Hall Hcur] H. pose proof (step_chunks _ _ _ _ _ H) as Hce.
  destruct Hce as [Hnb Hnh Hh Hch|a b c d hd Hc Hp Hh Hch|A c m f Hc Hm Hlen _ _ Hch Hch' Hst'].
  - destruct (step_registers _ _ _ _ _ H Hnb) as [_ Hr].
    destruct (Hr Hnh) as (HA & HR & Hin). split.
    + intros x Hx. rewrite Hh. rewrite Hch in Hx. by apply Hall.
    + intros Hin'. rewrite Hch, HA, HR. by apply Hcur, Hin.
  - assert (classify (inHunk st) l <> CaseBody) as Hnb by congruence.
    destruct (step_registers _ _ _ _ _ H Hnb) as [Hr _].
    destruct (Hr Hc) as (a' & b' & c' & d' & hd' & Hp' & HA & HR & Hin).
    rewrite Hp in Hp'. injection Hp' as <- <- <- <- <-. split.
    + intros x Hx. rewrite Hh. rewrite Hch in Hx. apply elem_of_app in Hx as [Hx|Hx].
      * by apply Hall.
      * apply list_elem_of_singleton in Hx as ->. split; intros i p Hp0; done.
    + intros _. eexists _, _. split; [exact Hch|]. by rewrite HA, HR.
  - apply classify_CaseBody in Hc as (Hin & _ & _).
    destruct (Hcur Hin) as (A0 & c0 & HA0 & Hcn & Hco).
    rewrite Hch in HA0. apply app_inj_tail in HA0 as [<- <-].
    destruct (Hall c) as [Hn Ho]; [rewrite Hch; apply elem_of_app; right; by left|].
    subst st'. split.
    + intros x Hx. rewrite Hch' in Hx. apply elem_of_app in Hx as [Hx|Hx].
      * destruct (Hall x) as [Hxn Hxo]; [rewrite Hch; apply elem_of_app; by left|].
        destruct m; split; by apply numbered_mono.
      * apply list_elem_of_singleton in Hx as ->.
        destruct m; cbn [add_line add_Added add_Removed add_Unchanged
                         DiffChunk.NewRange DiffChunk.OrigRange body_result heap tick].
        -- split; [|by apply numbered_mono].
           eapply numbered_add;
             [by apply numbered_mono | exact Hcn
             | by rewrite lookup_app_r, Nat.sub_diag by lia | done].
        -- split; [by apply numbered_mono|].
           eapply numbered_add;
             [by apply numbered_mono | exact Hco
             | by rewrite lookup_app_r, Nat.sub_diag by lia | done].
        -- split.
           ++ eapply numbered_add;
                [by apply numbered_mono | exact Hcn
                | by rewrite lookup_app_r, Nat.sub_diag by lia | done].
           ++ eapply numbered_add;
                [by apply numbered_mono | exact Hco
                | rewrite lookup_app_r by lia;
                  by replace (S (length (heap st)) - length (heap st)) with 1 by lia
                | done].
    + intros _. exists A, (add_line m (length (heap st)) c). split; [done|].
      destruct m; cbn [add_line add_Added add_Removed add_Unchanged
                       DiffChunk.NewRange DiffChunk.OrigRange body_result
                       AddedCount RemovedCount tick];
        split; try done; by apply counts_add.
Qed.

Lemma init_numbering s : numbering (init s).
Proof. split; [|done]. intros c Hc. by apply elem_of_nil in Hc. Qed.

(** X8: in the Diff of a successful parse, the records of each hunk's
    NewRange are numbered from the new start on and the records of its
    OrigRange from the orig start on, each one more than the one before
    it (with the wrap-around of [int]). *)
Theorem line_numbers s h d c :
  Parse s = Ok (h, d) ->
  c ∈ all_chunks d ->
  (forall i p, lines_of (DiffChunk.NewRange c) !! i = Some p ->
     exists dl, h !! p = Some dl
       /\ DiffLine.Number dl
          = int.wrap (DiffRange.Start (DiffChunk.NewRange c) + Z.of_nat i))
  /\ (forall i p, lines_of (DiffChunk.OrigRange c) !! i = Some p ->
        exists dl, h !! p = Some dl
          /\ DiffLine.Number dl
             = int.wrap (DiffRange.Start (DiffChunk.OrigRange c) + Z.of_nat i)).
Proof.
  intros HP Hc. apply Parse_Ok in HP as (st & H & -> & ->).
  pose proof (loop_heading_fields _ _ _ _ _ H) as Hf. simpl in Hf.
  assert (exists l, parse_heading l = Ok (heading_fields c)) as [l Hl].
  { assert (Ok (heading_fields c)
              ∈ map (fun c => Ok (heading_fields c)) (all_chunks (diff st))) as Hin.
    { apply list_elem_of_fmap. by exists c. }
    rewrite Hf in Hin. apply list_elem_of_fmap in Hin as (l & Heq & _). by exists l. }
  apply parse_heading_in_range in Hl as [Ho Hn].
  apply (loop_inv numbering (strings.Split s)) in H;
    [|intros idx l0 st0 st1; apply step_numbering | apply init_numbering].
  destruct H as [Hall _]. destruct (Hall c Hc) as [HN HO].
  split; intros i p Hp; [destruct (HN i p Hp) as (dl & Hdl & Hnum)
                        |destruct (HO i p Hp) as (dl & Hdl & Hnum)];
    exists dl; (split; [done|]); rewrite Hnum; by apply iter_incr.
Qed.

Lemma line_numbers_witness :
  (forall i p, lines_of (DiffChunk.NewRange sample_chunk) !! i = Some p ->
     exists dl, sample_heap !! p = Some dl
       /\ DiffLine.Number dl
          = int.wrap (DiffRange.Start (DiffChunk.NewRange sample_chunk) + Z.of_nat i))
  /\ (forall i p, lines_of (DiffChunk.OrigRange sample_chunk) !! i = Some p ->
        exists dl, sample_heap !! p = Some dl
          /\ DiffLine.Number dl
             = int.wrap (DiffRange.Start (DiffChunk.OrigRange sample_chunk) + Z.of_nat i)).
Proof.
  apply (line_numbers sample sample_heap sample_diff sample_chunk).
  - vm_compute. reflexivity.
  - vm_compute. left.
Defined.

(** ** The three ranges of a hunk *)

Lemma filter_ext_in {A} (P Q : A -> Prop) `{forall x, Decision (P x)}
    `{forall x, Decision (Q x)} (l : list A) :
  Forall (fun x => P x <-> Q x) l -> filter P l = filter Q l.
Proof.
  induction 1 as [|x l Hx Hl IH]; [done|].
  rewrite !filter_cons, IH.
  destruct (decide (P x)) as [HP|HP], (decide (Q x)) as [HQ|HQ]; tauto.
Qed.

Lemma is_removed_app h ext p : p < length h -> is_removed (h ++ ext) p = is_removed h p.
Proof. intros Hp. unfold is_removed. by rewrite lookup_app_l. Qed.

Lemma mode_in_app h ext ms p : mode_in h ms p -> mode_in (h ++ ext) ms p.
Proof.
  intros (dl & Hdl & Hm). exists dl. split; [by apply lookup_app_l_Some | done].
Qed.

Lemma mode_in_lt h ms p : mode_in h ms p -> p < length h.
Proof. intros (dl & Hdl & _). by eapply lookup_lt_Some. Qed.

Lemma ranges_agree_app h ext c :
  (forall p, p ∈ chunk_ptrs c -> p < length h) ->
  ranges_agree h c -> ranges_agree (h ++ ext) c.
Proof.
  intros Hv (HN & HO & HW & HR).
  assert (forall (ps : list ptr) (b : bool),
            (forall p, p ∈ ps -> p < length h) ->
            filter (fun p => is_removed (h ++ ext) p = b) ps
            = filter (fun p => is_removed h p = b) ps) as Hf.
  { intros ps b Hps. apply filter_ext_in, Forall_forall. intros p Hp.
    by rewrite is_removed_app by by apply Hps. }
  split_and!.
  - eapply Forall_impl; [exact HN|]. intros p. apply mode_in_app.
  - eapply Forall_impl; [exact HO|]. intros p. apply mode_in_app.
  - rewrite Hf; [done|]. intros p Hp. apply Hv. unfold chunk_ptrs.
    rewrite !elem_of_app. auto.
  - rewrite !Hf; [done| |].
    + intros p Hp. apply Hv. unfold chunk_ptrs. rewrite !elem_of_app. auto.
    + intros p Hp. apply Hv. unfold chunk_ptrs. rewrite !elem_of_app. auto.
Qed.

Lemma is_removed_new h dl ext :
  is_removed (h ++ dl :: ext) (length h) = bool_decide (DiffLine.Mode dl = Removed).
Proof. unfold is_removed. by rewrite list_lookup_middle. Qed.

Lemma filter_snoc {A} (P : A -> Prop) `{forall x, Decision (P x)} (l : list A) (x : A) :
  filter P (l ++ [x]) = filter P l ++ (if decide (P x) then [x] else []).
Proof.
  rewrite filter_app, filter_cons, filter_nil. by destruct (decide (P x)).
Qed.

Lemma is_removed_next h a dl :
  is_removed (h ++ [a; dl]) (S (length h)) = bool_decide (DiffLine.Mode dl = Removed).
Proof.
  unfold is_removed.
  by rewrite (lookup_app_r h), Nat.sub_succ_l, Nat.sub_diag by lia.
Qed.

Lemma mode_in_new h dl ext ms :
  DiffLine.Mode dl ∈ ms -> mode_in (h ++ dl :: ext) ms (length h).
Proof. intros Hm. exists dl. split; [by apply list_lookup_middle | done]. Qed.

Lemma mode_in_next h a dl ms :
  DiffLine.Mode dl ∈ ms -> mode_in (h ++ [a; dl]) ms (S (length h)).
Proof.
  intros Hm. exists dl. split; [|done].
  by rewrite (lookup_app_r h), Nat.sub_succ_l, Nat.sub_diag by lia.
Qed.

Lemma ranges_agree_body m l st f c :
  (forall p, p ∈ chunk_ptrs c -> p < length (heap st)) ->
  ranges_agree (heap st) c ->
  ranges_agree (heap (body_result m l st f c)) (add_line m (length (heap st)) c).
Proof.
  intros Hv Hr.
  destruct m; cbn [body_result heap add_line];
    match goal with |- ranges_agree (heap st ++ ?ext) _ =>
      pose proof (ranges_agree_app (heap st) ext c Hv Hr) as (HN & HO & HW & HR) end;
    unfold ranges_agree;
    cbn [add_Added add_Removed add_Unchanged
         DiffChunk.NewRange DiffChunk.OrigRange DiffChunk.WholeRange];
    rewrite ?lines_of_add, ?filter_snoc, ?is_removed_new, ?is_removed_next, ?HW, ?HR;
    cbn [DiffLine.Mode];
    repeat match goal with
      | |- context [decide ?P] =>
          destruct (decide P) as [Hd|Hd]; try (vm_compute in Hd; congruence)
      end;
    rewrite ?app_nil_r; split_and!; try done;
    apply Forall_app; (split; [done|]); (constructor; [|constructor]);
    first [ apply mode_in_new | apply mode_in_next ]; cbn [DiffLine.Mode];
    rewrite !elem_of_cons; auto.
Qed.

Lemma ranges_agree_empty h hd r1 r2 s l :
  ranges_agree h (DiffChunk.mk hd (DiffRange.mk r1 r2 slice.nil)
                               (DiffRange.mk s l slice.nil) DiffRange.zero).
Proof. by split_and!. Qed.

Lemma step_ranges_inv lines idx l st st' :
  ranges_inv st -> step lines idx l st = Ok st' -> ranges_inv st'.
Proof.
  intros [Hv Hall] H. split; [by eapply step_ptrs_valid|].
  apply step_chunks in H.
  destruct H as [_ _ Hh Hch|a b c d hd _ _ Hh Hch|A c m f _ _ _ _ _ Hch Hch' ->];
    intros x Hx.
  - rewrite Hh. rewrite Hch in Hx. by apply Hall.
  - rewrite Hh. rewrite Hch in Hx. apply elem_of_app in Hx as [Hx|Hx].
    + by apply Hall.
    + apply list_elem_of_singleton in Hx as ->. split; [|done].
      apply ranges_agree_empty.
  - rewrite Hch' in Hx. apply elem_of_app in Hx as [Hx|Hx].
    + assert (x ∈ all_chunks (diff st)) as Hx' by (rewrite Hch; apply elem_of_app; by left).
      destruct (Hall x Hx') as (Hr & HS & HL). split; [|done].
      assert (exists ext, heap (body_result m l (tick st) f c) = heap st ++ ext) as [ext ->].
      { destruct m; by eexists. }
      apply ranges_agree_app; [|done]. intros p Hp. by eapply Hv.
    + apply list_elem_of_singleton in Hx as ->.
      assert (c ∈ all_chunks (diff st)) as Hc' by (rewrite Hch; apply elem_of_app; right; by left).
      destruct (Hall c Hc') as (Hr & HS & HL). split.
      * apply (ranges_agree_body m l (tick st) f c); [|done].
        intros p Hp. by eapply Hv.
      * by destruct m.
Qed.

Lemma init_ranges_inv s : ranges_inv (init s).
Proof.
  split.
  - apply init_ptrs_valid.
  - intros c Hc. by apply elem_of_nil in Hc.
Qed.

Lemma hunk_ranges_inv_of s h d c :
  Parse s = Ok (h, d) ->
  c ∈ all_chunks d ->
  ranges_agree h c.
Proof.
  intros HP Hc. apply Parse_Ok in HP as (st & H & -> & ->).
  apply (loop_inv ranges_inv (strings.Split s)) in H;
    [|intros idx l0 st0 st1; apply step_ranges_inv | apply init_ranges_inv].
  destruct H as [_ Hall]. by destruct (Hall c Hc) as (Hr & _).
Qed.

(** X9: in the Diff of a successful parse, for every hunk: the records
    of NewRange are Added or Unchanged lines and those of OrigRange
    Removed or Unchanged lines; WholeRange without its Removed records
    is NewRange, and the Removed records of WholeRange are those of
    OrigRange, in the same order; and the Start and Length of WholeRange
    are left zero. *)
Theorem hunk_ranges s h d c :
  Parse s = Ok (h, d) ->
  c ∈ all_chunks d ->
  Forall (mode_in h [Added; Unchanged]) (lines_of (DiffChunk.NewRange c))
  /\ Forall (mode_in h [Removed; Unchanged]) (lines_of (DiffChunk.OrigRange c))
  /\ filter (fun p => is_removed h p = false) (lines_of (DiffChunk.WholeRange c))
     = lines_of (DiffChunk.NewRange c)
  /\ filter (fun p => is_removed h p = true) (lines_of (DiffChunk.WholeRange c))
     = filter (fun p => is_removed h p = true) (lines_of (DiffChunk.OrigRange c))
  /\ DiffRange.Start (DiffChunk.WholeRange c) = 0%Z
  /\ DiffRange.Length (DiffChunk.WholeRange c) = 0%Z.
Proof.
  intros HP Hc. apply Parse_Ok in HP as (st & H & -> & ->).
  apply (loop_inv ranges_inv (strings.Split s)) in H;
    [|intros idx l0 st0 st1; apply step_ranges_inv | apply init_ranges_inv].
  destruct H as [_ Hall]. destruct (Hall c Hc) as ((HN & HO & HW & HR) & HS & HL).
  by split_and!.
Qed.

Lemma hunk_ranges_witness :
  Forall (mode_in sample_heap [Added; Unchanged])
         (lines_of (DiffChunk.NewRange sample_chunk))
  /\ Forall (mode_in sample_heap [Removed; Unchanged])
            (lines_of (DiffChunk.OrigRange sample_chunk))
  /\ filter (fun p => is_removed sample_heap p = false)
            (lines_of (DiffChunk.WholeRange sample_chunk))
     = lines_of (DiffChunk.NewRange sample_chunk)
  /\ filter (fun p => is_removed sample_heap p = true)
            (lines_of (DiffChunk.WholeRange sample_chunk))
     = filter (fun p => is_removed sample_heap p = true)
              (lines_of (DiffChunk.OrigRange sample_chunk))
  /\ DiffRange.Start (DiffChunk.WholeRange sample_chunk) = 0%Z
  /\ DiffRange.Length (DiffChunk.WholeRange sample_chunk) = 0%Z.
Proof.
  apply (hunk_ranges sample sample_heap sample_diff sample_chunk).
  - vm_compute. reflexivity.
  - vm_compute. left.
Defined.

(** ** Counting with a filter *)

Lemma length_filter_split {A} (f : A -> bool) (l : list A) :
  length l = length (filter (fun x => f x = false) l)
             + length (filter (fun x => f x = true) l).
Proof.
  induction l as [|x l IH]; [done|].
  rewrite !filter_cons.
  destruct (f x) eqn:E; repeat case_decide; try congruence; simpl; lia.
Qed.

(** ** Mode and names of the files *)

Lemma files_nil_or_snoc (d : Diff.t) :
  files_of d = [] \/ exists F f, files_of d = F ++ [f].
Proof.
  destruct (files_of d) as [|x l] using rev_ind; [by left|]. right. eauto.
Qed.

Lemma step_names lines idx l st st' :
  step lines idx l st = Ok st' ->
  if strings.HasPrefix l "diff "
  then exists f0, files_of (diff st') = files_of (diff st) ++ [f0]
                  /\ names f0 = names_start
  else (files_of (diff st) = [] /\ files_of (diff st') = [])
       \/ exists F f f', files_of (diff st) = F ++ [f]
                         /\ files_of (diff st') = F ++ [f']
                         /\ names f' = name_line (names f) l.
Proof.
  unfold step, classify, oldFilePrefix, newFilePrefix.
  change (inHunk (tick st)) with (inHunk st).
  destruct (strings.HasPrefix l "diff ") eqn:E1.
  { intros [= <-]. eexists. split; [reflexivity|]. reflexivity. }
  unfold name_line, names.
  destruct (String.eqb l "+++ /dev/null") eqn:E2.
  { intros H. apply with_file_Ok in H as (F & f & HF & ->). right.
    exists F, f, (DiffFile.set_Mode Deleted f).
    split_and!; [done | exact (files_store_file (tick st) F f _ HF) | done]. }
  destruct (String.eqb l "--- /dev/null") eqn:E3.
  { intros H. apply with_file_Ok in H as (F & f & HF & ->). right.
    exists F, f, (DiffFile.set_Mode New f).
    split_and!; [done | exact (files_store_file (tick st) F f _ HF) | done]. }
  destruct (strings.HasPrefix l "--- a/") eqn:E4.
  { intros H. apply with_file_Ok in H as (F & f & HF & ->). right.
    eexists F, f, _.
    split_and!; [done | exact (files_store_file (tick st) F f _ HF) |].
    unfold strings.TrimPrefix. by rewrite E4. }
  destruct (strings.HasPrefix l "+++ b/") eqn:E5.
  { intros H. apply with_file_Ok in H as (F & f & HF & ->). right.
    eexists F, f, _.
    split_and!; [done | exact (files_store_file (tick st) F f _ HF) |].
    unfold strings.TrimPrefix. by rewrite E5. }
  destruct (strings.HasPrefix l "@@ ") eqn:E6.
  { intros H. apply case_hunk_Ok in H as (F & f & a & b & c & d & hd & HF & _ & ->).
    right. eexists F, f, _. cbn [diff].
    split_and!; [done | exact (files_store_file (tick st) F f _ HF) | done]. }
  destruct (inHunk st && isSourceLine l) eqn:E7.
  { intros H. apply case_body_Ok in H as (F & f & C & c & m & HF & _ & _ & _ & ->).
    right. eexists F, f, _. rewrite diff_body_result.
    split_and!; [done | exact (files_store_file (tick st) F f _ HF) | done]. }
  intros [= <-]. change (diff (tick st)) with (diff st).
  destruct (files_nil_or_snoc (diff st)) as [Hn|(F & f & HF)]; [by left|].
  right. by exists F, f, f.
Qed.

Lemma loop_names lines rest :
  forall idx st st',
    loop lines idx rest st = Ok st' ->
    (files_of (diff st) = [] ->
       map names (files_of (diff st'))
       = map (fun sec => fold_left name_line sec names_start) (files_lines rest))
    /\ (forall F f, files_of (diff st) = F ++ [f] ->
          map names (files_of (diff st'))
          = map names F ++ [fold_left name_line (file_lines rest) (names f)]
            ++ map (fun sec => fold_left name_line sec names_start) (files_lines rest)).
Proof.
  induction rest as [|l rest IH]; intros idx st st' H.
  - injection H as <-. split.
    + by intros ->.
    + intros F f ->. by rewrite map_app.
  - simpl in H. apply bind_Ok in H as (st1 & H1 & H2).
    apply step_names in H1. destruct (IH _ _ _ H2) as [IH1 IH2].
    cbn [file_lines files_lines].
    destruct (strings.HasPrefix l "diff ") eqn:E.
    + destruct H1 as (f0 & Hf0 & Hn0).
      rewrite (IH2 _ _ Hf0), Hn0. split.
      * by intros ->.
      * intros F f ->. by rewrite map_app, <- app_assoc.
    + destruct H1 as [[Hn Hn1]|(F & f & f' & HF & HF' & Hnm)]; split.
      * intros _. by apply IH1.
      * intros F f HF. rewrite Hn in HF. by destruct F.
      * intros Hn. rewrite Hn in HF. by destruct F.
      * intros F0 f0 HF0. rewrite HF in HF0. apply app_inj_tail in HF0 as [<- <-].
        by rewrite (IH2 _ _ HF'), Hnm.
Qed.

(** X11: in the Diff of a successful parse, the Mode, OrigName and
    NewName of each file are what the lines from its [diff ] line to the
    next one make of them, taken in order and whether in a hunk or not:
    Mode starts as Modified and is set by each [+++ /dev/null]
    (Deleted) and [--- /dev/null] (New) line, OrigName is the rest of
    the last line starting with [--- a/] and NewName the rest of the
    last line starting with [+++ b/], and a name is empty when there is
    no such line. *)
Theorem file_names s h d :
  Parse s = Ok (h, d) ->
  map names (files_of d)
  = map (fun sec => fold_left name_line sec names_start)
        (files_lines (strings.Split s)).
Proof.
  intros HP. apply Parse_Ok in HP as (st & H & -> & ->).
  apply loop_names in H as [H _]. by apply H.
Qed.

Lemma file_names_witness :
  map names (files_of sample_diff)
  = map (fun sec => fold_left name_line sec names_start)
        (files_lines (strings.Split sample)).
Proof.
  apply (file_names sample sample_heap sample_diff).
  vm_compute. reflexivity.
Defined.

(** For instance, a removed line inside a hunk that reads [--- a/...]
    in the diff (a line [-- a/...] of the file) is not stored as a line
    record but renames the file: after it OrigName is what follows the
    prefix, and the hunk holds the other body line only. *)
Example body_line_renames_file :
  exists h d f c,
    Parse sample_names = Ok (h, d)
    /\ files_of d = [f]
    /\ DiffFile.OrigName f = "b"
    /\ chunks_of f = [c]
    /\ length (lines_of (DiffChunk.WholeRange c)) = 1
    /\ lines_of (DiffChunk.OrigRange c) = [1].
Proof.
  eexists _, _, _, _. split_and!; [vm_compute; reflexivity | reflexivity..].
Qed.

(** ** Which record belongs to which range *)

Lemma range_ptrs_add_line m n c :
  range_ptrs (add_line m n c)
  ≡ₚ range_ptrs c ++ seq n (match m with Unchanged => 2 | _ => 1 end).
Proof.
  unfold range_ptrs.
  destruct m; cbn [add_line add_Added add_Removed add_Unchanged
                   DiffChunk.NewRange DiffChunk.OrigRange seq];
    rewrite ?lines_of_add.
  - rewrite <- !app_assoc. apply Permutation_app_head, Permutation_app_comm.
  - by rewrite <- !app_assoc.
  - rewrite <- !app_assoc. apply Permutation_app_head.
    change [n; S n] with ([n] ++ [S n]). rewrite !app_assoc.
    apply Permutation_app_tail, Permutation_app_comm.
Qed.

Lemma step_partition lines idx l st st' :
  flat_map range_ptrs (all_chunks (diff st)) ≡ₚ seq 0 (length (heap st)) ->
  step lines idx l st = Ok st' ->
  flat_map range_ptrs (all_chunks (diff st')) ≡ₚ seq 0 (length (heap st')).
Proof.
  intros Hi H. apply step_chunks in H.
  destruct H as [_ _ Hh Hch|a b c d hd _ _ Hh Hch|A c m f _ _ _ _ _ Hch Hch' ->].
  - by rewrite Hh, Hch.
  - rewrite Hh, Hch, flat_map_app. simpl. by rewrite app_nil_r.
  - rewrite Hch', length_heap_body_result. change (heap (tick st)) with (heap st).
    rewrite Hch in Hi. rewrite flat_map_app in Hi |- *. simpl in Hi |- *.
    rewrite app_nil_r in Hi |- *.
    rewrite range_ptrs_add_line, app_assoc, Hi, seq_app. done.
Qed.

(** X12: in the result of a successful parse every line record belongs
    to exactly one range among the NewRanges and OrigRanges of all the
    hunks, and is listed there once: those ranges together hold each
    address of the store exactly once.  So no record is shared between
    two hunks or between the NewRange and the OrigRange of a hunk (an
    Unchanged line has a record of its own in each), and no record is
    left out. *)
Theorem records_partition s h d :
  Parse s = Ok (h, d) ->
  flat_map range_ptrs (all_chunks d) ≡ₚ seq 0 (length h).
Proof.
  intros HP. apply Parse_Ok in HP as (st & H & -> & ->).
  apply (loop_inv
           (fun st => flat_map range_ptrs (all_chunks (diff st)) ≡ₚ seq 0 (length (heap st)))
           (strings.Split s)) in H; [done| |done].
  intros idx l st0 st1. apply step_partition.
Qed.

Lemma records_partition_witness :
  flat_map range_ptrs (all_chunks sample_diff) ≡ₚ seq 0 (length sample_heap).
Proof.
  apply (records_partition sample sample_heap sample_diff).
  vm_compute. reflexivity.
Defined.

(** ** The hunks of each file *)

Lemma lines_with_nil p : lines_with p [] = [].
Proof. reflexivity. Qed.

Lemma step_file_hunks lines idx l st st' :
  step lines idx l st = Ok st' ->
  if strings.HasPrefix l "diff "
  then exists f0, files_of (diff st') = files_of (diff st) ++ [f0]
                  /\ file_hunks f0 = []
  else (files_of (diff st) = [] /\ files_of (diff st') = [])
       \/ exists F f f', files_of (diff st) = F ++ [f]
                         /\ files_of (diff st') = F ++ [f']
                         /\ file_hunks f'
                            = file_hunks f ++ map parse_heading (lines_with "@@ " [l]).
Proof.
  intros H. rewrite lines_with_cons, lines_with_nil, app_nil_r.
  pose proof (fun b => classify_not_CaseDiff b l) as Hnd.
  pose proof (fun b => classify_not_CaseHunk b l) as Hnh.
  step_cases H.
  - apply classify_CaseDiff in Hc. rewrite Hc. eexists. split; reflexivity.
  - rewrite (Hnd _ Hc1), (Hnh _ Hc2). right. exists F, f, (upd f).
    split_and!; [done | exact (files_store_file (tick st) F f _ HF) |].
    unfold file_hunks, chunks_of. destruct (Hupd f) as [_ ->]. by rewrite app_nil_r.
  - rewrite (Hnd (inHunk st)) by congruence. apply classify_CaseHunk in Hc. rewrite Hc.
    right. eexists F, f, _. cbn [diff].
    split_and!; [done | exact (files_store_file st F f _ HF) |].
    unfold file_hunks, chunks_of. cbn [DiffFile.set_Chunks DiffFile.Chunks map].
    by rewrite elems_append, map_app, Hp.
  - rewrite (Hnd (inHunk st)), (Hnh (inHunk st)) by congruence.
    right. eexists F, f, _. rewrite diff_body_result.
    split_and!; [done | exact (files_store_file (tick st) F f _ HF) |].
    unfold file_hunks. rewrite (chunks_store_hunk _ _ _ _ HC), HC, !map_app. cbn [map].
    rewrite app_nil_r. do 3 f_equal.
    change (heap (tick st)) with (heap st). by destruct m.
  - rewrite (Hnd (inHunk st)), (Hnh (inHunk st)) by congruence.
    change (diff (tick st)) with (diff st).
    destruct (files_nil_or_snoc (diff st)) as [Hn|(F & f & HF)]; [by left|].
    right. exists F, f, f. by rewrite app_nil_r.
Qed.

Lemma loop_file_hunks lines rest :
  forall idx st st',
    loop lines idx rest st = Ok st' ->
    (files_of (diff st) = [] ->
       map file_hunks (files_of (diff st'))
       = map (fun sec => map parse_heading (lines_with "@@ " sec)) (files_lines rest))
    /\ (forall F f, files_of (diff st) = F ++ [f] ->
          map file_hunks (files_of (diff st'))
          = map file_hunks F
            ++ [file_hunks f ++ map parse_heading (lines_with "@@ " (file_lines rest))]
            ++ map (fun sec => map parse_heading (lines_with "@@ " sec)) (files_lines rest)).
Proof.
  induction rest as [|l rest IH]; intros idx st st' H.
  - injection H as <-. split.
    + by intros ->.
    + intros F f ->. rewrite map_app. cbn [file_lines files_lines map].
      rewrite lines_with_nil. cbn [map]. by rewrite !app_nil_r.
  - simpl in H. apply bind_Ok in H as (st1 & H1 & H2).
    apply step_file_hunks in H1. destruct (IH _ _ _ H2) as [IH1 IH2].
    cbn [file_lines files_lines].
    destruct (strings.HasPrefix l "diff ") eqn:E.
    + destruct H1 as (f0 & Hf0 & Hn0).
      rewrite (IH2 _ _ Hf0), Hn0. split.
      * by intros ->.
      * intros F f ->. rewrite map_app, <- app_assoc, lines_with_nil. cbn [map].
        by rewrite app_nil_r.
    + destruct H1 as [[Hn Hn1]|(F & f & f' & HF & HF' & Hnm)]; split.
      * intros _. by apply IH1.
      * intros F f HF. rewrite Hn in HF. by destruct F.
      * intros Hn. rewrite Hn in HF. by destruct F.
      * intros F0 f0 HF0. rewrite HF in HF0. apply app_inj_tail in HF0 as [<- <-].
        rewrite (IH2 _ _ HF'), Hnm.
        rewrite (lines_with_cons _ l (file_lines rest)), map_app, <- app_assoc.
        do 3 f_equal. by rewrite lines_with_cons, lines_with_nil, app_nil_r.
Qed.

(** X13: in the Diff of a successful parse each file holds the hunks of
    the headings between its [diff ] line and the next one, in input
    order: the fields of its hunks are what the lines starting with
    [@@ ] in that part of the input parse to. *)
Theorem hunks_of_files s h d :
  Parse s = Ok (h, d) ->
  map file_hunks (files_of d)
  = map (fun sec => map parse_heading (lines_with "@@ " sec))
        (files_lines (strings.Split s)).
Proof.
  intros HP. apply Parse_Ok in HP as (st & H & -> & ->).
  apply loop_file_hunks in H as [H _]. by apply H.
Qed.

Lemma hunks_of_files_witness :
  map file_hunks (files_of sample_diff)
  = map (fun sec => map parse_heading (lines_with "@@ " sec))
        (files_lines (strings.Split sample)).
Proof.
  apply (hunks_of_files sample sample_heap sample_diff).
  vm_compute. reflexivity.
Defined.

(** ** The lines of each hunk *)

Lemma step_inHunk lines idx l st st' :
  step lines idx l st = Ok st' ->
  inHunk st' = if strings.HasPrefix l "diff " then false
               else if strings.HasPrefix l "@@ " then true
               else inHunk st.
Proof.
  intros H.
  pose proof (fun b => classify_not_CaseDiff b l) as Hnd.
  pose proof (fun b => classify_not_CaseHunk b l) as Hnh.
  step_cases H.
  - apply classify_CaseDiff in Hc. by rewrite Hc.
  - by rewrite (Hnd _ Hc1), (Hnh _ Hc2).
  - rewrite (Hnd (inHunk st)) by congruence. apply classify_CaseHunk in Hc. by rewrite Hc.
  - rewrite (Hnd (inHunk st)), (Hnh (inHunk st)) by congruence. by destruct m.
  - by rewrite (Hnd (inHunk st)), (Hnh (inHunk st)) by congruence.
Qed.

Lemma classify_true b l : b = true -> classify true l = classify b l.
Proof. by intros ->. Qed.

Lemma body_record_not_body l : classify true l <> CaseBody -> body_record l = [].
Proof. unfold body_record. by destruct (classify true l). Qed.

Lemma body_record_body l m :
  classify true l = CaseBody -> lineMode l = Ok m ->
  body_record l = [(m, strings.drop (match m with Unchanged => 1 | _ => 2 end) l)].
Proof. unfold body_record. intros -> ->. by destruct m. Qed.

Lemma shown_body_result m l st f c h' :
  heap (body_result m l st f c) `prefix_of` h' ->
  shown h' (length (heap st))
  = Some (m, strings.drop (match m with Unchanged => 1 | _ => 2 end) l).
Proof.
  intros Hp. unfold shown.
  assert (exists dl, heap (body_result m l st f c) !! length (heap st) = Some dl
                     /\ DiffLine.Mode dl = m
                     /\ DiffLine.Content dl
                        = strings.drop (match m with Unchanged => 1 | _ => 2 end) l)
    as (dl & Hdl & Hm & Hcn).
  { destruct m; cbn [body_result heap]; eexists;
      (split; [by apply list_lookup_middle | done]). }
  rewrite (prefix_lookup_Some _ _ _ _ Hdl Hp). simpl. by rewrite Hm, Hcn.
Qed.

Lemma whole_view_add_line h m n c :
  whole_view h (add_line m n c) = whole_view h c ++ [shown h n].
Proof.
  unfold whole_view.
  destruct m; cbn [add_line add_Added add_Removed add_Unchanged DiffChunk.WholeRange];
    by rewrite lines_of_add, map_app.
Qed.

Lemma loop_whole lines rest :
  forall idx st st',
    loop lines idx rest st = Ok st' ->
    (inHunk st = false ->
       map (whole_view (heap st')) (all_chunks (diff st'))
       = map (whole_view (heap st')) (all_chunks (diff st))
         ++ map whole_spec (hunks_lines rest))
    /\ (forall A c, inHunk st = true -> all_chunks (diff st) = A ++ [c] ->
          map (whole_view (heap st')) (all_chunks (diff st'))
          = map (whole_view (heap st')) A
            ++ [whole_view (heap st') c ++ whole_spec (hunk_lines rest)]
            ++ map whole_spec (hunks_lines rest)).
Proof.
  induction rest as [|l rest IH]; intros idx st st' H.
  - injection H as <-. cbn [hunk_lines hunks_lines map]. unfold whole_spec. cbn [flat_map map].
    split.
    + intros _. by rewrite app_nil_r.
    + intros A c _ ->. by rewrite map_app, !app_nil_r.
  - simpl in H. apply bind_Ok in H as (st1 & H1 & H2).
    pose proof (step_inHunk _ _ _ _ _ H1) as Hin.
    pose proof (loop_extends _ _ _ _ _ H2) as (Hpre & _ & _).
    destruct (IH _ _ _ H2) as [IH1 IH2].
    apply step_chunks in H1.
    cbn [hunk_lines hunks_lines].
    destruct H1 as [Hnb Hnh Hh Hch|a b c0 d hd Hc Hp Hh Hch|A0 c0 m f Hc Hm _ _ _ Hch Hch' Hst1].
    + rewrite (classify_not_CaseHunk _ _ Hnh) in Hin |- *. rewrite orb_false_r.
      destruct (strings.HasPrefix l "diff ") eqn:E.
      * rewrite (IH1 Hin), Hch. split; [done|].
        intros A c _ ->. unfold whole_spec at 2. cbn [flat_map map].
        by rewrite map_app, app_nil_r, <- app_assoc.
      * split.
        -- intros Hf. rewrite Hf in Hin. by rewrite (IH1 Hin), Hch.
        -- intros A c Ht HA. rewrite Ht in Hin. rewrite Hch in IH2.
           rewrite (IH2 A c Hin HA). do 3 f_equal.
           unfold whole_spec. cbn [flat_map].
           rewrite body_record_not_body; [done|].
           by rewrite (classify_true (inHunk st)).
    + rewrite (classify_not_CaseDiff (inHunk st) l) in Hin |- * by congruence.
      apply classify_CaseHunk in Hc. rewrite Hc in Hin |- *. cbn [orb map].
      rewrite (IH2 _ _ Hin Hch). split.
      * intros _. done.
      * intros A c _ ->. unfold whole_spec at 3. cbn [flat_map map].
        by rewrite map_app, app_nil_r, <- !app_assoc.
    + pose proof (classify_CaseBody _ _ Hc) as (Ht & _ & _).
      rewrite (classify_not_CaseDiff (inHunk st) l) in Hin |- * by congruence.
      rewrite (classify_not_CaseHunk (inHunk st) l) in Hin |- * by congruence.
      cbn [orb]. split; [congruence|].
      intros A c _ HA. rewrite Hch in HA. apply app_inj_tail in HA as [<- <-].
      rewrite Ht in Hin. rewrite (IH2 _ _ Hin Hch'). do 2 f_equal. f_equal.
      rewrite whole_view_add_line, <- app_assoc. f_equal.
      unfold whole_spec. cbn [flat_map].
      rewrite (body_record_body l m); [|by rewrite (classify_true (inHunk st))|done].
      cbn [app map]. f_equal.
      subst st1. change (length (heap st)) with (length (heap (tick st))).
      by eapply shown_body_result.
Qed.

(** X14: in the result of a successful parse the WholeRange of each
    hunk lists the body lines between the hunk's heading and the next
    line that starts a hunk or a file, one record for each, in input
    order, with the mode of the line's first byte and its content (the
    line without the first byte when Unchanged, without the first two
    otherwise); the lines of that part that are no body lines leave no
    record. *)
Theorem whole_range_lines s h d :
  Parse s = Ok (h, d) ->
  map (whole_view h) (all_chunks d) = map whole_spec (hunks_lines (strings.Split s)).
Proof.
  intros HP. apply Parse_Ok in HP as (st & H & -> & ->).
  apply loop_whole in H as [H _]. by apply H.
Qed.

Lemma whole_range_lines_witness :
  map (whole_view sample_heap) (all_chunks sample_diff)
  = map whole_spec (hunks_lines (strings.Split sample)).
Proof.
  apply (whole_range_lines sample sample_heap sample_diff).
  vm_compute. reflexivity.
Defined.

(** ** The only errors *)

Lemma lineMode_Err_inv l e :
  lineMode l = Err e ->
  e = line_mode_error l
  /\ strings.HasPrefix l " " = false
  /\ strings.HasPrefix l "+" = false
  /\ strings.HasPrefix l "-" = false.
Proof.
  destruct l as [|a l]; [done|].
  rewrite !HasPrefix_cons, !andb_true_r.
  rewrite (Ascii.eqb_sym " " a), (Ascii.eqb_sym "+" a), (Ascii.eqb_sym "-" a).
  unfold lineMode, strings.slice_to. simpl.
  destruct (Ascii.eqb a " "); [done|].
  destruct (Ascii.eqb a "+"); [done|].
  destruct (Ascii.eqb a "-"); [done|].
  by intros [= <-].
Qed.

Lemma case_body_Err l st e : case_body l st = Err e -> lineMode l = Err e.
Proof.
  unfold case_body. destruct (lineMode l) as [m|e'|p]; simpl; [|by intros [= ->]|done].
  destruct (strings.slice_from l 1) as [content|e'|p] eqn:Hc; simpl; [| |done].
  - destruct (file st) as [f|]; [|done]. destruct (hunk st) as [c|]; [|done].
    destruct m; simpl; try done;
      unfold strings.slice_from;
      destruct (Nat.leb 1 (String.length content)); simpl; done.
  - unfold strings.slice_from in Hc. by destruct (Nat.leb 1 (String.length l)).
Qed.

Lemma step_Err lines idx l st e :
  step lines idx l st = Err e ->
  (strings.HasPrefix l "@@ " = true /\ parse_heading l = Err e)
  \/ (classify (inHunk st) l = CaseBody /\ lineMode l = Err e).
Proof.
  unfold step. change (inHunk (tick st)) with (inHunk st).
  destruct (classify (inHunk st) l) eqn:Hc; try done; unfold with_file;
    try (by destruct (file (tick st))).
  - intros H. left. split; [by apply (classify_CaseHunk (inHunk st))|].
    unfold case_hunk in H. destruct (file (tick st)); [|done].
    destruct (parse_heading l) as [[[[[a b] c] d] hd]|e'|p]; simpl in H; try done.
    by injection H as ->.
  - intros H. right. split; [done|]. by eapply case_body_Err.
Qed.

Lemma loop_Err lines rest idx st e :
  loop lines idx rest st = Err e ->
  exists k l st_k,
    rest !! k = Some l
    /\ loop lines idx (take k rest) st = Ok st_k
    /\ step lines (idx + k) l st_k = Err e.
Proof.
  revert idx st. induction rest as [|l rest IH]; intros idx st H; [done|].
  simpl in H. destruct (step lines idx l st) as [st1|e1|] eqn:Hs; simpl in H; [| |done].
  - destruct (IH _ _ H) as (k & l' & st_k & Hl' & Hk & Hp).
    exists (S k), l', st_k. split; [done|]. split.
    + simpl. by rewrite Hs.
    + by replace (idx + S k) with (S idx + k) by lia.
  - injection H as ->. exists 0, l, st. rewrite Nat.add_0_r. done.
Qed.

(** X15: Parse returns an error in two ways only.  Either a line that
    starts with [@@ ] fails to parse as a heading, and the error is the
    one of the heading; or a line that is taken as a body line of a
    hunk begins with none of the space, [+] and [-], and the error is
    the line-mode error of that line.  The lines before it have been
    processed without error. *)
Theorem Parse_Err_cases s e :
  Parse s = Err e ->
  exists j l st,
    strings.Split s !! j = Some l
    /\ state_after s j = Ok st
    /\ ((strings.HasPrefix l "@@ " = true /\ parse_heading l = Err e)
        \/ (inHunk st = true /\ isSourceLine l = true
            /\ e = line_mode_error l
            /\ strings.HasPrefix l " " = false
            /\ strings.HasPrefix l "+" = false
            /\ strings.HasPrefix l "-" = false)).
Proof.
  unfold Parse. intros H.
  destruct (loop (strings.Split s) 0 (strings.Split s) (init s)) as [st|e'|] eqn:Hloop;
    simpl in H; try done. injection H as ->.
  destruct (loop_Err _ _ _ _ _ Hloop) as (j & l & st & Hl & Hst & Hs).
  exists j, l, st. split_and!; [done..|].
  apply step_Err in Hs as [Hs|[Hc Hm]]; [by left|right].
  apply classify_CaseBody in Hc as (Hin & Hsrc & _).
  apply lineMode_Err_inv in Hm. tauto.
Qed.

Lemma Parse_Err_cases_witness :
  exists j l st,
    strings.Split sample_mode !! j = Some l
    /\ state_after sample_mode j = Ok st
    /\ ((strings.HasPrefix l "@@ " = true
         /\ parse_heading l = Err (line_mode_error "xyz"))
        \/ (inHunk st = true /\ isSourceLine l = true
            /\ line_mode_error "xyz" = line_mode_error l
            /\ strings.HasPrefix l " " = false
            /\ strings.HasPrefix l "+" = false
            /\ strings.HasPrefix l "-" = false)).
Proof.
  apply (Parse_Err_cases sample_mode (line_mode_error "xyz")).
  vm_compute. reflexivity.
Defined.

(** ** Which lines are body lines *)

Lemma HasPrefix_take l p :
  strings.HasPrefix l p
  = Nat.leb (String.length p) (String.length l)
    && String.eqb (strings.take (String.length p) l) p.
Proof.
  revert l. induction p as [|c p IH]; intros l.
  - by rewrite HasPrefix_empty.
  - destruct l as [|d l]; [done|].
    rewrite HasPrefix_cons, IH. cbn [String.length strings.take Nat.leb String.eqb].
    rewrite (Ascii.eqb_sym d c).
    by destruct (Ascii.eqb c d), (Nat.leb (String.length p) (String.length l)).
Qed.

Lemma isSourceLine_true l :
  isSourceLine l = true <->
  l <> EmptyString /\ l <> "\ No newline at end of file"
  /\ strings.HasPrefix l "---" = false /\ strings.HasPrefix l "+++" = false.
Proof.
  unfold isSourceLine.
  rewrite (HasPrefix_take l "---"), (HasPrefix_take l "+++").
  cbn [String.length].
  destruct (String.eqb_spec l "\ No newline at end of file") as [->|Hm].
  { split; [done | by intros (_ & H & _)]. }
  destruct l as [|a l].
  { split; [done | by intros (H & _)]. }
  cbn [String.length Nat.eqb orb].
  destruct (Nat.leb 3 (S (String.length l))); cbn [andb].
  - destruct (String.eqb (strings.take 3 (String a l)) "---"),
             (String.eqb (strings.take 3 (String a l)) "+++"); cbn [orb];
      split; try done; by intros (_ & _ & ? & ?).
  - by split.
Qed.

Lemma HasPrefix_longer l p q :
  strings.HasPrefix l (p +:+ q) = true -> strings.HasPrefix l p = true.
Proof.
  intros H. apply HasPrefix_app in H as [r ->]. apply HasPrefix_app.
  exists (q +:+ r). revert q r. induction p as [|c p IH]; intros q r; [done|].
  change (String c ((p +:+ q) +:+ r) = String c (p +:+ (q +:+ r))). by rewrite IH.
Qed.

(** X16: inside a hunk a line is taken as a body line exactly when it
    is not empty, is not the no-newline marker, and starts with none of
    [diff ], [@@ ], [---] and [+++]: the lines that name a file or set
    its mode all start with [---] or [+++], which [isSourceLine]
    rejects.  So a removed line whose text begins with two dashes, or an
    added line whose text begins with two plus signs, is never stored. *)
Theorem body_line_iff l :
  classify true l = CaseBody <->
  l <> EmptyString /\ l <> "\ No newline at end of file"
  /\ strings.HasPrefix l "diff " = false /\ strings.HasPrefix l "@@ " = false
  /\ strings.HasPrefix l "---" = false /\ strings.HasPrefix l "+++" = false.
Proof.
  split.
  - intros H. pose proof (classify_CaseBody _ _ H) as (_ & Hs & Hne).
    apply isSourceLine_true in Hs as (_ & Hm & Hd & Hp).
    split_and!; try done.
    + apply (classify_not_CaseDiff true). congruence.
    + apply (classify_not_CaseHunk true). congruence.
  - intros (Hne & Hm & Hdiff & Hat & Hd & Hp).
    assert (isSourceLine l = true) as Hs by by apply isSourceLine_true.
    unfold classify, oldFilePrefix, newFilePrefix. rewrite Hdiff, Hat, Hs.
    destruct (String.eqb_spec l "+++ /dev/null") as [->|_]; [done|].
    destruct (String.eqb_spec l "--- /dev/null") as [->|_]; [done|].
    destruct (strings.HasPrefix l "--- a/") eqn:E1.
    { apply (HasPrefix_longer l "---" " a/") in E1. congruence. }
    destruct (strings.HasPrefix l "+++ b/") eqn:E2.
    { apply (HasPrefix_longer l "+++" " b/") in E2. congruence. }
    done.
Qed.

(** ** Added and Removed lines *)


Lemma marker_inj m m' : marker m = marker m' -> m = m'.
Proof. by destruct m, m'. Qed.





(** ** [Length] and the body lines of a hunk *)

Lemma body_lines_cons l sec :
  body_lines (l :: sec) = (if is_body_line l then 1 else 0) + body_lines sec.
Proof.
  unfold body_lines. rewrite filter_cons.
  destruct (is_body_line l); [by rewrite decide_True | by rewrite decide_False].
Qed.

Lemma whole_length_add_line m n c :
  whole_length (add_line m n c) = S (whole_length c).
Proof.
  unfold whole_length.
  destruct m; cbn [add_line add_Added add_Removed add_Unchanged DiffChunk.WholeRange];
    rewrite lines_of_add, length_app; simpl; lia.
Qed.

Lemma loop_whole_length lines rest :
  forall idx st st',
    loop lines idx rest st = Ok st' ->
    (inHunk st = false ->
       map whole_length (all_chunks (diff st'))
       = map whole_length (all_chunks (diff st)) ++ map body_lines (hunks_lines rest))
    /\ (forall A c, inHunk st = true -> all_chunks (diff st) = A ++ [c] ->
          map whole_length (all_chunks (diff st'))
          = map whole_length A
            ++ [whole_length c + body_lines (hunk_lines rest)]
            ++ map body_lines (hunks_lines rest)).
Proof.
  induction rest as [|l rest IH]; intros idx st st' H.
  - injection H as <-. cbn [hunk_lines hunks_lines map]. split.
    + intros _. by rewrite app_nil_r.
    + intros A c _ ->. rewrite map_app. cbn [map].
      by rewrite Nat.add_0_r, app_nil_r.
  - simpl in H. apply bind_Ok in H as (st1 & H1 & H2).
    pose proof (step_inHunk _ _ _ _ _ H1) as Hin.
    destruct (IH _ _ _ H2) as [IH1 IH2].
    apply step_chunks in H1.
    cbn [hunk_lines hunks_lines].
    destruct H1 as [Hnb Hnh Hh Hch|a b c0 d hd Hc Hp Hh Hch|A0 c0 m f Hc Hm _ _ _ Hch Hch' Hst1].
    + rewrite (classify_not_CaseHunk _ _ Hnh) in Hin |- *. rewrite orb_false_r.
      destruct (strings.HasPrefix l "diff ") eqn:E.
      * rewrite (IH1 Hin), Hch. split; [done|].
        intros A c _ ->. rewrite map_app. cbn [map].
        change (body_lines []) with 0. by rewrite Nat.add_0_r, <- app_assoc.
      * split.
        -- intros Hf. rewrite Hf in Hin. by rewrite (IH1 Hin), Hch.
        -- intros A c Ht HA. rewrite Ht in Hin. rewrite Hch in IH2.
           rewrite (IH2 A c Hin HA), body_lines_cons. do 3 f_equal.
           unfold is_body_line. rewrite (classify_true (inHunk st)) by done.
           by destruct (classify (inHunk st) l).
    + rewrite (classify_not_CaseDiff (inHunk st) l) in Hin |- * by congruence.
      apply classify_CaseHunk in Hc. rewrite Hc in Hin |- *. cbn [orb map].
      rewrite (IH2 _ _ Hin Hch). split.
      * intros _. done.
      * intros A c _ ->. rewrite map_app. cbn [map].
        change (body_lines []) with 0. by rewrite Nat.add_0_r, <- !app_assoc.
    + pose proof (classify_CaseBody _ _ Hc) as (Ht & _ & _).
      rewrite (classify_not_CaseDiff (inHunk st) l) in Hin |- * by congruence.
      rewrite (classify_not_CaseHunk (inHunk st) l) in Hin |- * by congruence.
      cbn [orb]. split; [congruence|].
      intros A c _ HA. rewrite Hch in HA. apply app_inj_tail in HA as [<- <-].
      rewrite Ht in Hin.
      rewrite (IH2 _ _ Hin Hch'), whole_length_add_line, body_lines_cons.
      unfold is_body_line. rewrite (classify_true (inHunk st)), Hc by done.
      do 2 f_equal. f_equal. lia.
Qed.

(** X10: for the hunks of a successful parse, taken in input order,
    [Length] is one more than the number of body lines between the
    hunk's heading and the next line that starts a hunk or a file (with
    the wrap-around of [int]); and for every hunk that is one more than
    the number of its NewRange records and its Removed OrigRange
    records together. *)
Theorem Length_of_hunk s h d :
  Parse s = Ok (h, d) ->
  map Chunk_Length (all_chunks d)
  = map (fun sec => int.wrap (Z.of_nat (body_lines sec) + 1))
        (hunks_lines (strings.Split s))
  /\ forall c, c ∈ all_chunks d ->
       Chunk_Length c
       = int.wrap (Z.of_nat (length (lines_of (DiffChunk.NewRange c))
                             + length (filter (fun p => is_removed h p = true)
                                              (lines_of (DiffChunk.OrigRange c)))) + 1).
Proof.
  intros HP. split.
  - apply Parse_Ok in HP as (st & H & -> & ->).
    apply loop_whole_length in H as [H _]. specialize (H eq_refl). simpl in H.
    change (map Chunk_Length (all_chunks (diff st)))
      with (map (fun c => (fun n => int.wrap (Z.of_nat n + 1)) (whole_length c))
                (all_chunks (diff st))).
    rewrite <- (map_map whole_length (fun n => int.wrap (Z.of_nat n + 1))), H.
    by rewrite map_map.
  - intros c Hc.
    destruct (hunk_ranges_inv_of s h d c HP Hc) as (_ & _ & HW & HR).
    unfold Chunk_Length. f_equal. f_equal. f_equal.
    change (slice.len (DiffRange.Lines (DiffChunk.WholeRange c)))
      with (length (lines_of (DiffChunk.WholeRange c))).
    rewrite (length_filter_split (is_removed h) (lines_of (DiffChunk.WholeRange c))).
    by rewrite HW, HR.
Qed.

Lemma Length_of_hunk_witness :
  map Chunk_Length (all_chunks sample_diff)
  = map (fun sec => int.wrap (Z.of_nat (body_lines sec) + 1))
        (hunks_lines (strings.Split sample))
  /\ forall c, c ∈ all_chunks sample_diff ->
       Chunk_Length c
       = int.wrap (Z.of_nat (length (lines_of (DiffChunk.NewRange c))
                             + length (filter (fun p => is_removed sample_heap p = true)
                                              (lines_of (DiffChunk.OrigRange c)))) + 1).
Proof.
  apply (Length_of_hunk sample sample_heap sample_diff).
  vm_compute. reflexivity.
Defined.
